(** * scirpy: graph construction and component layout (scirpy/util/graph.py)

    A shallow embedding of [scirpy.util.graph] and the properties of its
    specification.

    Conventions of the embedding.
    - A Python call that may raise returns [res A = exn + A].
    - Sparse matrices are mutable objects: they live in a store and are
      passed by reference; functions on them run in the store monad [M].
    - numpy's float64 is modelled by [float]: exact rational arithmetic on the
      finite values, together with the IEEE special values inf, -inf and nan.
      Rounding, overflow and the sign of zero are outside the model.
    - What igraph, numpy's argsort, the float power operator, rectangle-packer
      and squarify compute is not part of the repository; these are the fields
      of the record [Ext], and a theorem that needs a property of one of them
      states it as a hypothesis. *)

From Stdlib Require Import QArith Qabs Lqa ZArith Lia.
From stdpp Require Import gmap strings list sorting.

Local Open Scope string_scope.
Local Open Scope list_scope.

(** ** Exceptions and results *)

Inductive exn : Type :=
  | ValueError (msg : string)
  | ImportError (msg : string)
  | KeyError (key : string)
  | IndexError (msg : string)
  | ZeroDivisionError (msg : string)
  | OverflowError (msg : string).

Definition res (A : Type) : Type := (exn + A)%type.

Definition raise {A} (e : exn) : res A := inl e.

#[global] Instance res_ret : MRet res := λ A x, inr x.
#[global] Instance res_bind : MBind res := λ A B f m,
  match m with
  | inl e => inl e
  | inr x => f x
  end.
#[global] Instance res_fmap : FMap res := λ A B f m,
  match m with
  | inl e => inl e
  | inr x => inr (f x)
  end.

(** ** numpy floats *)

Module NpFloat.

Inductive float : Type :=
  | Fin (q : Q)
  | Inf (neg : bool)
  | NaN.

Definition of_Z (z : Z) : float := Fin (inject_Z z).

Definition zero : float := Fin 0.
Definition one : float := Fin 1.

Definition fopp (a : float) : float :=
  match a with
  | Fin x => Fin (- x)
  | Inf s => Inf (negb s)
  | NaN => NaN
  end.

Definition fadd (a b : float) : float :=
  match a, b with
  | NaN, _ | _, NaN => NaN
  | Fin x, Fin y => Fin (x + y)
  | Fin _, Inf s | Inf s, Fin _ => Inf s
  | Inf s, Inf t => if Bool.eqb s t then Inf s else NaN
  end.

Definition fsub (a b : float) : float := fadd a (fopp b).

(** The sign of a product or quotient with an infinite operand. *)
Definition signed_inf (x : Q) (s : bool) : float :=
  match (x ?= 0)%Q with
  | Eq => NaN
  | Lt => Inf (negb s)
  | Gt => Inf s
  end.

Definition fmul (a b : float) : float :=
  match a, b with
  | NaN, _ | _, NaN => NaN
  | Fin x, Fin y => Fin (x * y)
  | Fin x, Inf s | Inf s, Fin x => signed_inf x s
  | Inf s, Inf t => Inf (xorb s t)
  end.

(** numpy's true division: a zero divisor gives inf, -inf or nan (and a
    RuntimeWarning), never an exception. *)
Definition fdiv (a b : float) : float :=
  match a, b with
  | NaN, _ | _, NaN => NaN
  | Fin x, Fin y => if Qeq_bool y 0 then signed_inf x false else Fin (x / y)
  | Fin _, Inf _ => Fin 0
  | Inf s, Fin y => if Qle_bool 0 y then Inf s else Inf (negb s)
  | Inf _, Inf _ => NaN
  end.

Definition feqb (a b : float) : bool :=
  match a, b with
  | Fin x, Fin y => Qeq_bool x y
  | Inf s, Inf t => Bool.eqb s t
  | _, _ => false
  end.

Definition fleb (a b : float) : bool :=
  match a, b with
  | NaN, _ | _, NaN => false
  | Fin x, Fin y => Qle_bool x y
  | Fin _, Inf s => negb s
  | Inf s, Fin _ => s
  | Inf s, Inf t => s || negb t
  end.

Definition fltb (a b : float) : bool :=
  match a, b with
  | NaN, _ | _, NaN => false
  | Fin x, Fin y => negb (Qle_bool y x)
  | Fin _, Inf s => negb s
  | Inf s, Fin _ => s
  | Inf s, Inf t => s && negb t
  end.

Definition fabs (a : float) : float :=
  match a with
  | Fin x => Fin (Qabs x)
  | Inf _ => Inf false
  | NaN => NaN
  end.

(** [np.minimum] and [np.maximum]: a nan operand wins. *)
Definition minimum (a b : float) : float :=
  match a, b with
  | NaN, _ | _, NaN => NaN
  | _, _ => if fleb a b then a else b
  end.

Definition maximum (a b : float) : float :=
  match a, b with
  | NaN, _ | _, NaN => NaN
  | _, _ => if fleb a b then b else a
  end.

(** Python's [int(x)]: truncation towards zero. *)
Definition to_int (a : float) : res Z :=
  match a with
  | Fin x => inr (Z.quot (Qnum x) (Zpos (Qden x)))
  | Inf _ => raise (OverflowError "cannot convert float infinity to integer")
  | NaN => raise (ValueError "cannot convert float NaN to integer")
  end.

(** Python's [a / b] on two ints. *)
Definition int_truediv (a b : Z) : res float :=
  if (b =? 0)%Z then raise (ZeroDivisionError "division by zero")
  else inr (Fin (inject_Z a / inject_Z b)).

(** [0 < a <= 1] for a finite [a]. *)
Definition in_unit (a : float) : Prop :=
  match a with
  | Fin x => (0 < x)%Q ∧ (x <= 1)%Q
  | _ => False
  end.

End NpFloat.
Import NpFloat.

Declare Scope float_scope.
Delimit Scope float_scope with F.
Bind Scope float_scope with float.
Infix "+" := fadd : float_scope.
Infix "-" := fsub : float_scope.
Infix "*" := fmul : float_scope.
Infix "/" := fdiv : float_scope.
Infix "=?" := feqb : float_scope.
Infix "<?" := fltb : float_scope.
Infix "<=?" := fleb : float_scope.

(** ** Sparse matrices (scipy.sparse) *)

(** A cell of a row: the column index and the stored value. *)
Definition cell : Type := nat * float.

(** [csr_matrix]: the row pointer, column index and value arrays. Row [i]
    owns the positions [indptr[i] .. indptr[i+1] - 1] of [indices] and
    [data]. *)
Record csr_matrix : Type := mk_csr {
  csr_shape : nat * nat;
  indptr : list nat;
  indices : list nat;
  data : list float;
}.

(** [coo_matrix]: coordinate triplets, in any order. *)
Record coo_matrix : Type := mk_coo {
  coo_shape : nat * nat;
  coo_row : list nat;
  coo_col : list nat;
  coo_data : list float;
}.

(** [spmatrix]: the sparse layouts of the model. *)
Inductive spmatrix : Type :=
  | Csr (m : csr_matrix)
  | Coo (m : coo_matrix).

(** [l[a:b]] *)
Definition slice {A} (l : list A) (a b : nat) : list A := take (b - a) (drop a l).

Fixpoint rows_from {A} (start : nat) (ends : list nat) (cells : list A) : list (list A) :=
  match ends with
  | [] => []
  | e :: ends' => slice cells start e :: rows_from e ends' cells
  end.

(** The stored cells of a CSR matrix, row by row, in storage order. *)
Definition csr_rows (m : csr_matrix) : list (list cell) :=
  match indptr m with
  | [] => []
  | p0 :: ends => rows_from p0 ends (zip (indices m) (data m))
  end.

(** The row pointer array of rows of the given lengths. *)
Fixpoint indptr_from (start : nat) (lens : list nat) : list nat :=
  start ::
  match lens with
  | [] => []
  | n :: lens' => indptr_from (start + n) lens'
  end.

Definition csr_of_rows (shape : nat * nat) (rows : list (list cell)) : csr_matrix :=
  {| csr_shape := shape;
     indptr := indptr_from 0 (length <$> rows);
     indices := fst <$> mjoin rows;
     data := snd <$> mjoin rows |}.

(** scipy's format check for a CSR matrix. *)
Definition csr_wf (m : csr_matrix) : Prop :=
  length (indptr m) = S (csr_shape m).1 ∧
  head (indptr m) = Some 0 ∧
  Sorted le (indptr m) ∧
  last (indptr m) = Some (length (data m)) ∧
  length (indices m) = length (data m) ∧
  Forall (λ j, j < (csr_shape m).2) (indices m).

(** [nnz]: the number of stored cells, [indptr[-1]]. *)
Definition csr_nnz (m : csr_matrix) : nat := default 0 (last (indptr m)).

(** [eliminate_zeros]: the stored cells whose value is zero are removed from
    the arrays. *)
Definition csr_eliminate_zeros (m : csr_matrix) : csr_matrix :=
  csr_of_rows (csr_shape m)
    (filter (λ c : cell, feqb c.2 zero = false) <$> csr_rows m).

(** [m[i, j]]: duplicate cells of a position add up. *)
Definition csr_get (m : csr_matrix) (i j : nat) : float :=
  foldl fadd zero
    (snd <$> filter (λ c : cell, c.1 = j) (default [] (csr_rows m !! i))).

(** [m.nonzero()]: the coordinates of the stored cells that are not zero. *)
Definition csr_nonzero (m : csr_matrix) : list nat * list nat :=
  let coords :=
    mjoin (imap (λ i row,
      (λ c : cell, (i, c.1)) <$> filter (λ c : cell, feqb c.2 zero = false) row)
      (csr_rows m)) in
  (fst <$> coords, snd <$> coords).

(** Adding a cell to a row kept sorted by column; an occupied column sums. *)
Fixpoint add_cell (c : cell) (row : list cell) : list cell :=
  match row with
  | [] => [c]
  | d :: row' =>
      if decide (c.1 < d.1) then c :: row
      else if decide (c.1 = d.1) then (d.1, (d.2 + c.2)%F) :: row'
      else d :: add_cell c row'
  end.

(** [has_canonical_format]: the row pointers ascend, and in every row the
    column indices ascend strictly, so that no position is stored twice.
    scipy caches the answer in the object; here it is computed from the
    arrays. *)
Definition has_canonical_format (m : csr_matrix) : bool :=
  bool_decide (Sorted le (indptr m) ∧
               Forall (λ row : list cell, Sorted lt (row.*1)) (csr_rows m)).

(** [sum_duplicates()], in place: a matrix in canonical format is left as it
    is; in another one the cells of every row are sorted by column, the cells
    of one position are added up, and the arrays are cut to the cells that
    remain. The cells of one position are added in storage order; scipy
    does not fix the order, and in the float model it does not matter
    (lemmas [fadd_comm] and [fadd_assoc]). *)
Definition csr_sum_duplicates (m : csr_matrix) : csr_matrix :=
  if has_canonical_format m then m
  else
    csr_of_rows (csr_shape m)
      ((λ row : list cell, foldl (λ acc c, add_cell c acc) [] row) <$> csr_rows m).

(** [m.max()]: the maximum over all elements of the matrix, the implicit zeros
    included, together with the matrix as the call leaves it. A matrix with a
    dimension 0 raises and a matrix that stores nothing gives 0, both before
    anything is touched; otherwise [sum_duplicates()] runs on the matrix in
    place and the reduction is over its data. *)
Definition csr_max (m : csr_matrix) : res float * csr_matrix :=
  if decide ((csr_shape m).1 = 0 ∨ (csr_shape m).2 = 0) then
    (raise (ValueError "zero-size array to reduction operation"), m)
  else if decide (csr_nnz m = 0) then (mret zero, m)
  else
    let m' := csr_sum_duplicates m in
    (match data m' with
     | [] => mret zero
     | v :: vs =>
         let mx := foldl maximum v vs in
         if decide (csr_nnz m' = (csr_shape m').1 * (csr_shape m').2) then mret mx
         else mret (maximum zero mx)
     end, m').

(** [coo.tocsr()]: rows in order, columns sorted, duplicates summed. *)
Definition coo_tocsr (m : coo_matrix) : csr_matrix :=
  let triplets := zip (coo_row m) (zip (coo_col m) (coo_data m)) in
  csr_of_rows (coo_shape m)
    ((λ i, foldl (λ row c, add_cell c row) []
             (snd <$> filter (λ t : nat * cell, t.1 = i) triplets))
     <$> seq 0 (coo_shape m).1).

(** ** The store of matrix objects *)

Definition loc : Type := positive.
Abbreviation heap := (gmap loc spmatrix).

(** A computation on the store. An exception keeps the store as it is at the
    point of the raise. *)
Definition M (A : Type) : Type := heap → res A * heap.

#[global] Instance M_ret : MRet M := λ A x h, (inr x, h).
#[global] Instance M_bind : MBind M := λ A B f m h,
  match m h with
  | (inl e, h') => (inl e, h')
  | (inr x, h') => f x h'
  end.

Definition throw {A} (e : exn) : M A := λ h, (inl e, h).
Definition lift {A} (r : res A) : M A := λ h, (r, h).

(** Reading the object behind a reference. *)
Definition deref (r : loc) : M spmatrix := λ h,
  match h !! r with
  | Some v => (inr v, h)
  | None => (inl (ValueError "unallocated object"), h)
  end.

(** Creating a new object. *)
Definition alloc (v : spmatrix) : M loc := λ h,
  let r := fresh (dom h) in (inr r, <[r := v]> h).

(** Updating an object in place. *)
Definition store (r : loc) (v : spmatrix) : M unit := λ h, (inr (), <[r := v]> h).

(** [isinstance(m, csr_matrix)], with the matrix when it holds. *)
Definition as_csr (r : loc) : M (option csr_matrix) :=
  v ← deref r;
  match v with
  | Csr m => mret (Some m)
  | Coo _ => mret None
  end.

(** [m.copy()]: a new object; no array is shared with [m]. *)
Definition sp_copy (r : loc) : M loc := v ← deref r; alloc v.

(** [m.tocsr()]: a CSR matrix returns itself, another layout is converted
    into a new object. *)
Definition tocsr (r : loc) : M loc :=
  v ← deref r;
  match v with
  | Csr _ => mret r
  | Coo m => alloc (Csr (coo_tocsr m))
  end.

(** [m.data] and [m.data = d] on a CSR object. *)
Definition get_data (r : loc) : M (list float) :=
  v ← deref r;
  match v with
  | Csr m => mret (data m)
  | Coo m => mret (coo_data m)
  end.

Definition set_data (r : loc) (d : list float) : M unit :=
  v ← deref r;
  match v with
  | Csr m => store r (Csr (mk_csr (csr_shape m) (indptr m) (indices m) d))
  | Coo m => store r (Coo (mk_coo (coo_shape m) (coo_row m) (coo_col m) d))
  end.

(** [m.eliminate_zeros()], in place. *)
Definition eliminate_zeros (r : loc) : M unit :=
  v ← deref r;
  match v with
  | Csr m => store r (Csr (csr_eliminate_zeros m))
  | Coo m =>
      let keep := filter (λ t : nat * (nat * float), feqb t.2.2 zero = false)
                    (zip (coo_row m) (zip (coo_col m) (coo_data m))) in
      store r (Coo (mk_coo (coo_shape m) (fst <$> keep)
                      ((λ t : nat * (nat * float), t.2.1) <$> keep)
                      ((λ t : nat * (nat * float), t.2.2) <$> keep)))
  end.

(** [np.max(distances)], which is [distances.max()], for an object [r] that
    holds the CSR matrix [m]: the object is left as [max] leaves it. *)
Definition np_max (r : loc) (m : csr_matrix) : M float :=
  let '(v, m') := csr_max m in
  store r (Csr m');; lift v.

(** ** Distance to connectivity *)

(** [_distance_to_connectivity(distances, *, max_value=None)] *)
Definition _distance_to_connectivity (distances : loc) (max_value : option float)
    : M loc :=
  is_csr ← as_csr distances;
  match is_csr with
  | None => throw (ValueError "Distance matrix must be in CSR format.")
  | Some m =>
      max_value ← (if max_value is Some v then mret v else np_max distances m);
      connectivities ← sp_copy distances;
      cdata ← get_data connectivities;
      let d := (λ v, v - one)%F <$> cdata in
      set_data connectivities ((λ x, (max_value - x) / max_value)%F <$> d);;
      eliminate_zeros connectivities;;
      mret connectivities
  end.

(** ** Graphs (igraph) *)

(** An undirected graph: per vertex the value of its ["id"] attribute (absent
    until it is assigned), the edges as pairs of vertex indices, and the
    ["weight"] attribute of the edges. *)
Record Graph : Type := mk_graph {
  vs : list (option nat);
  es : list (nat * nat);
  es_weight : list float;
}.

Definition vcount (g : Graph) : nat := length (vs g).

(** [_get_igraph_from_adjacency(adj)]. The graph is created with
    [adj.shape[0]] vertices, so the warning about a differing vertex count is
    never issued; it is left out. *)
Definition _get_igraph_from_adjacency (adj : loc) : M Graph :=
  is_csr ← as_csr adj;
  match is_csr with
  | None => throw (ValueError "unallocated object")
  | Some m =>
      let '(sources, targets) := csr_nonzero m in
      let weights := (λ p : nat * nat, csr_get m p.1 p.2) <$> zip sources targets in
      mret {| vs := replicate (csr_shape m).1 None;
              es := zip sources targets;
              es_weight := weights |}
  end.

(** [igraph_from_sparse_matrix(matrix, *, matrix_type="distance", max_value=None)] *)
Definition igraph_from_sparse_matrix (matrix : loc) (matrix_type : string)
    (max_value : option float) : M Graph :=
  matrix ← tocsr matrix;
  matrix ← (if decide (matrix_type = "distance")
            then _distance_to_connectivity matrix max_value
            else mret matrix);
  _get_igraph_from_adjacency matrix.

(** ** Arrays (numpy) *)

(** Fancy indexing [a[idx]] with an index array. *)
Definition take_idx {A} (a : list A) (idx : list nat) : res (list A) :=
  mapM (λ i, match a !! i with
             | Some x => mret x
             | None => raise (IndexError "index out of bounds")
             end) idx.

(** [np.min(a)] and [np.max(a)] of a one-dimensional array. *)
Definition np_min (a : list float) : res float :=
  match a with
  | [] => raise (ValueError "zero-size array to reduction operation minimum which has no identity")
  | v :: a' => mret (foldl minimum v a')
  end.

Definition np_amax (a : list float) : res float :=
  match a with
  | [] => raise (ValueError "zero-size array to reduction operation maximum which has no identity")
  | v :: a' => mret (foldl maximum v a')
  end.

(** [np.vstack(blocks)] of two-column blocks. *)
Definition np_vstack {A} (blocks : list (list A)) : res (list A) :=
  match blocks with
  | [] => raise (ValueError "need at least one array to concatenate")
  | _ => mret (mjoin blocks)
  end.

(** ** The external collaborators *)

(** A bounding box [(x, y, width, height)]. *)
Definition bbox : Type := float * float * float * float.

(** The [rpack] module of rectangle-packer. *)
Record rpack_module : Type := {
  rpack_pack : list (Z * Z) → res (list (Z * Z));
  rpack_enclosing_size : list (Z * Z) → list (Z * Z) → res (Z * Z);
}.

(** A rectangle of squarify: the dict with keys [x], [y], [dx], [dy]. *)
Record rect : Type := mk_rect {
  r_x : float;
  r_y : float;
  r_dx : float;
  r_dy : float;
}.

(** The [squarify] module. *)
Record squarify_module : Type := {
  normalize_sizes : list Z → float → float → res (list float);
  padded_squarify : list float → float → float → float → float → res (list rect);
}.

Record Ext : Type := {
  (** [np.argsort] of an integer array, with the default kind *)
  argsort : list Z → list nat;
  (** the operator [**] on floats *)
  fpow : float → float → float;
  (** [Graph.decompose(mode="weak")] *)
  decompose : Graph → list Graph;
  (** [Graph.layout(name).coords] *)
  graph_layout : Graph → string → res (list (float * float));
  (** the optional modules; [None] when the import fails *)
  rpack : option rpack_module;
  squarify : option squarify_module;
}.

(** The messages of the two [ImportError]s, the adjacent string literals of
    the source joined. *)
Definition rpack_missing : string :=
  "Using the 'components layout' requires the installation of the `rectangle-packer`. You can install it with `pip install rectangle-packer`.".

Definition squarify_missing : string :=
  "Using the 'components layout' requires the installationof the `squarify` package. You can install it with `pip install squarify`".

(** ** Bounding boxes *)

Section Layout.
Variable E : Ext.

(** [_get_bbox_dimensions(n, power=0.5)] *)
Definition _get_bbox_dimensions (n : Z) (power : float) : float * float :=
  (fpow E (of_Z n) power, fpow E (of_Z n) power).

(** The state of the loop of [_bbox_sorted]: [bboxes], [x], [y], [current_n]. *)
Definition sorted_state : Type := list bbox * float * float * Z.

(** One iteration of the loop of [_bbox_sorted]. *)
Definition _bbox_sorted_body (pad_x pad_y : float) (st : sorted_state) (n : Z)
    : sorted_state :=
  let '(bboxes, x, y, current_n) := st in
  let '(width, height) := _get_bbox_dimensions n (Fin (4 # 5)) in
  let '(x, y, current_n) :=
    if negb (n =? current_n)%Z
    then (of_Z 0, (y + (height + pad_y))%F, n)
    else (x, y, current_n) in
  (bboxes ++ [(x, y, width, height)], (x + (width + pad_x))%F, y, current_n).

(** [_bbox_sorted(component_sizes, pad_x=1.0, pad_y=1.0)] *)
Definition _bbox_sorted (component_sizes : list Z) (pad_x pad_y : float)
    : list bbox :=
  (foldl (_bbox_sorted_body pad_x pad_y) ([], of_Z 0, of_Z 0, 1%Z)
     component_sizes).1.1.1.

(** [_bbox_rpack(component_sizes, pad_x=1.0, pad_y=1.0)] *)
Definition _bbox_rpack (component_sizes : list Z) (pad_x pad_y : float)
    : res (list bbox) :=
  match rpack E with
  | None =>
      raise (ImportError rpack_missing)
  | Some rp =>
      let dimensions :=
        (λ n, _get_bbox_dimensions n (Fin (4 # 5))) <$> component_sizes in
      dimensions ← mapM (λ d : float * float,
                           w ← to_int (d.1 + pad_x)%F;
                           h ← to_int (d.2 + pad_y)%F;
                           mret (w, h))
                        (reverse dimensions);
      origins ← rpack_pack rp dimensions;
      outer_dimensions ← rpack_enclosing_size rp dimensions origins;
      aspect_ratio ← int_truediv outer_dimensions.1 outer_dimensions.2;
      let '(scale_width, scale_height) :=
        if (one <? aspect_ratio)%F then (one, aspect_ratio)
        else (aspect_ratio, one) in
      let bboxes :=
        (λ od : (Z * Z) * (Z * Z),
           (of_Z od.1.1, of_Z od.1.2,
            of_Z od.2.1 * scale_width - pad_x,
            of_Z od.2.2 * scale_height - pad_y)%F)
        <$> zip origins dimensions in
      mret (reverse bboxes)
  end.

(** [_bbox_squarify(component_sizes, pad_x=10, pad_y=10)] *)
Definition _bbox_squarify (component_sizes : list Z) (pad_x pad_y : float)
    : res (list bbox) :=
  match squarify E with
  | None =>
      raise (ImportError squarify_missing)
  | Some sq =>
      let order := argsort E (Z.opp <$> component_sizes) in
      let undo_order := argsort E (Z.of_nat <$> order) in
      component_sizes ← take_idx component_sizes order;
      component_sizes ← normalize_sizes sq component_sizes (of_Z 100) (of_Z 100);
      rects ← padded_squarify sq component_sizes
                (of_Z 0) (of_Z 0) (of_Z 100) (of_Z 100);
      let bboxes :=
        (λ r,
           let width := r_dx r in
           let height := r_dy r in
           let offset_x := r_x r in
           let offset_y := r_y r in
           let delta := fabs (width - height) in
           if (height <? width)%F
           then (offset_x + delta / of_Z 2, offset_y, height - pad_x, height - pad_y)%F
           else (offset_x, offset_y + delta / of_Z 2, width - pad_x, width - pad_y)%F)
        <$> rects in
      take_idx bboxes undo_order
  end.

(** ** Layout of one component *)

(** [_rescale_layout(coords, bbox)] *)
Definition _rescale_layout (coords : list (float * float)) (box : bbox)
    : res (list (float * float)) :=
  min_x ← np_min (fst <$> coords);
  min_y ← np_min (snd <$> coords);
  max_x ← np_amax (fst <$> coords);
  max_y ← np_amax (snd <$> coords);
  let delta_x := if negb (min_x =? max_x)%F then (max_x - min_x)%F else one in
  let delta_y := if negb (min_y =? max_y)%F then (max_y - min_y)%F else one in
  let '(new_min_x, new_min_y, new_delta_x, new_delta_y) := box in
  let new_coords_x :=
    (λ x, (x - min_x) / delta_x * new_delta_x + new_min_x)%F <$> (fst <$> coords) in
  let new_coords_y :=
    (λ y, (y - min_y) / delta_y * new_delta_y + new_min_y)%F <$> (snd <$> coords) in
  mret (zip new_coords_x new_coords_y).

(** [_layout_component(component, bbox, component_layout_func)] *)
Definition _layout_component (component : Graph) (box : bbox)
    (component_layout_func : string) : res (list (float * float)) :=
  layout ← graph_layout E component component_layout_func;
  _rescale_layout layout box.

(** ** Layout of all components *)

(** The dictionary of the box arrangements in [layout_components]. *)
Definition bbox_funs (arrange_boxes : string)
    : res (list Z → float → float → res (list bbox)) :=
  if decide (arrange_boxes = "rpack") then mret _bbox_rpack
  else if decide (arrange_boxes = "size")
  then mret (λ sizes pad_x pad_y, mret (_bbox_sorted sizes pad_x pad_y))
  else if decide (arrange_boxes = "squarify") then mret _bbox_squarify
  else raise (KeyError arrange_boxes).

(** The first statements of [layout_components]: the ["id"] attribute is
    assigned, the graph decomposed, and the components and their sizes are
    put in the order of [np.argsort(component_sizes)]. *)
Definition sorted_components (graph : Graph) : res (list Graph * list Z) :=
  let graph := mk_graph (Some <$> seq 0 (vcount graph)) (es graph) (es_weight graph) in
  let components := decompose E graph in
  let component_sizes := (λ c, Z.of_nat (vcount c)) <$> components in
  let order := argsort E component_sizes in
  components ← take_idx components order;
  component_sizes ← take_idx component_sizes order;
  mret (components, component_sizes).

(** [layout_components(graph, component_layout="fr",
    arrange_boxes="squarify", pad_x=1.0, pad_y=1.0)] *)
Definition layout_components (graph : Graph) (component_layout : string)
    (arrange_boxes : string) (pad_x pad_y : float) : res (list (float * float)) :=
  '(components, component_sizes) ← sorted_components graph;
  vertex_ids ← mapM (λ v : option nat,
                       match v with
                       | Some i => mret i
                       | None => raise (KeyError "id")
                       end)
                    (components ≫= vs);
  let vertex_sorter := argsort E (Z.of_nat <$> vertex_ids) in
  bbox_fun ← bbox_funs arrange_boxes;
  bboxes ← bbox_fun component_sizes pad_x pad_y;
  component_layouts ← mapM (λ cb : Graph * bbox,
                              _layout_component cb.1 cb.2 component_layout)
                           (zip components bboxes);
  stacked ← np_vstack component_layouts;
  take_idx stacked vertex_sorter.

End Layout.

(** ** Reference collaborators

    Executable stand-ins for the external collaborators, used to run the
    functions above on concrete inputs. *)

(** The order of [np.argsort(keys, kind="stable")] on the pairs of a key and
    its position, and the same order with the positions of equal keys
    reversed. *)
Definition pair_le (rev : bool) (a b : Z * nat) : Prop :=
  (a.1 < b.1)%Z ∨ (a.1 = b.1 ∧ if rev then (b.2 ≤ a.2)%nat else (a.2 ≤ b.2)%nat).

#[global] Instance pair_le_dec rev a b : Decision (pair_le rev a b).
Proof. unfold pair_le. destruct rev; apply _. Defined.

Definition argsort_by (rev : bool) (keys : list Z) : list nat :=
  snd <$> merge_sort (pair_le rev) (zip keys (seq 0 (length keys))).

(** [np.argsort(keys, kind="stable")] *)
Definition stable_argsort : list Z → list nat := argsort_by false.

(** Connected components by flooding, in the order of their smallest vertex;
    the vertices of a component keep their relative order and their
    attributes. *)
Definition adjacent (g : Graph) (v w : nat) : bool :=
  existsb (λ e : nat * nat,
             bool_decide (e = (v, w)) || bool_decide (e = (w, v))) (es g).

Fixpoint flood (fuel : nat) (g : Graph) (seen : list nat) : list nat :=
  match fuel with
  | 0 => seen
  | S fuel' =>
      flood fuel' g
        (seen ++ filter (λ w, (w ∉ seen) ∧ Exists (λ v, adjacent g v w = true) seen)
                   (seq 0 (vcount g)))
  end.

Definition component_of (g : Graph) (v : nat) : list nat :=
  let reached := flood (vcount g) g [v] in
  filter (λ w, w ∈ reached) (seq 0 (vcount g)).

Definition local_index (sel : list nat) (v : nat) : nat :=
  default 0 (fst <$> list_find (λ w, w = v) sel).

Definition induced (g : Graph) (sel : list nat) : Graph :=
  let kept := filter (λ ew : (nat * nat) * float, ew.1.1 ∈ sel ∧ ew.1.2 ∈ sel)
                (zip (es g) (es_weight g)) in
  {| vs := (λ v, default None (vs g !! v)) <$> sel;
     es := (λ ew : (nat * nat) * float,
              (local_index sel ew.1.1, local_index sel ew.1.2)) <$> kept;
     es_weight := snd <$> kept |}.

Fixpoint decompose_from (g : Graph) (todo visited : list nat) : list Graph :=
  match todo with
  | [] => []
  | v :: todo' =>
      if decide (v ∈ visited) then decompose_from g todo' visited
      else
        let sel := component_of g v in
        induced g sel :: decompose_from g todo' (visited ++ sel)
  end.

Definition decompose_ref (g : Graph) : list Graph :=
  decompose_from g (seq 0 (vcount g)) [].

(** A layout that puts vertex [j] of a component at [(j, j * j)]. *)
Definition layout_ref (g : Graph) (name : string) : res (list (float * float)) :=
  mret (imap (λ j _, (of_Z (Z.of_nat j), of_Z (Z.of_nat j * Z.of_nat j))) (vs g)).

(** [x ** 0.8] for an integer [x >= 0], rounded down to three decimals: the
    largest [k] with [k^5 <= x^4 * 10^15], over 1000. *)
Fixpoint root5_bisect (fuel : nat) (X lo hi : Z) : Z :=
  match fuel with
  | 0 => lo
  | S fuel' =>
      let mid := ((lo + hi) / 2)%Z in
      if (mid =? lo)%Z then lo
      else if (mid ^ 5 <=? X)%Z then root5_bisect fuel' X mid hi
      else root5_bisect fuel' X lo mid
  end.

Definition fpow_ref (x p : float) : float :=
  match x, p with
  | Fin a, Fin b =>
      if Qeq_bool b (4 # 5) && Qle_bool 0 a && Pos.eqb (Qden a) 1 then
        let n := Qnum a in
        Fin (Qmake (root5_bisect 64 (n ^ 4 * 10 ^ 15) 0 (n * 1000 + 1)) 1000)
      else NaN
  | _, _ => NaN
  end.

(** A packer that fills columns as high as the highest rectangle, from left
    to right. *)
Fixpoint column_pack_from (H x y colw : Z) (dims : list (Z * Z)) : list (Z * Z) :=
  match dims with
  | [] => []
  | d :: dims' =>
      if (y + d.2 <=? H)%Z
      then (x, y) :: column_pack_from H x (y + d.2) (Z.max colw d.1) dims'
      else (x + colw, 0)%Z :: column_pack_from H (x + colw) d.2 d.1 dims'
  end.

Definition column_pack (dims : list (Z * Z)) : res (list (Z * Z)) :=
  mret (column_pack_from (foldr Z.max 0%Z (snd <$> dims)) 0 0 0 dims).

(** [rpack.enclosing_size]: the extent of the placed rectangles. *)
Definition enclosing_size_ref (dims origins : list (Z * Z)) : res (Z * Z) :=
  let corners := zip_with (λ o d : Z * Z, (o.1 + d.1, o.2 + d.2)%Z) origins dims in
  mret (foldr Z.max 0%Z (fst <$> corners), foldr Z.max 0%Z (snd <$> corners)).

Definition rpack_ref : rpack_module :=
  {| rpack_pack := column_pack; rpack_enclosing_size := enclosing_size_ref |}.

(** Everything installed but squarify; rectangle-packer missing as well; and
    an [argsort] that is sorted but not stable. *)
Definition E_ref : Ext :=
  {| argsort := stable_argsort; fpow := fpow_ref; decompose := decompose_ref;
     graph_layout := layout_ref; rpack := Some rpack_ref; squarify := None |}.

Definition E_bare : Ext :=
  {| argsort := stable_argsort; fpow := fpow_ref; decompose := decompose_ref;
     graph_layout := layout_ref; rpack := None; squarify := None |}.

Definition E_rev : Ext :=
  {| argsort := argsort_by true; fpow := fpow_ref; decompose := decompose_ref;
     graph_layout := layout_ref; rpack := Some rpack_ref; squarify := None |}.

(** [needle in hay] *)
Fixpoint contains (needle hay : string) : bool :=
  String.prefix needle hay ||
  match hay with
  | EmptyString => false
  | String _ hay' => contains needle hay'
  end.

(** ** The formula of the specification and the inputs of the examples *)

(** [c = (max_value - (v - 1)) / max_value] *)
Definition connectivity_formula (max_value v : float) : float :=
  ((max_value - (v - one)) / max_value)%F.

(** A stored code of a true distance [v - 1 >= 0]. *)
Definition distance_code (v : float) : Prop :=
  match v with
  | Fin q => (1 <= q)%Q
  | _ => False
  end.

(** [max_value] is positive and the true distance [v - 1] does not exceed it. *)
Definition within_max (max_value v : float) : Prop :=
  match max_value, v with
  | Fin mx, Fin q => (0 < mx)%Q ∧ (q - 1 <= mx)%Q
  | _, _ => False
  end.

(** A symmetric 4 x 4 distance matrix with the stored codes 1, 2, 3, 4, 5. *)
Definition dist_csr : csr_matrix :=
  {| csr_shape := (4, 4);
     indptr := [0; 2; 5; 7; 10];
     indices := [1; 3; 0; 2; 3; 1; 3; 0; 1; 2];
     data := [Fin 1; Fin 5; Fin 1; Fin 2; Fin 4; Fin 2; Fin 3; Fin 5; Fin 4; Fin 3] |}.

(** The same matrix as coordinate triplets. *)
Definition dist_coo : coo_matrix :=
  {| coo_shape := (4, 4);
     coo_row := [3; 0; 1; 2; 0; 1; 1; 2; 3; 3];
     coo_col := [0; 1; 0; 1; 3; 2; 3; 3; 1; 2];
     coo_data := [Fin 5; Fin 1; Fin 1; Fin 2; Fin 5; Fin 2; Fin 4; Fin 3; Fin 4; Fin 3] |}.

Definition csr_store : heap := {[ 1%positive := Csr dist_csr ]}.
Definition coo_store : heap := {[ 1%positive := Coo dist_coo ]}.

(** The parts of a bounding box. *)
Definition bbox_x (b : bbox) : float := b.1.1.1.
Definition bbox_y (b : bbox) : float := b.1.1.2.
Definition bbox_w (b : bbox) : float := b.1.2.
Definition bbox_h (b : bbox) : float := b.2.

(** Two boxes overlap when their interiors meet. *)
Definition overlap (a b : bbox) : bool :=
  (bbox_x a <? bbox_x b + bbox_w b)%F && (bbox_x b <? bbox_x a + bbox_w a)%F &&
  (bbox_y a <? bbox_y b + bbox_h b)%F && (bbox_y b <? bbox_y a + bbox_h a)%F.

(** The shelf arrangement in the words of the specification: a component
    of another size than the previous one opens a new row, at [x = 0] and
    [row height + pad_y] further up; a component of the same size is put at
    the cursor; the cursor then moves right by [width + pad_x]. *)
Definition shelf_place (E : Ext) (pad_y x y : float) (previous n : Z) : bbox :=
  let side := fpow E (of_Z n) (Fin (4 # 5)) in
  if (n =? previous)%Z then (x, y, side, side)
  else (of_Z 0, (y + (side + pad_y))%F, side, side).

Fixpoint shelf_boxes (E : Ext) (pad_x pad_y x y : float) (previous : Z)
    (sizes : list Z) : list bbox :=
  match sizes with
  | [] => []
  | n :: sizes' =>
      let b := shelf_place E pad_y x y previous n in
      b :: shelf_boxes E pad_x pad_y (bbox_x b + (bbox_w b + pad_x))%F (bbox_y b) n sizes'
  end.

(** What numpy documents of [argsort] with the default kind: the result lists
    every position once, and reading the keys in that order gives them in
    ascending order. Nothing is said about the order of equal keys. *)
Definition argsort_spec (f : list Z → list nat) : Prop :=
  ∀ keys,
    f keys ≡ₚ seq 0 (length keys) ∧
    Sorted Z.le ((λ i, default 0%Z (keys !! i)) <$> f keys).

(** What igraph documents of [decompose] on the graph with the ["id"]
    attribute assigned: the components partition the vertices, which keep
    their attributes, and no component is empty. *)
Definition decompose_ok (E : Ext) (graph : Graph) : Prop :=
  let graph' := mk_graph (Some <$> seq 0 (vcount graph)) (es graph) (es_weight graph) in
  decompose E graph' ≫= vs ≡ₚ vs graph' ∧
  Forall (λ c, vcount c ≠ 0) (decompose E graph').

(** What igraph documents of [layout]: one coordinate pair per vertex. *)
Definition layout_ok (E : Ext) (graph : Graph) (name : string) : Prop :=
  let graph' := mk_graph (Some <$> seq 0 (vcount graph)) (es graph) (es_weight graph) in
  Forall (λ c, ∃ coords, graph_layout E c name = inr coords ∧
                         length coords = vcount c)
         (decompose E graph').

(** A graph with the components {0, 3}, {1, 4, 5} and {2}, and a graph with
    the two components {0, 1} and {2, 3} of equal size. *)
Definition graph6 : Graph :=
  {| vs := replicate 6 None;
     es := [(0, 3); (3, 0); (1, 4); (4, 5); (5, 4); (4, 1)];
     es_weight := replicate 6 one |}.

Definition graph4 : Graph :=
  {| vs := replicate 4 None;
     es := [(0, 1); (1, 0); (2, 3); (3, 2)];
     es_weight := replicate 4 one |}.

(** The components of [graph6] in ascending size. *)
Definition graph6_components : list Graph :=
  [ {| vs := [Some 2]; es := []; es_weight := [] |};
    {| vs := [Some 0; Some 3]; es := [(0, 1); (1, 0)]; es_weight := [Fin 1; Fin 1] |};
    {| vs := [Some 1; Some 4; Some 5];
       es := [(0, 1); (1, 2); (2, 1); (1, 0)];
       es_weight := [Fin 1; Fin 1; Fin 1; Fin 1] |} ].

(** [lo <= a < hi] for a finite [a]. *)
Definition between (lo hi : Z) (a : float) : Prop :=
  match a with
  | Fin x => (inject_Z lo <= x)%Q ∧ (x < inject_Z hi)%Q
  | _ => False
  end.

(** A float that is neither infinite nor nan. *)
Definition is_fin (a : float) : Prop :=
  match a with
  | Fin _ => True
  | _ => False
  end.

(** The value of the reference power operator at an integer, as a rational. *)
Definition side_ref (n : Z) : Q :=
  match fpow_ref (of_Z n) (Fin (4 # 5)) with
  | Fin q => q
  | _ => 0
  end.

Definition zero_box : bbox := (zero, zero, zero, zero).

(** The graph without vertices. *)
Definition empty_graph : Graph := {| vs := []; es := []; es_weight := [] |}.

(** The rectangles that [_bbox_rpack] hands to [rpack.pack]: the padded
    sides of the components as ints, the last component first. *)
Definition rpack_dimensions (E : Ext) (component_sizes : list Z) (pad_x pad_y : float)
    : res (list (Z * Z)) :=
  mapM (λ d : float * float,
          w ← to_int (d.1 + pad_x)%F;
          h ← to_int (d.2 + pad_y)%F;
          mret (w, h))
       (reverse ((λ n, _get_bbox_dimensions E n (Fin (4 # 5))) <$> component_sizes)).

(** The rectangle of the given dimensions at the given origin, as a box. *)
Definition rect_box (o d : Z * Z) : bbox := (of_Z o.1, of_Z o.2, of_Z d.1, of_Z d.2).

(** A packer that stacks the rectangles on top of each other. *)
Fixpoint stack_from (y : Z) (dims : list (Z * Z)) : list (Z * Z) :=
  match dims with
  | [] => []
  | d :: dims' => (0, y)%Z :: stack_from (y + d.2) dims'
  end.

Definition rpack_stack : rpack_module :=
  {| rpack_pack := λ dims, mret (stack_from 0 dims);
     rpack_enclosing_size := enclosing_size_ref |}.

Definition E_stack : Ext :=
  {| argsort := stable_argsort; fpow := fpow_ref; decompose := decompose_ref;
     graph_layout := layout_ref; rpack := Some rpack_stack; squarify := None |}.

(** A treemap of vertical strips: the sizes are scaled to the area, and every
    strip is as high as the area and as wide as its share of it. *)
Definition normalize_sizes_ref (sizes : list Z) (dx dy : float) : res (list float) :=
  let total_size := of_Z (foldr Z.add 0%Z sizes) in
  let total_area := (dx * dy)%F in
  mret ((λ size, (of_Z size * total_area / total_size)%F) <$> sizes).

Fixpoint strips_from (x y dy : float) (sizes : list float) : list rect :=
  match sizes with
  | [] => []
  | s :: sizes' => mk_rect x y (s / dy)%F dy :: strips_from (x + s / dy)%F y dy sizes'
  end.

Definition squarify_ref : squarify_module :=
  {| normalize_sizes := normalize_sizes_ref;
     padded_squarify := λ sizes x y dx dy, mret (strips_from x y dy sizes) |}.

Definition E_sq : Ext :=
  {| argsort := stable_argsort; fpow := fpow_ref; decompose := decompose_ref;
     graph_layout := layout_ref; rpack := None; squarify := Some squarify_ref |}.

(** The box is the largest square centred in the rectangle, its width reduced
    by [px] and its height by [py]. *)
Definition centred_square (r : rect) (px py : Q) (b : bbox) : Prop :=
  match r, b with
  | mk_rect (Fin x) (Fin y) (Fin dx) (Fin dy), (Fin bx, Fin by_, Fin bw, Fin bh) =>
      ∃ s : Q,
        (s <= dx)%Q ∧ (s <= dy)%Q ∧ ((s == dx)%Q ∨ (s == dy)%Q) ∧
        (bw == s - px)%Q ∧ (bh == s - py)%Q ∧
        (bx + s / 2 == x + dx / 2)%Q ∧ (by_ + s / 2 == y + dy / 2)%Q
  | _, _ => False
  end.

(** The rectangle has finite coordinates and sides. *)
Definition rect_fin (r : rect) : Prop :=
  is_fin (r_x r) ∧ is_fin (r_y r) ∧ is_fin (r_dx r) ∧ is_fin (r_dy r).

(** A layout with one pair of finite coordinates per vertex, for every
    component of the graph. *)
Definition layout_fin (E : Ext) (graph : Graph) (name : string) : Prop :=
  let graph' := mk_graph (Some <$> seq 0 (vcount graph)) (es graph) (es_weight graph) in
  Forall (λ c, ∃ coords, graph_layout E c name = inr coords ∧
                         length coords = vcount c ∧
                         Forall (λ p, is_fin p.1 ∧ is_fin p.2) coords)
         (decompose E graph').

(** The point lies in the box, its border included. *)
Definition in_box (b : bbox) (p : float * float) : Prop :=
  match b, p with
  | (Fin bx, Fin by_, Fin w, Fin h), (Fin x, Fin y) =>
      (bx <= x)%Q ∧ (x <= bx + w)%Q ∧ (by_ <= y)%Q ∧ (y <= by_ + h)%Q
  | _, _ => False
  end.

(** ** The context managers of the clonotype network plot
    (sctcrpy/_plotting/_clonotypes.py) *)

(** The function behind [sc.plotting._utils.plot_edges]: scanpy's own, or the
    closure that [_patch_plot_edges] installs, which calls [_plot_edges] with
    the [neighbors_key] it has captured. *)
Inductive plot_edges_impl : Type :=
  | ScanpyPlotEdges
  | PatchedPlotEdges (neighbors_key : option string).

(** The global state that the two context managers touch: the module
    attribute and the level of the logger ["matplotlib"]. *)
Record globals : Type := mk_globals {
  sc_plot_edges : plot_edges_impl;
  mpl_level : Z;
}.

(** The block of a [with] statement: it runs on the globals, and returns or
    raises. *)
Definition block (A : Type) : Type := globals → res A * globals.

(** [logging.ERROR] *)
Definition logging_ERROR : Z := 40.

(** [with _patch_plot_edges(neighbors_key): body]. The [finally] clause runs
    whether the block returns or raises. *)
Definition _patch_plot_edges {A} (neighbors_key : option string) (body : block A)
    : block A :=
  λ g,
    let scanpy_plot_edges := sc_plot_edges g in
    let g := mk_globals (PatchedPlotEdges neighbors_key) (mpl_level g) in
    let '(r, g) := body g in
    (r, mk_globals scanpy_plot_edges (mpl_level g)).

(** [with _no_matplotlib_warnings(): body] *)
Definition _no_matplotlib_warnings {A} (body : block A) : block A :=
  λ g,
    let log_level := mpl_level g in
    let g := mk_globals (sc_plot_edges g) logging_ERROR in
    let '(r, g) := body g in
    (r, mk_globals (sc_plot_edges g) log_level).


(** * Properties *)

(** ** Rows of a CSR matrix *)

Section Rows.
Context {A B : Type}.

Lemma slice_fmap (f : A → B) (l : list A) a b :
  slice (f <$> l) a b = f <$> slice l a b.
Proof. unfold slice. by rewrite fmap_take, fmap_drop. Qed.

Lemma rows_from_fmap (f : A → B) ends start (l : list A) :
  rows_from start ends (f <$> l) = fmap (M:=list) f <$> rows_from start ends l.
Proof.
  revert start. induction ends as [|e ends IH]; intros start; simpl; [done|].
  by rewrite slice_fmap, IH.
Qed.

Lemma slice_subseteq (l : list A) a b : slice l a b ⊆ l.
Proof.
  unfold slice. etrans; [apply subseteq_take | apply subseteq_drop].
Qed.

Lemma rows_from_subseteq ends start (l : list A) :
  Forall (λ row, row ⊆ l) (rows_from start ends l).
Proof.
  revert start. induction ends as [|e ends IH]; intros start; simpl.
  - constructor.
  - constructor; [apply slice_subseteq | apply IH].
Qed.

Lemma indptr_from_head start lens :
  indptr_from start lens = start :: tail (indptr_from start lens).
Proof. by destruct lens. Qed.

Lemma slice_middle (pre row post : list A) :
  slice (pre ++ row ++ post) (length pre) (length pre + length row) = row.
Proof.
  unfold slice. rewrite drop_app_length.
  replace (length pre + length row - length pre) with (length row) by lia.
  by rewrite take_app_length.
Qed.

Lemma rows_from_indptr (rows : list (list A)) (pre post : list A) :
  rows_from (length pre)
    (tail (indptr_from (length pre) (length <$> rows)))
    (pre ++ mjoin rows ++ post) = rows.
Proof.
  revert pre. induction rows as [|row rows IH]; intros pre; [done|].
  cbn [fmap list_fmap mjoin list_join indptr_from tail].
  rewrite indptr_from_head. cbn [rows_from].
  rewrite <- (assoc_L (++) row). rewrite slice_middle. f_equal.
  specialize (IH (pre ++ row)). rewrite length_app in IH.
  rewrite <- (assoc_L (++) pre) in IH. exact IH.
Qed.
End Rows.

Lemma csr_rows_of_rows shape rows : csr_rows (csr_of_rows shape rows) = rows.
Proof.
  unfold csr_rows, csr_of_rows; simpl.
  rewrite zip_fst_snd.
  destruct rows as [|row rows]; [done|].
  pose proof (rows_from_indptr (row :: rows) [] []) as H.
  simpl in H. rewrite app_nil_r in H. simpl. exact H.
Qed.

Lemma csr_rows_set_data (f : float → float) m :
  csr_rows (mk_csr (csr_shape m) (indptr m) (indices m) (f <$> data m)) =
  fmap (M:=list) (prod_map id f) <$> csr_rows m.
Proof.
  unfold csr_rows; simpl. destruct (indptr m) as [|p0 ends]; [done|].
  rewrite <- rows_from_fmap.
  replace (zip (indices m) (f <$> data m))
    with (prod_map id f <$> zip (indices m) (data m)); [done|].
  generalize (data m). induction (indices m) as [|j js IH]; intros [|v vs']; simpl;
    [done..|]. by rewrite IH.
Qed.

Lemma csr_rows_data m :
  Forall (Forall (λ c : cell, c.2 ∈ data m)) (csr_rows m).
Proof.
  unfold csr_rows. destruct (indptr m) as [|p0 ends]; [constructor|].
  eapply Forall_impl; [apply rows_from_subseteq|].
  intros row Hrow. apply Forall_forall. intros [j v] Hc.
  apply Hrow in Hc. by apply elem_of_zip_r in Hc.
Qed.

(** The values that [eliminate_zeros] leaves are values of the matrix and
    are not zero. *)
Lemma csr_eliminate_zeros_data m v :
  v ∈ data (csr_eliminate_zeros m) → v ∈ data m ∧ feqb v zero = false.
Proof.
  unfold csr_eliminate_zeros, csr_of_rows; simpl. intros Hv.
  apply list_elem_of_fmap in Hv as ([j v'] & -> & Hc).
  apply list_elem_of_join in Hc as (row & Hc & Hrow).
  apply list_elem_of_fmap in Hrow as (row' & -> & Hrow').
  apply list_elem_of_filter in Hc as [Hnz Hc]. split; [|done].
  pose proof (csr_rows_data m) as Hall.
  rewrite Forall_forall in Hall. specialize (Hall _ Hrow').
  rewrite Forall_forall in Hall. by apply (Hall (j, v')).
Qed.

(** ** Running the conversion *)

Lemma fresh_lookup (h : heap) : h !! fresh (dom h) = None.
Proof. apply not_elem_of_dom, is_fresh. Qed.

Lemma run_bind {A B} (m : M A) (f : A → M B) (h : heap) :
  (m ≫= f) h =
  match m h with
  | (inl e, h') => (inl e, h')
  | (inr x, h') => f x h'
  end.
Proof. done. Qed.

Lemma run_bind_cong {A B} (m1 m2 : M A) (f : A → M B) (h : heap) :
  m1 h = m2 h → (m1 ≫= f) h = (m2 ≫= f) h.
Proof. intros Heq. by rewrite !run_bind, Heq. Qed.

Lemma run_deref (h : heap) r v : h !! r = Some v → deref r h = (inr v, h).
Proof. intros Hr. unfold deref. by rewrite Hr. Qed.

Lemma run_as_csr (h : heap) r m : h !! r = Some (Csr m) → as_csr r h = (inr (Some m), h).
Proof. intros Hr. unfold as_csr. by rewrite run_bind, (run_deref _ _ _ Hr). Qed.

Lemma run_sp_copy (h : heap) r v :
  h !! r = Some v → sp_copy r h = (inr (fresh (dom h)), <[fresh (dom h) := v]> h).
Proof. intros Hr. unfold sp_copy. by rewrite run_bind, (run_deref _ _ _ Hr). Qed.

Lemma run_get_data (h : heap) r m : h !! r = Some (Csr m) → get_data r h = (inr (data m), h).
Proof. intros Hr. unfold get_data. by rewrite run_bind, (run_deref _ _ _ Hr). Qed.

Lemma run_set_data (h : heap) r m d :
  h !! r = Some (Csr m) →
  set_data r d h = (inr (), <[r := Csr (mk_csr (csr_shape m) (indptr m) (indices m) d)]> h).
Proof. intros Hr. unfold set_data. by rewrite run_bind, (run_deref _ _ _ Hr). Qed.

Lemma run_eliminate_zeros (h : heap) r m :
  h !! r = Some (Csr m) →
  eliminate_zeros r h = (inr (), <[r := Csr (csr_eliminate_zeros m)]> h).
Proof. intros Hr. unfold eliminate_zeros. by rewrite run_bind, (run_deref _ _ _ Hr). Qed.

Lemma d2c_run_csr (h : heap) r m mv :
  h !! r = Some (Csr m) →
  _distance_to_connectivity r (Some mv) h =
  (inr (fresh (dom h)),
   <[fresh (dom h) :=
       Csr (csr_eliminate_zeros
              (mk_csr (csr_shape m) (indptr m) (indices m)
                 (connectivity_formula mv <$> data m)))]> h).
Proof.
  intros Hr. unfold _distance_to_connectivity.
  rewrite run_bind, (run_as_csr _ _ _ Hr). cbv beta iota.
  rewrite run_bind. change (mret (M:=M) mv h) with (@inr exn float mv, h). cbv beta iota.
  rewrite run_bind, (run_sp_copy _ _ _ Hr). cbv beta iota.
  set (r' := fresh (dom h)).
  rewrite run_bind, (run_get_data _ r' m) by apply lookup_insert_eq. cbv beta iota zeta.
  rewrite run_bind, (run_set_data _ r' m) by apply lookup_insert_eq. cbv beta iota.
  rewrite insert_insert_eq.
  rewrite run_bind. erewrite run_eliminate_zeros by apply lookup_insert_eq.
  cbv beta iota. rewrite insert_insert_eq.
  rewrite <- list_fmap_compose. done.
Qed.

Lemma d2c_run_default (h : heap) r m :
  h !! r = Some (Csr m) →
  _distance_to_connectivity r None h =
  match (csr_max m).1 with
  | inl e => (inl e, <[r := Csr (csr_max m).2]> h)
  | inr mv => _distance_to_connectivity r (Some mv) (<[r := Csr (csr_max m).2]> h)
  end.
Proof.
  intros Hr. unfold _distance_to_connectivity.
  rewrite run_bind, (run_as_csr _ _ _ Hr). cbv beta iota.
  rewrite run_bind. unfold np_max. destruct (csr_max m) as [[e|mv] m1]; cbn [fst snd].
  - done.
  - rewrite run_bind. unfold store, lift. cbv beta iota. symmetry.
    rewrite run_bind, (run_as_csr _ r m1) by apply lookup_insert_eq.
    cbv beta iota. by rewrite run_bind.
Qed.

Lemma d2c_run_coo (h : heap) r c mv :
  h !! r = Some (Coo c) →
  _distance_to_connectivity r mv h =
  (inl (ValueError "Distance matrix must be in CSR format."), h).
Proof.
  intros Hr.
  unfold _distance_to_connectivity, as_csr, deref, throw, mbind, M_bind, mret, M_ret.
  by rewrite Hr.
Qed.

Lemma run_get_igraph (h : heap) r m :
  h !! r = Some (Csr m) →
  ∃ g, _get_igraph_from_adjacency r h = (inr g, h) ∧ vcount g = (csr_shape m).1.
Proof.
  intros Hr. unfold _get_igraph_from_adjacency.
  rewrite run_bind, (run_as_csr _ _ _ Hr). cbv beta iota.
  destruct (csr_nonzero m) as [sources targets].
  eexists. split; [reflexivity|]. unfold vcount; simpl. apply length_replicate.
Qed.

(** ** Arithmetic of the connectivity formula *)

Lemma connectivity_formula_fin (mx q : Q) :
  (0 < mx)%Q →
  connectivity_formula (Fin mx) (Fin q) = Fin ((mx + - (q + - 1)) / mx).
Proof.
  intros Hmx. unfold connectivity_formula, fdiv, fsub, fadd, fopp, one.
  destruct (Qeq_bool mx 0) eqn:Heq; [|done].
  apply Qeq_bool_eq in Heq. lra.
Qed.

Lemma connectivity_formula_unit (mv v : float) :
  distance_code v → within_max mv v →
  feqb (connectivity_formula mv v) zero = false →
  in_unit (connectivity_formula mv v).
Proof.
  destruct mv as [mx| |], v as [q| |]; simpl; try done.
  intros Hq [Hmx Hle]. rewrite connectivity_formula_fin by done.
  simpl. intros Hnz.
  assert (¬ ((mx + - (q + - 1)) / mx == 0)%Q) as Hne.
  { intros Heq. apply Qeq_eq_bool in Heq. unfold zero in Hnz. congruence. }
  assert (0 <= (mx + - (q + - 1)) / mx)%Q as Hge.
  { apply Qle_shift_div_l; [done|]. lra. }
  split.
  - destruct (Qle_lt_or_eq _ _ Hge) as [Hlt|Heq]; [done|]. by symmetry in Heq.
  - apply Qle_shift_div_r; [done|]. lra.
Qed.

Lemma foldl_maximum_codes (v : float) (ws : list float) :
  distance_code v → Forall distance_code ws →
  ∃ mx, foldl maximum v ws = Fin mx ∧ (1 <= mx)%Q ∧
        Forall (λ u, ∃ q, u = Fin q ∧ (q <= mx)%Q) (v :: ws).
Proof.
  revert v. induction ws as [|w ws IH]; intros v Hv Hall.
  - destruct v as [q| |]; simpl in *; try done.
    exists q. repeat split; [done|]. constructor; [|constructor].
    exists q. split; [done|]. lra.
  - inversion Hall as [|? ? Hw Hws]; subst. simpl.
    destruct v as [q| |], w as [p| |]; simpl in Hv, Hw; try done.
    assert (distance_code (maximum (Fin q) (Fin p))) as Hm.
    { unfold maximum, fleb. destruct (Qle_bool q p); done. }
    destruct (IH _ Hm Hws) as (mx & Hfold & Hone & Hbound).
    exists mx. split; [done|]. split; [done|].
    inversion Hbound as [|? ? (k & Hk & Hle) Hrest]; subst.
    unfold maximum, fleb in Hk.
    destruct (Qle_bool q p) eqn:Hqp.
    + apply Qle_bool_iff in Hqp. injection Hk as <-.
      constructor; [exists q; split; [done|lra]|].
      constructor; [exists p; split; [done|lra]|done].
    + injection Hk as <-.
      assert (p <= q)%Q.
      { destruct (Qlt_le_dec q p) as [Hlt|Hge]; [|done].
        apply Qlt_le_weak, Qle_bool_iff in Hlt. congruence. }
      constructor; [exists q; split; [done|lra]|].
      constructor; [exists p; split; [done|lra]|done].
Qed.

(** [m.max()] raises on a matrix with a dimension 0 only. *)
Lemma csr_max_raises m e :
  (csr_max m).1 = inl e →
  e = ValueError "zero-size array to reduction operation" ∧
  ((csr_shape m).1 = 0 ∨ (csr_shape m).2 = 0).
Proof.
  unfold csr_max.
  destruct (decide ((csr_shape m).1 = 0 ∨ (csr_shape m).2 = 0)) as [Hz|Hz].
  { intros [= <-]. done. }
  destruct (decide (csr_nnz m = 0)); [discriminate|].
  cbv zeta. cbn [fst].
  destruct (data (csr_sum_duplicates m)) as [|v ws]; [discriminate|].
  destruct (decide _); discriminate.
Qed.

(** [m.max()] leaves a matrix in canonical format as it is, and never
    changes the shape. *)
Lemma csr_sum_duplicates_canonical m :
  has_canonical_format m = true → csr_sum_duplicates m = m.
Proof. intros Hc. unfold csr_sum_duplicates. by rewrite Hc. Qed.


Lemma csr_max_shape m : csr_shape (csr_max m).2 = csr_shape m.
Proof.
  unfold csr_max. destruct (decide _); [done|].
  destruct (decide _); [done|]. cbv zeta. cbn [snd].
  unfold csr_sum_duplicates. by destruct (has_canonical_format m).
Qed.

(** Addition in the float model is commutative and associative. *)
Lemma Qplus_comm_eq (x y : Q) : (x + y)%Q = (y + x)%Q.
Proof. unfold Qplus. f_equal; [lia|apply Pos.mul_comm]. Qed.

Lemma Qplus_assoc_eq (x y z : Q) : (x + (y + z))%Q = (x + y + z)%Q.
Proof.
  unfold Qplus; simpl. f_equal; [|apply Pos.mul_assoc].
  rewrite !Pos2Z.inj_mul. ring.
Qed.

Lemma fadd_comm (a b : float) : (a + b)%F = (b + a)%F.
Proof.
  destruct a as [x|s|], b as [y|t|]; simpl; try done.
  - by rewrite Qplus_comm_eq.
  - by destruct s, t.
Qed.

Lemma fadd_assoc (a b c : float) : (a + (b + c))%F = (a + b + c)%F.
Proof.
  destruct a as [x|s|], b as [y|t|], c as [z|u|]; simpl; try done;
    try (by rewrite Qplus_assoc_eq);
    repeat match goal with
           | b : bool |- _ => destruct b
           end; done.
Qed.

(** A property of the stored values that sums keep is kept by
    [sum_duplicates()]. *)
Lemma add_cell_Forall (P : float → Prop) (c : cell) (row : list cell) :
  (∀ a b, P a → P b → P (a + b)%F) →
  P c.2 → Forall (λ d : cell, P d.2) row →
  Forall (λ d : cell, P d.2) (add_cell c row).
Proof.
  intros Hsum Hc. induction 1 as [|d row Hd Hrow IH]; cbn [add_cell].
  - by repeat constructor.
  - destruct (decide (c.1 < d.1)); [by repeat constructor|].
    destruct (decide (c.1 = d.1)).
    + constructor; [|done]. cbn [snd]. by apply Hsum.
    + by constructor.
Qed.

Lemma sum_row_Forall (P : float → Prop) (row : list cell) :
  (∀ a b, P a → P b → P (a + b)%F) →
  Forall (λ d : cell, P d.2) row →
  Forall (λ d : cell, P d.2) (foldl (λ acc c, add_cell c acc) [] row).
Proof.
  intros Hsum.
  assert (∀ acc, Forall (λ d : cell, P d.2) acc →
                 Forall (λ d : cell, P d.2) row →
                 Forall (λ d : cell, P d.2) (foldl (λ acc c, add_cell c acc) acc row))
    as Hgen; [|by apply Hgen].
  induction row as [|c row IH]; intros acc Hacc Hrow; [done|].
  apply Forall_cons in Hrow as [Hc Hrow]. cbn [foldl].
  apply IH; [|done]. by apply add_cell_Forall.
Qed.

Lemma csr_sum_duplicates_data (P : float → Prop) m :
  (∀ a b, P a → P b → P (a + b)%F) →
  Forall P (data m) → Forall P (data (csr_sum_duplicates m)).
Proof.
  intros Hsum Hall. unfold csr_sum_duplicates.
  destruct (has_canonical_format m); [done|].
  unfold csr_of_rows. cbn [data]. apply Forall_fmap.
  apply Forall_forall. intros c Hc.
  apply list_elem_of_join in Hc as (row' & Hc & Hrow').
  apply list_elem_of_fmap in Hrow' as (row & -> & Hrow).
  assert (Forall (λ d : cell, P d.2) row) as Hrowall.
  { pose proof (csr_rows_data m) as Hdata.
    rewrite Forall_forall in Hdata. specialize (Hdata _ Hrow).
    eapply Forall_impl; [exact Hdata|]. intros d Hd.
    rewrite Forall_forall in Hall. by apply Hall. }
  pose proof (sum_row_Forall P row Hsum Hrowall) as Hres.
  rewrite Forall_forall in Hres. by apply (Hres c).
Qed.

Lemma distance_code_sum (a b : float) :
  distance_code a → distance_code b → distance_code (a + b)%F.
Proof. destruct a as [p| |], b as [q| |]; simpl; try done. intros. lra. Qed.

(** The default [max_value] of a matrix of distance codes bounds the codes of
    the matrix as [max] leaves it, which are distance codes again. *)
Lemma csr_max_codes m mv :
  csr_wf m → Forall distance_code (data m) →
  (csr_max m).1 = inr mv →
  Forall distance_code (data (csr_max m).2) ∧
  Forall (within_max mv) (data (csr_max m).2).
Proof.
  intros (_ & _ & _ & Hlast & _ & _) Hcodes. unfold csr_max.
  destruct (decide _); [done|].
  destruct (decide (csr_nnz m = 0)) as [Hz|Hz].
  { intros _. cbn [snd]. unfold csr_nnz in Hz. rewrite Hlast in Hz. simpl in Hz.
    apply length_zero_iff_nil in Hz. rewrite Hz. split; constructor. }
  cbv zeta. cbn [fst snd].
  pose proof (csr_sum_duplicates_data distance_code m distance_code_sum Hcodes)
    as Hcodes'.
  intros Hmv. split; [done|]. revert Hmv.
  destruct (data (csr_sum_duplicates m)) as [|v ws] eqn:Hd; [constructor|].
  inversion Hcodes' as [|? ? Hv Hvs]; subst.
  destruct (foldl_maximum_codes v ws Hv Hvs) as (mx & Hfold & Hone & Hbound).
  cbv beta iota zeta. rewrite Hfold.
  assert (Qle_bool 0 mx = true) as Hmax by (apply Qle_bool_iff; lra).
  intros Hmv.
  assert (mv = Fin mx) as ->.
  { destruct (decide _); [by injection Hmv|].
    cbn [maximum zero fleb] in Hmv. rewrite Hmax in Hmv. by injection Hmv. }
  eapply Forall_impl; [exact Hbound|].
  intros u (q & -> & Hq). simpl. split; lra.
Qed.

(** ** The conversion of distances to connectivities *)

(** C2, as stated, fails: with [max_value = 3] the stored code 5 of the
    example matrix becomes the connectivity -1/3, and the cell stays in the
    sparse structure of the result (rows 0 and 3); only the cells of code 4,
    whose connectivity is exactly 0, are removed. *)
Lemma negative_connectivity_is_kept :
  ∃ connectivities h' m',
    _distance_to_connectivity 1%positive (Some (Fin 3)) csr_store
      = (inr connectivities, h') ∧
    h' !! connectivities = Some (Csr m') ∧
    csr_rows m' =
      [ [(1, Fin (3 # 3)); (3, Fin (-1 # 3))];
        [(0, Fin (3 # 3)); (2, Fin (2 # 3))];
        [(1, Fin (2 # 3)); (3, Fin (1 # 3))];
        [(0, Fin (-1 # 3)); (2, Fin (1 # 3))] ] ∧
    fleb (Fin (-1 # 3)) zero = true.
Proof.
  eexists _, _, _. split; [vm_compute; reflexivity|].
  split; [vm_compute; reflexivity|]. split; reflexivity.
Qed.

(** C2, amended: for every CSR matrix and every explicit [max_value] the
    conversion returns a new matrix of the same shape in which every stored
    cell [(j, v)] of every row has become [(j, (max_value - (v - 1)) /
    max_value)], in the same order, except that the cells whose connectivity
    equals 0 are absent from the sparse structure; a cell whose connectivity
    is not 0, negative ones included, is kept. *)
Theorem distance_to_connectivity_cells (h : heap) distances m max_value :
  h !! distances = Some (Csr m) →
  ∃ connectivities m',
    _distance_to_connectivity distances (Some max_value) h
      = (inr connectivities, <[connectivities := Csr m']> h) ∧
    h !! connectivities = None ∧
    csr_shape m' = csr_shape m ∧
    csr_rows m' =
      (λ row : list cell, filter (λ c : cell, feqb c.2 zero = false)
                (prod_map id (connectivity_formula max_value) <$> row))
      <$> csr_rows m.
Proof.
  intros Hr. eexists _, _. split; [by apply d2c_run_csr|].
  split; [apply fresh_lookup|]. split; [done|].
  unfold csr_eliminate_zeros. rewrite csr_rows_of_rows.
  rewrite (csr_rows_set_data (connectivity_formula max_value) m).
  by rewrite <- list_fmap_compose.
Qed.

Lemma distance_to_connectivity_cells_witness :
  ∃ connectivities m',
    _distance_to_connectivity 1%positive (Some (Fin 3)) csr_store
      = (inr connectivities, <[connectivities := Csr m']> csr_store) ∧
    csr_store !! connectivities = None ∧
    csr_shape m' = csr_shape dist_csr ∧
    csr_rows m' =
      (λ row : list cell, filter (λ c : cell, feqb c.2 zero = false)
                (prod_map id (connectivity_formula (Fin 3)) <$> row))
      <$> csr_rows dist_csr.
Proof.
  exact (distance_to_connectivity_cells csr_store 1%positive dist_csr (Fin 3) eq_refl).
Defined.

(** C5, as stated, fails: with the explicit [max_value = 3] the result of the
    example matrix retains the value -1/3, which is not in (0, 1]. *)
Lemma retained_connectivity_outside_unit :
  ∃ connectivities h' m',
    _distance_to_connectivity 1%positive (Some (Fin 3)) csr_store
      = (inr connectivities, h') ∧
    h' !! connectivities = Some (Csr m') ∧
    Fin (-1 # 3) ∈ data m' ∧ ¬ in_unit (Fin (-1 # 3)).
Proof.
  eexists _, _, _. split; [vm_compute; reflexivity|].
  split; [vm_compute; reflexivity|]. split.
  - apply list_elem_of_In. vm_compute. right; left; reflexivity.
  - simpl. intros [H _]. vm_compute in H. discriminate.
Qed.

Lemma d2c_unit_explicit (h : heap) r m mv :
  h !! r = Some (Csr m) →
  Forall distance_code (data m) →
  Forall (within_max mv) (data m) →
  ∃ connectivities m',
    _distance_to_connectivity r (Some mv) h
      = (inr connectivities, <[connectivities := Csr m']> h) ∧
    Forall in_unit (data m').
Proof.
  intros Hr Hcodes Hin.
  eexists _, _. split; [by apply d2c_run_csr|].
  apply Forall_forall. intros c Hc.
  apply csr_eliminate_zeros_data in Hc as [Hc Hnz]. simpl in Hc.
  apply list_elem_of_fmap in Hc as (v & -> & Hv).
  rewrite Forall_forall in Hcodes, Hin.
  apply connectivity_formula_unit; auto.
Qed.

(** C5, amended: when the stored values are distance codes [v >= 1] of a
    well-formed CSR matrix, and [max_value] is either defaulted (on a matrix
    that has no dimension 0) or explicit, positive and not below any true
    distance [v - 1], the conversion returns, and all retained connectivity
    values lie in (0, 1]. The result is a new object; with the default
    [max_value] the input is left as [np.max] leaves it. *)
Theorem retained_connectivities_in_unit (h : heap) distances m max_value :
  h !! distances = Some (Csr m) →
  csr_wf m →
  Forall distance_code (data m) →
  match max_value with
  | Some mv => Forall (within_max mv) (data m)
  | None => (csr_shape m).1 ≠ 0 ∧ (csr_shape m).2 ≠ 0
  end →
  ∃ connectivities m',
    _distance_to_connectivity distances max_value h
      = (inr connectivities,
         <[connectivities := Csr m']>
           (if max_value is Some _ then h
            else <[distances := Csr (csr_max m).2]> h)) ∧
    Forall in_unit (data m').
Proof.
  intros Hr Hwf Hcodes Hmax.
  destruct max_value as [mv|]; [by apply (d2c_unit_explicit _ _ m)|].
  rewrite (d2c_run_default _ _ _ Hr).
  destruct (csr_max m).1 as [e|mv] eqn:Hm.
  - exfalso. apply csr_max_raises in Hm as [_ Hz]. tauto.
  - destruct (csr_max_codes m mv Hwf Hcodes Hm) as [Hcodes' Hin].
    apply (d2c_unit_explicit _ _ (csr_max m).2); [apply lookup_insert_eq|done..].
Qed.

Lemma dist_csr_wf : csr_wf dist_csr.
Proof.
  unfold csr_wf, dist_csr; simpl. repeat split; try done.
  - repeat constructor.
  - apply Forall_forall. intros j Hj. apply list_elem_of_In in Hj. simpl in Hj.
    repeat (destruct Hj as [<-|Hj]; [lia|]). done.
Defined.

Lemma dist_csr_codes : Forall distance_code (data dist_csr).
Proof. repeat constructor; by vm_compute. Defined.

Lemma retained_connectivities_in_unit_witness :
  ∃ connectivities m',
    _distance_to_connectivity 1%positive None csr_store
      = (inr connectivities,
         <[connectivities := Csr m']>
           (<[1%positive := Csr (csr_max dist_csr).2]> csr_store)) ∧
    Forall in_unit (data m').
Proof.
  apply (retained_connectivities_in_unit csr_store 1%positive dist_csr None eq_refl
           dist_csr_wf dist_csr_codes).
  simpl. split; lia.
Defined.

(** ** The format error *)

(** C7, as stated, fails: [igraph_from_sparse_matrix] accepts a matrix in
    the coordinate layout and builds the graph. *)
Lemma coo_matrix_is_accepted :
  (igraph_from_sparse_matrix 1%positive "distance" (Some (Fin 3)) coo_store).1 =
  inr {| vs := [None; None; None; None];
         es := [(0, 1); (0, 3); (1, 0); (1, 2); (2, 1); (2, 3); (3, 0); (3, 2)];
         es_weight := [Fin (3 # 3); Fin (-1 # 3); Fin (3 # 3); Fin (2 # 3);
                       Fin (2 # 3); Fin (1 # 3); Fin (-1 # 3); Fin (1 # 3)] |}.
Proof. vm_compute. reflexivity. Qed.

(** C7, amended: [_distance_to_connectivity], called with a matrix that is
    not in the CSR layout, raises the format error before anything is
    converted or created (the store is unchanged). The entry point
    [igraph_from_sparse_matrix] converts its argument to CSR first: on a
    matrix in another layout it never raises the format error, and with an
    explicit [max_value] it returns a graph. *)
Theorem format_error_only_on_direct_call (h : heap) matrix c max_value :
  h !! matrix = Some (Coo c) →
  _distance_to_connectivity matrix max_value h
    = (inl (ValueError "Distance matrix must be in CSR format."), h) ∧
  (∀ matrix_type,
     (igraph_from_sparse_matrix matrix matrix_type max_value h).1
       ≠ inl (ValueError "Distance matrix must be in CSR format.")) ∧
  (∀ matrix_type mv, max_value = Some mv →
     ∃ g h', igraph_from_sparse_matrix matrix matrix_type max_value h = (inr g, h')).
Proof.
  intros Hr. split; [by eapply d2c_run_coo|].
  assert (tocsr matrix h =
          (inr (fresh (dom h)), <[fresh (dom h) := Csr (coo_tocsr c)]> h)) as Hto.
  { unfold tocsr. by rewrite run_bind, (run_deref _ _ _ Hr). }
  set (r1 := fresh (dom h)) in *. set (h1 := <[r1 := Csr (coo_tocsr c)]> h) in *.
  assert (h1 !! r1 = Some (Csr (coo_tocsr c))) as Hr1 by apply lookup_insert_eq.
  assert (∀ h2 m2 mv, h2 !! r1 = Some (Csr m2) → ∃ g h',
            (_distance_to_connectivity r1 (Some mv) ≫= λ a, _get_igraph_from_adjacency a) h2
            = (inr g, h')) as Hsome.
  { intros h2 m2 mv Hr2. rewrite run_bind, (d2c_run_csr _ _ _ _ Hr2).
    edestruct run_get_igraph as (g & Hg & _); [apply lookup_insert_eq|].
    rewrite Hg. eauto. }
  assert (∃ g, (mret r1 ≫= λ a, _get_igraph_from_adjacency a) h1 = (inr g, h1)) as Hret.
  { rewrite run_bind. change (mret (M:=M) r1 h1) with (@inr exn loc r1, h1).
    destruct (run_get_igraph _ _ _ Hr1) as (g & Hg & _). eauto. }
  split.
  - intros matrix_type. unfold igraph_from_sparse_matrix.
    rewrite run_bind, Hto. cbv beta iota.
    destruct (decide _).
    + destruct max_value as [mv|].
      * destruct (Hsome h1 _ mv Hr1) as (g & h' & ->). done.
      * rewrite run_bind, (d2c_run_default _ _ _ Hr1).
        destruct (csr_max (coo_tocsr c)).1 as [err|mv] eqn:Hm.
        -- apply csr_max_raises in Hm as [-> _]. simpl. discriminate.
        -- destruct (Hsome (<[r1 := Csr (csr_max (coo_tocsr c)).2]> h1) _ mv
                       (lookup_insert_eq _ _ _)) as (g & h' & Heq).
           rewrite run_bind in Heq. by rewrite Heq.
    + destruct Hret as (g & ->). done.
  - intros matrix_type mv ->. unfold igraph_from_sparse_matrix.
    rewrite run_bind, Hto. cbv beta iota.
    destruct (decide _); [by eapply Hsome|].
    destruct Hret as (g & ->). eauto.
Qed.

Lemma format_error_only_on_direct_call_witness :
  _distance_to_connectivity 1%positive (Some (Fin 3)) coo_store
    = (inl (ValueError "Distance matrix must be in CSR format."), coo_store) ∧
  (∀ matrix_type,
     (igraph_from_sparse_matrix 1%positive matrix_type (Some (Fin 3)) coo_store).1
       ≠ inl (ValueError "Distance matrix must be in CSR format.")) ∧
  (∀ matrix_type mv, Some (Fin 3) = Some mv →
     ∃ g h', igraph_from_sparse_matrix 1%positive matrix_type (Some (Fin 3)) coo_store
             = (inr g, h')).
Proof.
  exact (format_error_only_on_direct_call coo_store 1%positive dist_coo
           (Some (Fin 3)) eq_refl).
Defined.

(** ** What the conversion does to its input *)




(** ** Rescaling a layout into its bounding box *)

Lemma fsub_neq (a b : float) : feqb a b = false → feqb (b - a) zero = false.
Proof.
  destruct a as [x|s|], b as [y|t|]; simpl; try done.
  - intros Hne. destruct (Qeq_bool (y + - x) 0) eqn:Heq; [|done].
    apply Qeq_bool_eq in Heq.
    assert (x == y)%Q as Hxy by lra. apply Qeq_eq_bool in Hxy. congruence.
  - by destruct s, t.
Qed.

Lemma zip_fmap_fst_snd {A B C D} (f : A → C) (g : B → D) (l : list (A * B)) :
  zip (f <$> l.*1) (g <$> l.*2) = (λ p, (f p.1, g p.2)) <$> l.
Proof. induction l as [|[a b] l IH]; [done|]. cbn. f_equal. exact IH. Qed.

(** C8: on every non-empty coordinate array the rescale returns, each axis
    is mapped by [new = (old - min) / extent * bbox_extent + bbox_origin],
    the extent is [max - min] of that axis, or 1.0 when [min == max], and
    neither extent is zero: no division by zero takes place. *)
Theorem rescale_layout_formula (coords : list (float * float)) (box : bbox) :
  coords ≠ [] →
  ∃ min_x min_y max_x max_y delta_x delta_y,
    np_min (coords.*1) = inr min_x ∧ np_min (coords.*2) = inr min_y ∧
    np_amax (coords.*1) = inr max_x ∧ np_amax (coords.*2) = inr max_y ∧
    delta_x = (if feqb min_x max_x then one else max_x - min_x)%F ∧
    delta_y = (if feqb min_y max_y then one else max_y - min_y)%F ∧
    feqb delta_x zero = false ∧ feqb delta_y zero = false ∧
    _rescale_layout coords box =
      inr ((λ p, ((p.1 - min_x) / delta_x * bbox_w box + bbox_x box,
                  (p.2 - min_y) / delta_y * bbox_h box + bbox_y box)%F)
           <$> coords).
Proof.
  intros Hne. destruct coords as [|[x0 y0] coords]; [done|].
  destruct box as [[[bx by_] bw] bh].
  eexists _, _, _, _, _, _.
  repeat (split; [reflexivity|]).
  split; [|split].
  - match goal with |- context [if ?c then _ else _] => destruct c eqn:Heq end;
      [done|]. by apply fsub_neq.
  - match goal with |- context [if ?c then _ else _] => destruct c eqn:Heq end;
      [done|]. by apply fsub_neq.
  - unfold _rescale_layout. set (l := (x0, y0) :: coords).
    change (np_min (l.*1)) with (@inr exn float (foldl minimum x0 (coords.*1))).
    change (np_min (l.*2)) with (@inr exn float (foldl minimum y0 (coords.*2))).
    change (np_amax (l.*1)) with (@inr exn float (foldl maximum x0 (coords.*1))).
    change (np_amax (l.*2)) with (@inr exn float (foldl maximum y0 (coords.*2))).
    cbn [mbind res_bind]. rewrite zip_fmap_fst_snd.
    unfold bbox_w, bbox_h, bbox_x, bbox_y. cbn [fst snd].
    by do 2 destruct (feqb _ _).
Qed.

Lemma rescale_layout_formula_witness :
  ∃ min_x min_y max_x max_y delta_x delta_y,
    np_min ([(Fin 2, Fin 5); (Fin 4, Fin 5)].*1) = inr min_x ∧
    np_min ([(Fin 2, Fin 5); (Fin 4, Fin 5)].*2) = inr min_y ∧
    np_amax ([(Fin 2, Fin 5); (Fin 4, Fin 5)].*1) = inr max_x ∧
    np_amax ([(Fin 2, Fin 5); (Fin 4, Fin 5)].*2) = inr max_y ∧
    delta_x = (if feqb min_x max_x then one else max_x - min_x)%F ∧
    delta_y = (if feqb min_y max_y then one else max_y - min_y)%F ∧
    feqb delta_x zero = false ∧ feqb delta_y zero = false ∧
    _rescale_layout [(Fin 2, Fin 5); (Fin 4, Fin 5)] (Fin 10, Fin 20, Fin 3, Fin 3) =
      inr ((λ p, ((p.1 - min_x) / delta_x * bbox_w (Fin 10, Fin 20, Fin 3, Fin 3)
                    + bbox_x (Fin 10, Fin 20, Fin 3, Fin 3),
                  (p.2 - min_y) / delta_y * bbox_h (Fin 10, Fin 20, Fin 3, Fin 3)
                    + bbox_y (Fin 10, Fin 20, Fin 3, Fin 3))%F)
           <$> [(Fin 2, Fin 5); (Fin 4, Fin 5)]).
Proof.
  apply (rescale_layout_formula [(Fin 2, Fin 5); (Fin 4, Fin 5)]
           (Fin 10, Fin 20, Fin 3, Fin 3)).
  discriminate.
Defined.

(** ** The shelf arrangement *)

Section Shelf.
Variable E : Ext.
Variables pad_x pad_y : float.

Lemma bbox_sorted_loop sizes bboxes x y current_n :
  (foldl (_bbox_sorted_body E pad_x pad_y) (bboxes, x, y, current_n) sizes).1.1.1 =
  bboxes ++ shelf_boxes E pad_x pad_y x y current_n sizes.
Proof.
  revert bboxes x y current_n.
  induction sizes as [|n sizes IH]; intros bboxes x y current_n.
  - simpl. by rewrite app_nil_r.
  - cbn [foldl shelf_boxes]. unfold _bbox_sorted_body at 2, shelf_place.
    unfold _get_bbox_dimensions.
    destruct (n =? current_n)%Z eqn:Hn; cbn [negb]; rewrite IH;
      rewrite <- (assoc_L (++)); cbn [app];
      unfold bbox_x, bbox_y, bbox_w; cbn [fst snd]; try done.
    apply Z.eqb_eq in Hn as ->. done.
Qed.

Lemma bbox_sorted_shelf sizes :
  _bbox_sorted E sizes pad_x pad_y =
  shelf_boxes E pad_x pad_y (of_Z 0) (of_Z 0) 1%Z sizes.
Proof. unfold _bbox_sorted. by rewrite bbox_sorted_loop. Qed.

Lemma shelf_boxes_length x y previous sizes :
  length (shelf_boxes E pad_x pad_y x y previous sizes) = length sizes.
Proof.
  revert x y previous. induction sizes as [|n sizes IH]; intros; simpl; [done|].
  by rewrite IH.
Qed.

Lemma shelf_place_side x y previous n :
  bbox_w (shelf_place E pad_y x y previous n) = fpow E (of_Z n) (Fin (4 # 5)) ∧
  bbox_h (shelf_place E pad_y x y previous n) = fpow E (of_Z n) (Fin (4 # 5)).
Proof. unfold shelf_place. by destruct (n =? previous)%Z. Qed.

Lemma shelf_boxes_side x y previous sizes i n b :
  sizes !! i = Some n →
  shelf_boxes E pad_x pad_y x y previous sizes !! i = Some b →
  bbox_w b = fpow E (of_Z n) (Fin (4 # 5)) ∧ bbox_h b = fpow E (of_Z n) (Fin (4 # 5)).
Proof.
  revert x y previous i. induction sizes as [|k sizes IH]; intros x y previous i; [done|].
  destruct i as [|i]; simpl.
  - intros [= ->] [= <-]. apply shelf_place_side.
  - apply IH.
Qed.

Lemma shelf_boxes_next x y previous sizes i p n a b :
  sizes !! i = Some p → sizes !! S i = Some n →
  shelf_boxes E pad_x pad_y x y previous sizes !! i = Some a →
  shelf_boxes E pad_x pad_y x y previous sizes !! S i = Some b →
  b = shelf_place E pad_y (bbox_x a + (bbox_w a + pad_x))%F (bbox_y a) p n.
Proof.
  revert x y previous i. induction sizes as [|k sizes IH]; intros x y previous i; [done|].
  destruct i as [|i].
  - destruct sizes as [|k' sizes]; [done|]. simpl.
    intros [= ->] [= ->] [= <-] [= <-]. done.
  - intros H1 H2 H3 H4. exact (IH _ _ _ _ H1 H2 H3 H4).
Qed.

End Shelf.

(** C6: for every sequence of component sizes, [_bbox_sorted] returns one
    box per component, each with the footprint [(n ** 0.8, n ** 0.8)].
    A component whose size equals the size of the component before it is
    put in the same row, at the x of that box plus [width + pad_x]; a
    component whose size differs opens a new row, at [x = 0] and at the y of
    the box before it plus [height + pad_y], the height being the one of the
    row that starts. The first component is compared with the initial
    [current_n = 1]: it is placed at [(0, 0)] when its size is 1, and at
    [(0, 0 + (height + pad_y))] otherwise. *)
Theorem bbox_sorted_rows (E : Ext) (sizes : list Z) (pad_x pad_y : float) :
  let boxes := _bbox_sorted E sizes pad_x pad_y in
  let side := λ n : Z, fpow E (of_Z n) (Fin (4 # 5)) in
  length boxes = length sizes ∧
  (∀ i n b, sizes !! i = Some n → boxes !! i = Some b →
     _get_bbox_dimensions E n (Fin (4 # 5)) = (side n, side n) ∧
     bbox_w b = side n ∧ bbox_h b = side n) ∧
  (∀ n b, sizes !! 0 = Some n → boxes !! 0 = Some b →
     bbox_x b = of_Z 0 ∧
     bbox_y b = if decide (n = 1%Z) then of_Z 0 else (of_Z 0 + (side n + pad_y))%F) ∧
  (∀ i p n a b,
     sizes !! i = Some p → sizes !! S i = Some n →
     boxes !! i = Some a → boxes !! S i = Some b →
     if decide (n = p)
     then bbox_x b = (bbox_x a + (bbox_w a + pad_x))%F ∧ bbox_y b = bbox_y a
     else bbox_x b = of_Z 0 ∧ bbox_y b = (bbox_y a + (side n + pad_y))%F).
Proof.
  cbv zeta. rewrite bbox_sorted_shelf. split; [apply shelf_boxes_length|].
  split; [|split].
  - intros i n b Hn Hb. split; [done|]. by eapply shelf_boxes_side.
  - intros n b Hn Hb. destruct sizes as [|k sizes']; [done|].
    simpl in Hn, Hb. injection Hn as ->. injection Hb as <-.
    unfold shelf_place. destruct (decide (n = 1%Z)) as [->|Hne]; [done|].
    apply Z.eqb_neq in Hne. by rewrite Hne.
  - intros i p n a b Hp Hn Ha Hb.
    rewrite (shelf_boxes_next _ _ _ _ _ _ _ _ _ _ _ _ Hp Hn Ha Hb).
    unfold shelf_place. destruct (decide (n = p)) as [->|Hne].
    + by rewrite Z.eqb_refl.
    + apply Z.eqb_neq in Hne. by rewrite Hne.
Qed.

(** ** Results of [mapM] and of fancy indexing *)

Lemma mapM_inr {A B} (f : A → res B) (l : list A) (k : list B) :
  mapM f l = inr k ↔ Forall2 (λ x y, f x = inr y) l k.
Proof.
  revert k. induction l as [|x l IH]; intros k.
  - split.
    + intros [= <-]. constructor.
    + intros Hk. by inversion Hk.
  - cbn [mapM]. split.
    + destruct (f x) as [e|y] eqn:Hx; [done|]. cbn [mbind res_bind].
      destruct (mapM f l) as [e|k'] eqn:Hl; [done|]. intros [= <-].
      constructor; [done|]. by apply IH.
    + intros Hk. inversion Hk as [|? y ? k' Hx Hrest]; subst.
      rewrite Hx. cbn [mbind res_bind].
      apply IH in Hrest. rewrite Hrest. done.
Qed.

Lemma mapM_inr_exists {A B} (f : A → res B) (l : list A) :
  Forall (λ x, ∃ y, f x = inr y) l → ∃ k, mapM f l = inr k.
Proof.
  induction 1 as [|x l [y Hx] _ [k Hk]].
  - by exists [].
  - exists (y :: k). apply mapM_inr. constructor; [done|]. by apply mapM_inr.
Qed.

Lemma take_idx_inr {A} (a : list A) (idx : list nat) (r : list A) :
  take_idx a idx = inr r ↔ Forall2 (λ i x, a !! i = Some x) idx r.
Proof.
  unfold take_idx. rewrite mapM_inr. split; intros H.
  - eapply Forall2_impl; [exact H|]. intros i x. simpl.
    destruct (a !! i); [|done]. by intros [= ->].
  - eapply Forall2_impl; [exact H|]. intros i x ->. done.
Qed.

Lemma take_idx_exists {A} (a : list A) (idx : list nat) :
  Forall (λ i, i < length a) idx → ∃ r, take_idx a idx = inr r.
Proof.
  intros Hidx. apply mapM_inr_exists.
  eapply Forall_impl; [exact Hidx|]. intros i Hi. simpl.
  destruct (lookup_lt_is_Some_2 a i Hi) as [x ->]. by exists x.
Qed.

Lemma omap_id_Some {A} (l : list A) : omap id (Some <$> l) = l.
Proof. induction l as [|x l IH]; [done|]. cbn. by rewrite IH. Qed.

Lemma fmap_Some_Permutation {A} (l k : list A) :
  Some <$> l ≡ₚ Some <$> k → l ≡ₚ k.
Proof.
  intros H. apply (omap_Permutation id) in H. by rewrite !omap_id_Some in H.
Qed.

Lemma lookup_seq_all {A} (a : list A) :
  (λ i, a !! i) <$> seq 0 (length a) = Some <$> a.
Proof.
  apply list_eq. intros i. rewrite !list_lookup_fmap.
  destruct (decide (i < length a)) as [Hi|Hi].
  - rewrite lookup_seq_lt by done. simpl.
    destruct (lookup_lt_is_Some_2 a i Hi) as [x Hx]. by rewrite Hx.
  - rewrite lookup_seq_ge by lia. by rewrite (lookup_ge_None_2 a i) by lia.
Qed.

Lemma Forall2_lookup_fmap {A} (a : list A) (idx : list nat) (r : list A) :
  Forall2 (λ i x, a !! i = Some x) idx r → (λ i, a !! i) <$> idx = Some <$> r.
Proof. induction 1 as [|i x idx r Hx _ IH]; [done|]. cbn. by rewrite Hx, IH. Qed.

(** Reading an array along a permutation of its positions permutes it. *)
Lemma select_Permutation {A} (a : list A) (idx : list nat) (r : list A) :
  idx ≡ₚ seq 0 (length a) →
  Forall2 (λ i x, a !! i = Some x) idx r →
  r ≡ₚ a.
Proof.
  intros Hperm Hsel. apply fmap_Some_Permutation.
  rewrite <- (Forall2_lookup_fmap _ _ _ Hsel), <- lookup_seq_all.
  by apply fmap_Permutation.
Qed.

Lemma Permutation_seq_bound (idx : list nat) n :
  idx ≡ₚ seq 0 n → Forall (λ i, i < n) idx.
Proof.
  intros Hperm. apply Forall_forall. intros i Hi.
  rewrite Hperm in Hi. apply elem_of_seq in Hi. lia.
Qed.

(** ** The reference argsorts meet the contract of [np.argsort] *)

#[global] Instance pair_le_total rev : Total (pair_le rev).
Proof.
  intros [k1 i1] [k2 i2]. unfold pair_le; simpl.
  destruct (Z.lt_trichotomy k1 k2) as [?|[->|?]]; [tauto| |tauto].
  destruct (Nat.le_ge_cases i1 i2); destruct rev; tauto.
Qed.

Lemma pair_le_key rev a b : pair_le rev a b → (a.1 ≤ b.1)%Z.
Proof. unfold pair_le. intros [?|[? _]]; lia. Qed.

Lemma zip_seq_lookup (keys : list Z) :
  Forall (λ p : Z * nat, keys !! p.2 = Some p.1) (zip keys (seq 0 (length keys))).
Proof.
  apply Forall_lookup. intros i [k j] Hi.
  apply lookup_zip_Some in Hi as [Hk Hj].
  apply lookup_seq in Hj as [-> _]. done.
Qed.

Lemma argsort_by_spec rev : argsort_spec (argsort_by rev).
Proof.
  intros keys. unfold argsort_by.
  set (ps := zip keys (seq 0 (length keys))).
  pose proof (merge_sort_Permutation (pair_le rev) ps) as Hperm.
  split.
  - rewrite Hperm. unfold ps. rewrite snd_zip; [done|]. by rewrite length_seq.
  - rewrite <- list_fmap_compose.
    assert (Forall (λ p : Z * nat, keys !! p.2 = Some p.1)
              (merge_sort (pair_le rev) ps)) as Hall.
    { rewrite Hperm. apply zip_seq_lookup. }
    rewrite (Forall_fmap_ext_1 _ fst).
    + eapply Sorted_fmap; [|apply (Sorted_merge_sort (pair_le rev))].
      apply pair_le_key.
    + eapply Forall_impl; [exact Hall|]. intros p Hp. simpl. by rewrite Hp.
Qed.

(** ** The order of the components *)

Section Components.
Variable E : Ext.
Hypothesis Hargsort : argsort_spec (argsort E).

Lemma sorted_components_inv graph comps sizes :
  sorted_components E graph = inr (comps, sizes) →
  comps ≡ₚ decompose E (mk_graph (Some <$> seq 0 (vcount graph)) (es graph)
                          (es_weight graph)) ∧
  sizes = (λ c, Z.of_nat (vcount c)) <$> comps ∧
  Sorted Z.le sizes.
Proof.
  unfold sorted_components.
  set (comps0 := decompose E _).
  set (sizes0 := (λ c, Z.of_nat (vcount c)) <$> comps0).
  destruct (Hargsort sizes0) as [Hperm Hsorted].
  destruct (take_idx comps0 (argsort E sizes0)) as [e|cs] eqn:Hcs; [done|].
  cbn [mbind res_bind].
  destruct (take_idx sizes0 (argsort E sizes0)) as [e|ss] eqn:Hss; [done|].
  cbn [mbind res_bind]. intros [= <- <-].
  apply take_idx_inr in Hcs, Hss.
  assert (length sizes0 = length comps0) as Hlen by apply length_fmap.
  split; [|split].
  - eapply select_Permutation; [|exact Hcs]. by rewrite <- Hlen.
  - apply list_eq. intros k. rewrite list_lookup_fmap.
    destruct (argsort E sizes0 !! k) as [i|] eqn:Hi.
    + destruct (Forall2_lookup_l _ _ _ _ _ Hcs Hi) as (c & Hc & Hci).
      destruct (Forall2_lookup_l _ _ _ _ _ Hss Hi) as (s & Hs & Hsi).
      rewrite Hc, Hs. simpl. unfold sizes0 in Hsi.
      rewrite list_lookup_fmap, Hci in Hsi. by injection Hsi as <-.
    + apply lookup_ge_None in Hi.
      rewrite (lookup_ge_None_2 cs), (lookup_ge_None_2 ss); [done|..].
      * by rewrite <- (Forall2_length _ _ _ Hss).
      * by rewrite <- (Forall2_length _ _ _ Hcs).
  - replace ss with ((λ i, default 0%Z (sizes0 !! i)) <$> argsort E sizes0); [done|].
    clear Hsorted Hperm Hcs. induction Hss as [|i s idx ss Hs _ IH]; [done|].
    cbn. rewrite Hs. simpl. by f_equal.
Qed.

Lemma sorted_components_exists graph :
  ∃ comps sizes, sorted_components E graph = inr (comps, sizes).
Proof.
  unfold sorted_components.
  set (comps0 := decompose E _).
  set (sizes0 := (λ c, Z.of_nat (vcount c)) <$> comps0).
  destruct (Hargsort sizes0) as [Hperm _].
  apply Permutation_seq_bound in Hperm.
  destruct (take_idx_exists comps0 (argsort E sizes0)) as [cs ->].
  { unfold sizes0 in Hperm. by rewrite length_fmap in Hperm. }
  destruct (take_idx_exists sizes0 (argsort E sizes0)) as [ss ->]; [done|].
  by eexists _, _.
Qed.

End Components.

(** C4, as stated, fails: an [argsort] that meets what numpy promises of the
    default kind may swap components of equal size. With the argsort of
    [E_rev], the two components of [graph4], both of size 2, are processed in
    the reverse of the order in which the decomposition found them. *)
Lemma equal_sizes_lose_discovery_order :
  argsort_spec (argsort E_rev) ∧
  decompose E_rev (mk_graph (Some <$> seq 0 (vcount graph4)) (es graph4)
                     (es_weight graph4)) =
    [ mk_graph [Some 0; Some 1] [(0, 1); (1, 0)] [Fin 1; Fin 1];
      mk_graph [Some 2; Some 3] [(0, 1); (1, 0)] [Fin 1; Fin 1] ] ∧
  sorted_components E_rev graph4 =
    inr ([ mk_graph [Some 2; Some 3] [(0, 1); (1, 0)] [Fin 1; Fin 1];
           mk_graph [Some 0; Some 1] [(0, 1); (1, 0)] [Fin 1; Fin 1] ],
         [2%Z; 2%Z]).
Proof.
  split; [apply argsort_by_spec|]. split; vm_compute; reflexivity.
Qed.

(** C4, amended: when [np.argsort] does what numpy documents of the default
    kind, [layout_components] processes the components of the decomposition,
    each once, sorted by ascending vertex count. The order among components
    of equal vertex count is the one [np.argsort] happens to return. *)
Theorem components_sorted_by_size (E : Ext) (graph : Graph) :
  argsort_spec (argsort E) →
  ∃ comps sizes,
    sorted_components E graph = inr (comps, sizes) ∧
    comps ≡ₚ decompose E (mk_graph (Some <$> seq 0 (vcount graph)) (es graph)
                            (es_weight graph)) ∧
    sizes = (λ c, Z.of_nat (vcount c)) <$> comps ∧
    Sorted Z.le sizes.
Proof.
  intros Hargsort.
  destruct (sorted_components_exists E Hargsort graph) as (comps & sizes & Heq).
  exists comps, sizes. split; [done|]. by apply sorted_components_inv.
Qed.

Lemma components_sorted_by_size_witness :
  ∃ comps sizes,
    sorted_components E_ref graph6 = inr (comps, sizes) ∧
    comps ≡ₚ decompose E_ref (mk_graph (Some <$> seq 0 (vcount graph6)) (es graph6)
                                (es_weight graph6)) ∧
    sizes = (λ c, Z.of_nat (vcount c)) <$> comps ∧
    Sorted Z.le sizes.
Proof.
  exact (components_sorted_by_size E_ref graph6 (argsort_by_spec false)).
Defined.

(** ** Reassembling the rows by vertex id *)

Lemma rescale_layout_length (coords : list (float * float)) (box : bbox) :
  coords ≠ [] →
  ∃ rows, _rescale_layout coords box = inr rows ∧ length rows = length coords.
Proof.
  intros Hne. destruct coords as [|[x0 y0] coords]; [done|].
  destruct box as [[[bx by_] bw] bh].
  unfold _rescale_layout. set (l := (x0, y0) :: coords).
  change (np_min (l.*1)) with (@inr exn float (foldl minimum x0 (coords.*1))).
  change (np_min (l.*2)) with (@inr exn float (foldl minimum y0 (coords.*2))).
  change (np_amax (l.*1)) with (@inr exn float (foldl maximum x0 (coords.*1))).
  change (np_amax (l.*2)) with (@inr exn float (foldl maximum y0 (coords.*2))).
  cbn [mbind res_bind]. eexists. split; [reflexivity|].
  rewrite length_zip_with, !length_fmap. lia.
Qed.

Lemma list_bind_join {A B} (f : A → list B) (l : list A) : l ≫= f = mjoin (f <$> l).
Proof. induction l as [|x l IH]; [done|]. cbn. by rewrite IH. Qed.

Lemma join_lookup_parallel {A B} (ls1 : list (list A)) (ls2 : list (list B)) k x :
  Forall2 (λ a b, length a = length b) ls1 ls2 →
  mjoin ls1 !! k = Some x →
  ∃ p l1 l2 j, ls1 !! p = Some l1 ∧ ls2 !! p = Some l2 ∧ l1 !! j = Some x ∧
               mjoin ls2 !! k = l2 !! j.
Proof.
  intros Hall. revert k. induction Hall as [|l1 l2 ls1 ls2 Hlen _ IH]; intros k.
  - intros Hk. by destruct k.
  - change (mjoin (l1 :: ls1)) with (l1 ++ mjoin ls1).
    change (mjoin (l2 :: ls2)) with (l2 ++ mjoin ls2). intros Hk.
    apply lookup_app_Some in Hk as [Hk|[Hge Hk]].
    + exists 0, l1, l2, k. repeat split; [done|].
      apply lookup_app_l. rewrite <- Hlen. by eapply lookup_lt_Some.
    + destruct (IH _ Hk) as (p & l1' & l2' & j & H1 & H2 & H3 & H4).
      exists (S p), l1', l2', j. repeat split; [done..|].
      rewrite lookup_app_r by lia. by rewrite <- Hlen.
Qed.

Lemma Sorted_le_seq j n : Sorted le (seq j n).
Proof.
  revert j. induction n as [|n IH]; intros j; simpl; constructor; [apply IH|].
  destruct n; simpl; constructor. lia.
Qed.

(** The argsort of a permutation of [0 .. n-1] is its inverse. *)
Lemma argsort_inverse (f : list Z → list nat) (ids : list nat) n :
  argsort_spec f →
  ids ≡ₚ seq 0 n →
  f (Z.of_nat <$> ids) ≡ₚ seq 0 n ∧
  ∀ i, i < n → ∃ k, f (Z.of_nat <$> ids) !! i = Some k ∧ ids !! k = Some i.
Proof.
  intros Hspec Hids.
  assert (length ids = n) as Hlen.
  { by rewrite (Permutation_length Hids), length_seq. }
  destruct (Hspec (Z.of_nat <$> ids)) as [Hperm Hsorted].
  rewrite length_fmap, Hlen in Hperm. split; [done|].
  set (sorter := f (Z.of_nat <$> ids)) in *.
  destruct (take_idx_exists ids sorter) as [sel Hsel].
  { rewrite Hlen. by apply Permutation_seq_bound. }
  apply take_idx_inr in Hsel.
  assert (sel ≡ₚ seq 0 n) as Hselperm.
  { rewrite <- Hids. eapply select_Permutation; [|exact Hsel]. by rewrite Hlen. }
  assert (Z.of_nat <$> sel =
          (λ i, default 0%Z ((Z.of_nat <$> ids) !! i)) <$> sorter) as Hkeys.
  { clear Hperm Hsorted Hselperm.
    induction Hsel as [|k x idx sel Hx _ IH]; [done|].
    cbn. rewrite list_lookup_fmap, Hx. simpl. by f_equal. }
  rewrite <- Hkeys in Hsorted.
  assert (Z.of_nat <$> sel = Z.of_nat <$> seq 0 n) as Heq.
  { apply (Sorted_unique Z.le); [done| |by apply fmap_Permutation].
    eapply Sorted_fmap; [|apply (Sorted_le_seq 0 n)]. intros; lia. }
  apply (inj (fmap Z.of_nat)) in Heq.
  intros i Hi.
  assert (sel !! i = Some i) as Hi'.
  { rewrite Heq. by rewrite lookup_seq_lt. }
  destruct (Forall2_lookup_r _ _ _ _ _ Hsel Hi') as (k & Hk & Hki). eauto.
Qed.

(** The ["id"] attributes of the components, read in processing order. *)
Lemma vertex_ids_run (vss : list (option nat)) n :
  vss ≡ₚ Some <$> seq 0 n →
  ∃ ids,
    mapM (λ v : option nat,
            match v with
            | Some i => mret i
            | None => raise (KeyError "id")
            end) vss = inr ids ∧
    Some <$> ids = vss ∧ ids ≡ₚ seq 0 n.
Proof.
  intros Hperm.
  assert (Forall (λ v : option nat, ∃ i, v = Some i) vss) as Hall.
  { apply Forall_forall. intros v Hv. rewrite Hperm in Hv.
    apply list_elem_of_fmap in Hv as (i & -> & _). eauto. }
  destruct (mapM_inr_exists
              (λ v : option nat,
                 match v with
                 | Some i => mret i
                 | None => raise (KeyError "id")
                 end) vss) as [ids Hids].
  { eapply Forall_impl; [exact Hall|]. intros v [i ->]. by exists i. }
  exists ids. split; [done|].
  assert (Some <$> ids = vss) as Heq.
  { apply mapM_inr in Hids. clear Hall Hperm.
    induction Hids as [|v i vss ids Hv _ IH]; [done|].
    cbn. rewrite IH. destruct v; [|done]. by injection Hv as ->. }
  split; [done|]. apply fmap_Some_Permutation. by rewrite Heq.
Qed.

(** The layouts of the components, one row per vertex. *)
Lemma component_layouts_run (E : Ext) name (comps : list Graph) (bboxes : list bbox) :
  Forall (λ c, vcount c ≠ 0 ∧
               ∃ coords, graph_layout E c name = inr coords ∧
                         length coords = vcount c) comps →
  ∃ layouts,
    mapM (λ cb : Graph * bbox, _layout_component E cb.1 cb.2 name)
         (zip comps bboxes) = inr layouts ∧
    Forall2 (λ (cb : Graph * bbox) rows,
               _layout_component E cb.1 cb.2 name = inr rows ∧
               length (vs cb.1) = length rows)
            (zip comps bboxes) layouts.
Proof.
  intros Hall.
  assert (Forall (λ cb : Graph * bbox,
                    ∃ rows, _layout_component E cb.1 cb.2 name = inr rows ∧
                            length (vs cb.1) = length rows)
                 (zip comps bboxes)) as Hzip.
  { apply Forall_forall. intros [c b] Hcb.
    apply elem_of_zip_l in Hcb. rewrite Forall_forall in Hall.
    destruct (Hall _ Hcb) as (Hne & coords & Hlay & Hlen).
    cbn [fst snd]. unfold _layout_component. rewrite Hlay. cbn [mbind res_bind].
    destruct (rescale_layout_length coords b) as (rows & -> & Hrows).
    { intros ->. simpl in Hlen. unfold vcount in Hne, Hlen. lia. }
    exists rows. split; [done|]. unfold vcount in Hlen. lia. }
  destruct (mapM_inr_exists
              (λ cb : Graph * bbox, _layout_component E cb.1 cb.2 name)
              (zip comps bboxes)) as [layouts Hl].
  { eapply Forall_impl; [exact Hzip|]. intros cb (rows & Hr & _). eauto. }
  exists layouts. split; [done|].
  apply mapM_inr in Hl. clear Hall.
  induction Hl as [|cb rows cbs layouts Hr _ IH]; [constructor|].
  inversion Hzip as [|? ? (rows' & Hr' & Hlen) Hrest]; subst.
  constructor; [|by apply IH].
  split; [done|]. rewrite Hr in Hr'. by injection Hr' as <-.
Qed.

Lemma join_length_parallel {A B} (ls1 : list (list A)) (ls2 : list (list B)) :
  Forall2 (λ a b, length a = length b) ls1 ls2 →
  length (mjoin ls1) = length (mjoin ls2).
Proof.
  induction 1 as [|l1 l2 ls1 ls2 Hlen _ IH]; [done|].
  change (mjoin (l1 :: ls1)) with (l1 ++ mjoin ls1).
  change (mjoin (l2 :: ls2)) with (l2 ++ mjoin ls2).
  rewrite !length_app. lia.
Qed.

(** C1: when argsort, decompose and layout do what their libraries document,
    there is at least one component and the chosen arrangement returned one
    box per component, [layout_components] returns an array with exactly one
    row per vertex of the graph, and row [i] is the row that the rescaled
    layout of a component holds for its vertex of original id [i] - whatever
    order the components were processed in. *)
Theorem layout_components_rows (E : Ext) (graph : Graph) (name arrange : string)
    (pad_x pad_y : float) (comps : list Graph) (sizes : list Z)
    (bbox_fun : list Z → float → float → res (list bbox)) (bboxes : list bbox) :
  argsort_spec (argsort E) →
  decompose_ok E graph →
  layout_ok E graph name →
  sorted_components E graph = inr (comps, sizes) →
  comps ≠ [] →
  bbox_funs E arrange = inr bbox_fun →
  bbox_fun sizes pad_x pad_y = inr bboxes →
  length bboxes = length comps →
  ∃ coords,
    layout_components E graph name arrange pad_x pad_y = inr coords ∧
    length coords = vcount graph ∧
    ∀ i, i < vcount graph →
      ∃ p c b rows j,
        comps !! p = Some c ∧ bboxes !! p = Some b ∧
        _layout_component E c b name = inr rows ∧
        vs c !! j = Some (Some i) ∧
        is_Some (rows !! j) ∧ coords !! i = rows !! j.
Proof.
  intros Hargsort [Hpart Hnonempty] Hlayout Hsorted Hcomps Hfun Hboxes Hlen.
  destruct (sorted_components_inv E Hargsort _ _ _ Hsorted) as (Hperm & _ & _).
  set (n := vcount graph) in *. simpl in Hpart.
  (* the ids, in processing order *)
  assert (comps ≫= vs ≡ₚ Some <$> seq 0 n) as Hvss by (by rewrite Hperm).
  destruct (vertex_ids_run _ _ Hvss) as (ids & Hids & Hsome & Hidsperm).
  assert (length ids = n) as Hidslen.
  { by rewrite (Permutation_length Hidsperm), length_seq. }
  destruct (argsort_inverse _ _ _ Hargsort Hidsperm) as [Hsorter Hinv].
  set (sorter := argsort E (Z.of_nat <$> ids)) in *.
  (* the layouts of the components *)
  destruct (component_layouts_run E name comps bboxes) as (layouts & Hlay & Hrows).
  { rewrite Hperm. unfold layout_ok in Hlayout. simpl in Hlayout.
    rewrite Forall_forall in Hnonempty, Hlayout.
    apply Forall_forall. intros c Hc. split; auto. }
  assert (Forall2 (λ a rows, length a = length rows) (vs <$> comps) layouts) as Hpar.
  { assert (comps = (zip comps bboxes).*1) as Hfst.
    { symmetry. apply fst_zip. rewrite Hlen. done. }
    rewrite Hfst at 1.
    rewrite <- list_fmap_compose. apply Forall2_fmap_l.
    eapply Forall2_impl; [exact Hrows|]. by intros cb rows [_ ?]. }
  assert (length (mjoin layouts) = n) as Hstacked.
  { rewrite <- (join_length_parallel _ _ Hpar), <- list_bind_join.
    by rewrite <- Hsome, length_fmap. }
  assert (layouts ≠ []) as Hne.
  { intros ->. destruct comps as [|c cs]; [done|].
    destruct bboxes as [|b bs]; [simpl in Hlen; lia|]. inversion Hrows. }
  destruct (take_idx_exists (mjoin layouts) sorter) as [coords Hcoords].
  { rewrite Hstacked. by apply Permutation_seq_bound. }
  exists coords.
  assert (layout_components E graph name arrange pad_x pad_y = inr coords) as Hrun.
  { unfold layout_components. rewrite Hsorted. cbn [mbind res_bind].
    rewrite Hids. cbn [mbind res_bind]. rewrite Hfun. cbn [mbind res_bind].
    rewrite Hboxes. cbn [mbind res_bind]. rewrite Hlay. cbn [mbind res_bind].
    destruct layouts; [done|]. cbn [np_vstack mbind res_bind mret res_ret].
    exact Hcoords. }
  split; [done|]. apply take_idx_inr in Hcoords.
  split.
  { rewrite <- (Forall2_length _ _ _ Hcoords).
    by rewrite (Permutation_length Hsorter), length_seq. }
  intros i Hi. destruct (Hinv i Hi) as (k & Hk & Hki).
  destruct (Forall2_lookup_l _ _ _ _ _ Hcoords Hk) as (row & Hrow & Hstk).
  assert (mjoin (vs <$> comps) !! k = Some (Some i)) as Hvk.
  { rewrite <- list_bind_join, <- Hsome, list_lookup_fmap, Hki. done. }
  destruct (join_lookup_parallel _ _ _ _ Hpar Hvk)
    as (p & l1 & rows & j & Hp1 & Hp2 & Hj & Hjoin).
  apply list_lookup_fmap_Some in Hp1 as (c & -> & Hc).
  destruct (Forall2_lookup_r _ _ _ _ _ Hrows Hp2) as ([c' b] & Hcb & Hcomp & _).
  apply lookup_zip_Some in Hcb as [Hc' Hb]. simpl in Hcomp.
  assert (c' = c) as -> by congruence.
  exists p, c, b, rows, j. repeat split; try done.
  - rewrite <- Hjoin, Hstk. eauto.
  - by rewrite Hrow, <- Hjoin.
Qed.

Lemma Permutation_by_sort (l k : list nat) :
  merge_sort le l = merge_sort le k → l ≡ₚ k.
Proof.
  intros Heq. rewrite <- (merge_sort_Permutation le l), Heq.
  apply merge_sort_Permutation.
Qed.

Lemma graph6_decompose_ok : decompose_ok E_ref graph6.
Proof.
  unfold decompose_ok. split.
  - vm_compute.
    change ((Some <$> [0; 3; 1; 4; 5; 2]) ≡ₚ (Some <$> [0; 1; 2; 3; 4; 5])).
    apply fmap_Permutation, Permutation_by_sort. vm_compute. reflexivity.
  - vm_compute. repeat constructor; discriminate.
Qed.

Lemma graph6_layout_ok name : layout_ok E_ref graph6 name.
Proof.
  unfold layout_ok. vm_compute.
  repeat constructor; (eexists; split; reflexivity).
Qed.

Lemma layout_components_rows_witness :
  ∃ coords,
    layout_components E_ref graph6 "fr" "size" one one = inr coords ∧
    length coords = vcount graph6 ∧
    ∀ i, i < vcount graph6 →
      ∃ p c b rows j,
        graph6_components !! p = Some c ∧
        _bbox_sorted E_ref [1; 2; 3]%Z one one !! p = Some b ∧
        _layout_component E_ref c b "fr" = inr rows ∧
        vs c !! j = Some (Some i) ∧
        is_Some (rows !! j) ∧ coords !! i = rows !! j.
Proof.
  refine (layout_components_rows E_ref graph6 "fr" "size" one one
            graph6_components [1; 2; 3]%Z
            (λ sizes pad_x pad_y, mret (_bbox_sorted E_ref sizes pad_x pad_y))
            (_bbox_sorted E_ref [1; 2; 3]%Z one one)
            (argsort_by_spec false) graph6_decompose_ok (graph6_layout_ok "fr")
            _ _ _ _ _).
  - vm_compute. reflexivity.
  - discriminate.
  - reflexivity.
  - reflexivity.
  - vm_compute. reflexivity.
Defined.

(** ** A missing packing module *)

(** C9, as stated, fails for the strategy ["rpack"]: the message of the
    error names the package to install, but not the requested arrangement;
    the text ["rpack"] does not occur in it. *)
Lemma rpack_error_omits_strategy :
  layout_components E_bare graph6 "fr" "rpack" one one = inl (ImportError rpack_missing) ∧
  contains "rpack" rpack_missing = false ∧
  contains "arrange_boxes" rpack_missing = false.
Proof. split; [|split]; vm_compute; reflexivity. Qed.

(** C9, amended: when argsort and decompose do what their libraries
    document, a call of [layout_components] with the arrangement ["rpack"]
    or ["squarify"] whose module cannot be imported raises an [ImportError].
    Its message says that the components layout requires the package, names
    the package ([rectangle-packer], [squarify]) and gives the [pip install]
    command for it. The message for ["squarify"] thereby contains the
    requested arrangement, whose name is the name of the package; the
    message for ["rpack"] does not contain the requested arrangement. *)
Theorem missing_module_import_error (E : Ext) (graph : Graph) (name : string)
    (pad_x pad_y : float) :
  argsort_spec (argsort E) →
  decompose_ok E graph →
  (rpack E = None →
   layout_components E graph name "rpack" pad_x pad_y = inl (ImportError rpack_missing)) ∧
  (squarify E = None →
   layout_components E graph name "squarify" pad_x pad_y
     = inl (ImportError squarify_missing)) ∧
  contains "Using the 'components layout' requires the installation" rpack_missing = true ∧
  contains "`rectangle-packer`" rpack_missing = true ∧
  contains "`pip install rectangle-packer`" rpack_missing = true ∧
  contains "Using the 'components layout' requires the installation" squarify_missing = true ∧
  contains "`squarify` package" squarify_missing = true ∧
  contains "`pip install squarify`" squarify_missing = true ∧
  contains "squarify" squarify_missing = true ∧
  contains "rpack" rpack_missing = false.
Proof.
  intros Hargsort [Hpart _].
  destruct (sorted_components_exists E Hargsort graph) as (comps & sizes & Hsorted).
  destruct (sorted_components_inv E Hargsort _ _ _ Hsorted) as (Hperm & _ & _).
  simpl in Hpart.
  assert (comps ≫= vs ≡ₚ Some <$> seq 0 (vcount graph)) as Hvss by (by rewrite Hperm).
  destruct (vertex_ids_run _ _ Hvss) as (ids & Hids & _ & _).
  split; [|split; [|by vm_compute]].
  - intros Hnone. unfold layout_components.
    rewrite Hsorted. cbn [mbind res_bind]. rewrite Hids. cbn [mbind res_bind].
    change (bbox_funs E "rpack") with (@inr exn _ (_bbox_rpack E)).
    cbn [mbind res_bind]. unfold _bbox_rpack. rewrite Hnone. done.
  - intros Hnone. unfold layout_components.
    rewrite Hsorted. cbn [mbind res_bind]. rewrite Hids. cbn [mbind res_bind].
    change (bbox_funs E "squarify") with (@inr exn _ (_bbox_squarify E)).
    cbn [mbind res_bind]. unfold _bbox_squarify. rewrite Hnone. done.
Qed.

Lemma missing_module_import_error_witness :
  (rpack E_bare = None →
   layout_components E_bare graph6 "fr" "rpack" one one
     = inl (ImportError rpack_missing)) ∧
  (squarify E_bare = None →
   layout_components E_bare graph6 "fr" "squarify" one one
     = inl (ImportError squarify_missing)) ∧
  contains "Using the 'components layout' requires the installation" rpack_missing = true ∧
  contains "`rectangle-packer`" rpack_missing = true ∧
  contains "`pip install rectangle-packer`" rpack_missing = true ∧
  contains "Using the 'components layout' requires the installation" squarify_missing = true ∧
  contains "`squarify` package" squarify_missing = true ∧
  contains "`pip install squarify`" squarify_missing = true ∧
  contains "squarify" squarify_missing = true ∧
  contains "rpack" rpack_missing = false.
Proof.
  exact (missing_module_import_error E_bare graph6 "fr" one one
           (argsort_by_spec false) graph6_decompose_ok).
Defined.

(** ** The rectangle packing *)

Lemma Qtrunc_between (q : Q) (k : Z) :
  (0 ≤ k)%Z → (inject_Z k <= q)%Q → (q < inject_Z (k + 1))%Q →
  (Qnum q ÷ Zpos (Qden q))%Z = k.
Proof.
  destruct q as [n d]. unfold Qle, Qlt; simpl. intros Hk Hle Hlt.
  rewrite Z.quot_div_nonneg by lia.
  symmetry. apply (Z.div_unique n (Zpos d) k (n - k * Zpos d)); lia.
Qed.

Lemma to_int_pad (a : float) (k : Z) :
  (0 ≤ k)%Z → between k (k + 1) a → to_int (a + one)%F = inr (k + 1)%Z.
Proof.
  intros Hk. destruct a as [x| |]; [|done..]. intros [Hle Hlt].
  change (to_int (Fin x + one)%F)
    with (@inr exn Z (Qnum (x + 1) ÷ Zpos (Qden (x + 1)))%Z).
  f_equal. apply Qtrunc_between; [lia|..].
  - rewrite inject_Z_plus. change (inject_Z 1) with 1%Q. lra.
  - rewrite !inject_Z_plus. rewrite inject_Z_plus in Hlt.
    change (inject_Z 1) with 1%Q in *. lra.
Qed.

(** C3 fails on the code: for the component sizes [3, 3, 8] with the default
    padding 1.0 the rectangles to pack are 6 x 6, 3 x 3 and 3 x 3. Packed
    as 6 x 6 at (0, 0) with the two 3 x 3 stacked at (6, 0) and (6, 3), they
    do not overlap and their enclosing size is 9 x 6. [_bbox_rpack] then
    multiplies every height by the aspect ratio 9/6 and leaves the origins
    where they are: the boxes of the two components of size 3 come out as
    (6, 3, 2, 3.5) and (6, 0, 2, 3.5), which overlap. *)
Theorem rpack_boxes_overlap (E : Ext) (rp : rpack_module) :
  rpack E = Some rp →
  between 2 3 (fpow E (of_Z 3) (Fin (4 # 5))) →
  between 5 6 (fpow E (of_Z 8) (Fin (4 # 5))) →
  rpack_pack rp [(6, 6); (3, 3); (3, 3)]%Z = inr [(0, 0); (6, 0); (6, 3)]%Z →
  rpack_enclosing_size rp [(6, 6); (3, 3); (3, 3)]%Z [(0, 0); (6, 0); (6, 3)]%Z
    = inr (9, 6)%Z →
  overlap (of_Z 6, of_Z 3, of_Z 3, of_Z 3) (of_Z 6, of_Z 0, of_Z 3, of_Z 3) = false ∧
  _bbox_rpack E [3; 3; 8]%Z one one =
    inr [ (Fin 6, Fin 3, Fin 2, Fin (21 # 6));
          (Fin 6, Fin 0, Fin 2, Fin (21 # 6));
          (Fin 0, Fin 0, Fin 5, Fin (48 # 6)) ] ∧
  overlap (Fin 6, Fin 3, Fin 2, Fin (21 # 6)) (Fin 6, Fin 0, Fin 2, Fin (21 # 6)) = true.
Proof.
  intros Hrp H3 H8 Hpack Hencl.
  split; [by vm_compute|]. split; [|by vm_compute].
  apply (to_int_pad _ 2) in H3; [|lia]. apply (to_int_pad _ 5) in H8; [|lia].
  unfold _bbox_rpack. rewrite Hrp.
  change (reverse ((λ n, _get_bbox_dimensions E n (Fin (4 # 5))) <$> [3; 3; 8]%Z))
    with [ (fpow E (of_Z 8) (Fin (4 # 5)), fpow E (of_Z 8) (Fin (4 # 5)));
           (fpow E (of_Z 3) (Fin (4 # 5)), fpow E (of_Z 3) (Fin (4 # 5)));
           (fpow E (of_Z 3) (Fin (4 # 5)), fpow E (of_Z 3) (Fin (4 # 5))) ].
  cbn [mapM mbind res_bind mret res_ret fst snd].
  rewrite H3, H8. cbn [mbind res_bind mret res_ret].
  change (5 + 1)%Z with 6%Z. change (2 + 1)%Z with 3%Z.
  rewrite Hpack. cbn [mbind res_bind]. rewrite Hencl. cbn [mbind res_bind].
  vm_compute. reflexivity.
Qed.

Lemma rpack_boxes_overlap_witness :
  overlap (of_Z 6, of_Z 3, of_Z 3, of_Z 3) (of_Z 6, of_Z 0, of_Z 3, of_Z 3) = false ∧
  _bbox_rpack E_ref [3; 3; 8]%Z one one =
    inr [ (Fin 6, Fin 3, Fin 2, Fin (21 # 6));
          (Fin 6, Fin 0, Fin 2, Fin (21 # 6));
          (Fin 0, Fin 0, Fin 5, Fin (48 # 6)) ] ∧
  overlap (Fin 6, Fin 3, Fin 2, Fin (21 # 6)) (Fin 6, Fin 0, Fin 2, Fin (21 # 6)) = true.
Proof.
  refine (rpack_boxes_overlap E_ref rpack_ref eq_refl _ _ _ _).
  - vm_compute. split; [discriminate|reflexivity].
  - vm_compute. split; [discriminate|reflexivity].
  - vm_compute. reflexivity.
  - vm_compute. reflexivity.
Defined.

(** * Further properties of the code *)

Local Open Scope nat_scope.

(** ** The connectivity values *)

Lemma d2c_cell (h : heap) r m mv (i : nat) row (j : nat) v :
  h !! r = Some (Csr m) →
  csr_rows m !! i = Some row →
  (j, v) ∈ row →
  feqb (connectivity_formula mv v) zero = false →
  ∃ connectivities m' row',
    _distance_to_connectivity r (Some mv) h
      = (inr connectivities, <[connectivities := Csr m']> h) ∧
    csr_rows m' !! i = Some row' ∧
    (j, connectivity_formula mv v) ∈ row'.
Proof.
  intros Hr Hrow Hc Hnz.
  exists (fresh (dom h)),
    (csr_eliminate_zeros
       (mk_csr (csr_shape m) (indptr m) (indices m) (connectivity_formula mv <$> data m))),
    (filter (λ c : cell, feqb c.2 zero = false)
       (prod_map id (connectivity_formula mv) <$> row)).
  split; [by apply d2c_run_csr|]. split.
  - unfold csr_eliminate_zeros. rewrite csr_rows_of_rows.
    rewrite (csr_rows_set_data (connectivity_formula mv) m), <- list_fmap_compose.
    apply list_lookup_fmap_Some. exists row. split; [done|exact Hrow].
  - apply list_elem_of_filter. split; [done|].
    apply list_elem_of_fmap. by exists (j, v).
Qed.

Lemma Qeq_bool_false (a b : Q) : ¬ (a == b)%Q → Qeq_bool a b = false.
Proof.
  intros Hne. destruct (Qeq_bool a b) eqn:Heq; [|done].
  by apply Qeq_bool_eq in Heq.
Qed.

(** The conversion reverses the order of the stored values: for a positive
    finite [max_value], two stored cells whose codes are [v1 <= v2], neither
    of them [max_value + 1], are both stored in the result at their
    positions, and the connectivity of the second is not above the one of
    the first. *)
Theorem connectivity_decreasing (h : heap) distances m (mx v1 v2 : Q)
    (i1 i2 j1 j2 : nat) row1 row2 :
  h !! distances = Some (Csr m) →
  (0 < mx)%Q → (v1 <= v2)%Q →
  ¬ (v1 == mx + 1)%Q → ¬ (v2 == mx + 1)%Q →
  csr_rows m !! i1 = Some row1 → (j1, Fin v1) ∈ row1 →
  csr_rows m !! i2 = Some row2 → (j2, Fin v2) ∈ row2 →
  ∃ connectivities m' row1' row2' c1 c2,
    _distance_to_connectivity distances (Some (Fin mx)) h
      = (inr connectivities, <[connectivities := Csr m']> h) ∧
    csr_rows m' !! i1 = Some row1' ∧ (j1, Fin c1) ∈ row1' ∧
    csr_rows m' !! i2 = Some row2' ∧ (j2, Fin c2) ∈ row2' ∧
    (c2 <= c1)%Q.
Proof.
  intros Hr Hmx Hle Hv1 Hv2 Hrow1 Hc1 Hrow2 Hc2.
  assert (∀ v, ¬ (v == mx + 1)%Q →
            feqb (connectivity_formula (Fin mx) (Fin v)) zero = false) as Hnz.
  { intros v Hv. rewrite connectivity_formula_fin by done.
    apply Qeq_bool_false. intros Heq. apply Hv.
    assert ((mx + - (v + - 1)) / mx * mx == 0 * mx)%Q as Heq' by (by rewrite Heq).
    rewrite Qmult_comm, Qmult_div_r in Heq' by lra. lra. }
  destruct (d2c_cell h distances m (Fin mx) i1 row1 j1 (Fin v1) Hr Hrow1 Hc1 (Hnz _ Hv1))
    as (conn & m' & row1' & Hrun & Hrow1' & Hc1').
  destruct (d2c_cell h distances m (Fin mx) i2 row2 j2 (Fin v2) Hr Hrow2 Hc2 (Hnz _ Hv2))
    as (conn2 & m2 & row2' & Hrun2 & Hrow2' & Hc2').
  rewrite Hrun in Hrun2. injection Hrun2 as Hconn Hheap.
  assert (m2 = m') as ->.
  { subst conn2.
    assert (<[conn := Csr m2]> h !! conn = <[conn := Csr m']> h !! conn) as Hl
      by (by rewrite Hheap).
    rewrite !lookup_insert_eq in Hl. by injection Hl. }
  rewrite connectivity_formula_fin in Hc1', Hc2' by done.
  exists conn, m', row1', row2'. eexists _, _.
  split; [done|]. split; [done|]. split; [exact Hc1'|].
  split; [done|]. split; [exact Hc2'|].
  unfold Qdiv. apply Qmult_le_compat_r; [lra|].
  apply Qinv_le_0_compat. lra.
Qed.

Lemma connectivity_decreasing_witness :
  ∃ connectivities m' row1' row2' c1 c2,
    _distance_to_connectivity 1%positive (Some (Fin 3)) csr_store
      = (inr connectivities, <[connectivities := Csr m']> csr_store) ∧
    csr_rows m' !! 0 = Some row1' ∧ (1, Fin c1) ∈ row1' ∧
    csr_rows m' !! 2 = Some row2' ∧ (3, Fin c2) ∈ row2' ∧
    (c2 <= c1)%Q.
Proof.
  refine (connectivity_decreasing csr_store 1%positive dist_csr 3 1 3 0 2 1 3
            [(1, Fin 1); (3, Fin 5)] [(1, Fin 2); (3, Fin 3)]
            eq_refl _ _ _ _ eq_refl _ eq_refl _).
  - reflexivity.
  - discriminate.
  - intros Heq. vm_compute in Heq. discriminate.
  - intros Heq. vm_compute in Heq. discriminate.
  - repeat constructor.
  - repeat constructor.
Defined.

(** A stored code 1 (a true distance of 0) becomes a stored connectivity
    equal to 1, for every finite [max_value] other than 0. *)
Theorem connectivity_of_code_one (h : heap) distances m (mx : Q) (i j : nat) row :
  h !! distances = Some (Csr m) →
  ¬ (mx == 0)%Q →
  csr_rows m !! i = Some row → (j, Fin 1) ∈ row →
  ∃ connectivities m' row' c,
    _distance_to_connectivity distances (Some (Fin mx)) h
      = (inr connectivities, <[connectivities := Csr m']> h) ∧
    csr_rows m' !! i = Some row' ∧ (j, Fin c) ∈ row' ∧ (c == 1)%Q.
Proof.
  intros Hr Hmx Hrow Hc.
  assert (connectivity_formula (Fin mx) (Fin 1) = Fin ((mx + - (1 + - 1)) / mx)) as Hf.
  { unfold connectivity_formula, fdiv, fsub, fadd, fopp, one.
    by rewrite Qeq_bool_false. }
  assert ((mx + - (1 + - 1)) / mx == 1)%Q as Hone by (by field).
  destruct (d2c_cell h distances m (Fin mx) i row j (Fin 1) Hr Hrow Hc)
    as (conn & m' & row' & Hrun & Hrow' & Hc').
  { rewrite Hf. apply Qeq_bool_false. rewrite Hone. discriminate. }
  rewrite Hf in Hc'. by exists conn, m', row', ((mx + - (1 + - 1)) / mx)%Q.
Qed.

Lemma connectivity_of_code_one_witness :
  ∃ connectivities m' row' c,
    _distance_to_connectivity 1%positive (Some (Fin 3)) csr_store
      = (inr connectivities, <[connectivities := Csr m']> csr_store) ∧
    csr_rows m' !! 0 = Some row' ∧ (1, Fin c) ∈ row' ∧ (c == 1)%Q.
Proof.
  refine (connectivity_of_code_one csr_store 1%positive dist_csr 3 0 1
            [(1, Fin 1); (3, Fin 5)] eq_refl _ eq_refl _).
  - discriminate.
  - repeat constructor.
Defined.

(** A zero that is stored explicitly is not treated as "no edge": for a
    positive finite [max_value] the cell stays stored, with a connectivity
    above 1. *)
Theorem stored_zero_is_kept (h : heap) distances m (mx : Q) (i j : nat) row :
  h !! distances = Some (Csr m) →
  (0 < mx)%Q →
  csr_rows m !! i = Some row → (j, Fin 0) ∈ row →
  ∃ connectivities m' row' c,
    _distance_to_connectivity distances (Some (Fin mx)) h
      = (inr connectivities, <[connectivities := Csr m']> h) ∧
    csr_rows m' !! i = Some row' ∧ (j, Fin c) ∈ row' ∧ (1 < c)%Q.
Proof.
  intros Hr Hmx Hrow Hc.
  assert (1 < (mx + - (0 + - 1)) / mx)%Q as Hlt.
  { apply Qlt_shift_div_l; [done|]. lra. }
  destruct (d2c_cell h distances m (Fin mx) i row j (Fin 0) Hr Hrow Hc)
    as (conn & m' & row' & Hrun & Hrow' & Hc').
  { rewrite connectivity_formula_fin by done. apply Qeq_bool_false. lra. }
  rewrite connectivity_formula_fin in Hc' by done.
  by exists conn, m', row', ((mx + - (0 + - 1)) / mx)%Q.
Qed.

Lemma stored_zero_is_kept_witness :
  ∃ connectivities m' row' c,
    _distance_to_connectivity 1%positive (Some (Fin 2))
      {[ 1%positive := Csr (mk_csr (3, 3) [0; 0; 1; 1] [2] [Fin 0]) ]}
      = (inr connectivities,
         <[connectivities := Csr m']>
           {[ 1%positive := Csr (mk_csr (3, 3) [0; 0; 1; 1] [2] [Fin 0]) ]}) ∧
    csr_rows m' !! 1 = Some row' ∧ (2, Fin c) ∈ row' ∧ (1 < c)%Q.
Proof.
  refine (stored_zero_is_kept
            {[ 1%positive := Csr (mk_csr (3, 3) [0; 0; 1; 1] [2] [Fin 0]) ]}
            1%positive (mk_csr (3, 3) [0; 0; 1; 1] [2] [Fin 0]) 2 1 2
            [(2, Fin 0)] eq_refl _ eq_refl _).
  - reflexivity.
  - repeat constructor.
Defined.

(** ** Rebuilding a well-formed CSR matrix from its rows *)

Lemma slice_length {A} (l : list A) (a b : nat) :
  a ≤ b → b ≤ length l → length (slice l a b) = b - a.
Proof. intros. unfold slice. rewrite length_take, length_drop. lia. Qed.

Lemma slice_app_adjacent {A} (l : list A) (a b c : nat) :
  a ≤ b → b ≤ c → slice l a b ++ slice l b c = slice l a c.
Proof.
  intros Hab Hbc. unfold slice.
  replace (drop b l) with (drop (b - a) (drop a l))
    by (rewrite drop_drop; f_equal; lia).
  rewrite take_take_drop. f_equal. lia.
Qed.

Lemma Sorted_le_last (l : list nat) (e : nat) :
  Sorted le l → last l = Some e → Forall (λ x, x ≤ e) l.
Proof.
  intros Hs. apply (Sorted_StronglySorted le) in Hs.
  induction Hs as [|x l Hs IH Hall]; intros Hlast; [constructor|].
  destruct l as [|y l].
  - injection Hlast as ->. by repeat constructor.
  - specialize (IH Hlast). constructor; [|done].
    rewrite Forall_forall in Hall, IH.
    etrans; [apply (Hall y); constructor|apply IH; constructor].
Qed.

Lemma rows_from_join {A} (cells : list A) (start : nat) ends (e : nat) :
  Sorted le (start :: ends) → last (start :: ends) = Some e →
  mjoin (rows_from start ends cells) = slice cells start e.
Proof.
  revert start. induction ends as [|e1 ends IH]; intros start Hs Hlast.
  - injection Hlast as ->. unfold slice. by rewrite Nat.sub_diag.
  - change (mjoin (rows_from start (e1 :: ends) cells))
      with (slice cells start e1 ++ mjoin (rows_from e1 ends cells)).
    assert (Sorted le (e1 :: ends)) as Hs' by (by inversion Hs).
    assert (last (e1 :: ends) = Some e) as Hlast' by done.
    rewrite (IH e1 Hs' Hlast').
    apply slice_app_adjacent.
    + inversion Hs as [|? ? _ Hhd]; subst. by inversion Hhd.
    + pose proof (Sorted_le_last _ _ Hs' Hlast') as Hall.
      by inversion Hall.
Qed.

Lemma rows_from_lengths {A} (cells : list A) (start : nat) (ends : list nat) :
  Sorted le (start :: ends) → Forall (λ e, e ≤ length cells) ends →
  indptr_from start (length <$> rows_from start ends cells) = start :: ends.
Proof.
  revert start. induction ends as [|e1 ends IH]; intros start Hs Hall; [done|].
  inversion Hs as [|? ? Hs' Hhd]; subst. inversion Hhd; subst.
  inversion Hall as [|? ? He1 Hall']; subst.
  cbn [rows_from fmap list_fmap indptr_from].
  rewrite slice_length by done.
  replace (start + (e1 - start)) with e1 by lia.
  by rewrite IH.
Qed.

(** The rows of a well-formed matrix determine its arrays. *)
Lemma csr_of_rows_rows m : csr_wf m → csr_of_rows (csr_shape m) (csr_rows m) = m.
Proof.
  destruct m as [shape ip ix d]. unfold csr_wf, csr_rows, csr_of_rows; simpl.
  intros (Hlen & Hhd & Hs & Hlast & Hix & _).
  destruct ip as [|p0 ends]; [done|]. injection Hhd as ->.
  assert (length (zip ix d) = length d) as Hcells.
  { rewrite length_zip_with. lia. }
  assert (mjoin (rows_from 0 ends (zip ix d)) = zip ix d) as Hjoin.
  { rewrite (rows_from_join _ _ _ _ Hs Hlast). unfold slice.
    rewrite drop_0, Nat.sub_0_r. apply take_ge. lia. }
  rewrite Hjoin, fst_zip, snd_zip by lia.
  rewrite rows_from_lengths; [done..|].
  pose proof (Sorted_le_last _ _ Hs Hlast) as Hall.
  inversion Hall as [|? ? _ Hends]; subst.
  eapply Forall_impl; [exact Hends|]. intros e He. cbv beta in He |- *.
  etrans; [exact He|]. rewrite <- Hcells. done.
Qed.

Lemma filter_all {A} (P : A → Prop) `{∀ x, Decision (P x)} (l : list A) :
  Forall P l → filter P l = l.
Proof.
  induction 1 as [|x l Hx _ IH]; [done|].
  rewrite filter_cons_True by done. by rewrite IH.
Qed.

(** [eliminate_zeros] leaves a well-formed matrix without stored zeros as it
    is. *)
Lemma csr_eliminate_zeros_id m :
  csr_wf m → Forall (λ v, feqb v zero = false) (data m) →
  csr_eliminate_zeros m = m.
Proof.
  intros Hwf Hnz. unfold csr_eliminate_zeros.
  rewrite <- (csr_of_rows_rows m Hwf) at 3. f_equal.
  rewrite <- (list_fmap_id (csr_rows m)) at 2.
  apply Forall_fmap_ext_1.
  eapply Forall_impl; [apply csr_rows_data|].
  intros row Hrow. simpl. apply filter_all.
  eapply Forall_impl; [exact Hrow|]. intros c Hc.
  rewrite Forall_forall in Hnz. by apply Hnz.
Qed.

(** The default [max_value] of a matrix of distance codes in canonical
    format makes no connectivity zero, and [max] leaves the matrix as it
    is. *)
Lemma csr_max_default m :
  csr_wf m → Forall distance_code (data m) →
  has_canonical_format m = true →
  (csr_shape m).1 ≠ 0 → (csr_shape m).2 ≠ 0 →
  ∃ mx, csr_max m = (inr mx, m) ∧
        Forall (λ v, feqb (connectivity_formula mx v) zero = false) (data m).
Proof.
  intros (_ & _ & _ & Hlast & _ & _) Hcodes Hcanon Hr Hc. unfold csr_max, csr_nnz.
  rewrite Hlast. simpl.
  destruct (decide ((csr_shape m).1 = 0 ∨ (csr_shape m).2 = 0)); [tauto|].
  destruct (decide (length (data m) = 0)) as [Hz|Hz].
  { exists zero. split; [done|]. apply length_zero_iff_nil in Hz. rewrite Hz.
    constructor. }
  rewrite (csr_sum_duplicates_canonical m Hcanon).
  destruct (data m) as [|v ws] eqn:Hd; [done|].
  inversion Hcodes as [|? ? Hv Hvs]; subst.
  destruct (foldl_maximum_codes v ws Hv Hvs) as (mx & Hfold & Hone & Hbound).
  exists (Fin mx). split.
  - cbv beta iota zeta. rewrite Hfold.
    assert (Qle_bool 0 mx = true) as -> by (apply Qle_bool_iff; lra).
    by destruct (decide _).
  - eapply Forall_impl; [exact Hbound|]. intros u (q & -> & Hq).
    rewrite connectivity_formula_fin by lra. simpl.
    destruct (Qeq_bool _ _) eqn:Heq; [|done].
    apply Qeq_bool_eq in Heq.
    assert (mx + - (q + - 1) == 0)%Q as Hnum.
    { rewrite <- (Qmult_div_r (mx + - (q + - 1)) mx) by lra.
      unfold zero in Heq. rewrite Heq. ring. }
    lra.
Qed.



(** Whatever the matrix and [max_value], the returned matrix stores no
    value equal to 0. *)
Theorem result_stores_no_zero (h : heap) distances m max_value connectivities h' :
  h !! distances = Some (Csr m) →
  _distance_to_connectivity distances max_value h = (inr connectivities, h') →
  ∃ m', h' !! connectivities = Some (Csr m') ∧
        Forall (λ v, feqb v zero = false) (data m').
Proof.
  intros Hr Hrun.
  assert (∃ h1 m1 mv, h1 !! distances = Some (Csr m1) ∧
                      _distance_to_connectivity distances (Some mv) h1
                      = (inr connectivities, h')) as (h1 & m1 & mv & Hr1 & Hmv).
  { destruct max_value as [mv|]; [by exists h, m, mv|].
    rewrite (d2c_run_default _ _ _ Hr) in Hrun.
    destruct (csr_max m).1 as [e|mv]; [by injection Hrun|].
    eexists _, _, mv. split; [apply lookup_insert_eq|done]. }
  rewrite (d2c_run_csr _ _ _ _ Hr1) in Hmv. injection Hmv as <- <-.
  eexists. split; [apply lookup_insert_eq|].
  apply Forall_forall. intros v Hv. by apply csr_eliminate_zeros_data in Hv as [_ ?].
Qed.

Lemma result_stores_no_zero_witness :
  ∃ m', <[2%positive :=
           Csr (csr_eliminate_zeros
                  (mk_csr (csr_shape dist_csr) (indptr dist_csr) (indices dist_csr)
                     (connectivity_formula (Fin 3) <$> data dist_csr)))]> csr_store
          !! 2%positive = Some (Csr m') ∧
        Forall (λ v, feqb v zero = false) (data m').
Proof.
  refine (result_stores_no_zero csr_store 1%positive dist_csr (Some (Fin 3))
            2%positive _ eq_refl _).
  vm_compute. reflexivity.
Defined.

(** ** The graph of an adjacency matrix *)

Lemma run_get_igraph_eq (h : heap) r m :
  h !! r = Some (Csr m) →
  _get_igraph_from_adjacency r h =
  (inr {| vs := replicate (csr_shape m).1 None;
          es := zip (csr_nonzero m).1 (csr_nonzero m).2;
          es_weight := (λ p : nat * nat, csr_get m p.1 p.2)
                         <$> zip (csr_nonzero m).1 (csr_nonzero m).2 |}, h).
Proof.
  intros Hr. unfold _get_igraph_from_adjacency.
  rewrite run_bind, (run_as_csr _ _ _ Hr). cbv beta iota.
  by destruct (csr_nonzero m) as [sources targets].
Qed.

Lemma csr_nonzero_zip m :
  zip (csr_nonzero m).1 (csr_nonzero m).2 =
  mjoin (imap (λ i row,
           (λ c : cell, (i, c.1)) <$> filter (λ c : cell, feqb c.2 zero = false) row)
           (csr_rows m)).
Proof. unfold csr_nonzero. cbn [fst snd]. apply zip_fst_snd. Qed.

Lemma elem_of_join_imap {A B} (f : nat → A → list B) (l : list A) (y : B) :
  y ∈ mjoin (imap f l) ↔ ∃ i x, l !! i = Some x ∧ y ∈ f i x.
Proof.
  rewrite list_elem_of_join. split.
  - intros (k & Hy & Hk). apply elem_of_lookup_imap in Hk as (i & x & -> & Hx). eauto.
  - intros (i & x & Hx & Hy). exists (f i x). split; [done|].
    by apply elem_of_lookup_imap_2.
Qed.

Lemma length_rows_from {A} (cells : list A) (start : nat) ends :
  length (rows_from start ends cells) = length ends.
Proof.
  revert start. induction ends as [|e ends IH]; intros start; simpl; [done|].
  by rewrite IH.
Qed.

Lemma length_csr_rows m : csr_wf m → length (csr_rows m) = (csr_shape m).1.
Proof.
  intros (Hlen & _). unfold csr_rows. destruct (indptr m) as [|p0 ends]; [done|].
  rewrite length_rows_from. simpl in Hlen. lia.
Qed.

Lemma csr_rows_indices m :
  Forall (Forall (λ c : cell, c.1 ∈ indices m)) (csr_rows m).
Proof.
  unfold csr_rows. destruct (indptr m) as [|p0 ends]; [constructor|].
  eapply Forall_impl; [apply rows_from_subseteq|].
  intros row Hrow. apply Forall_forall. intros [j v] Hc.
  apply Hrow in Hc. by apply elem_of_zip_l in Hc.
Qed.

(** The edges of the graph are exactly the coordinates of the stored cells
    of the matrix that are not zero. *)
Theorem adjacency_graph_edges (h : heap) adj m g (i j : nat) :
  h !! adj = Some (Csr m) →
  _get_igraph_from_adjacency adj h = (inr g, h) →
  (i, j) ∈ es g ↔
  ∃ row v, csr_rows m !! i = Some row ∧ (j, v) ∈ row ∧ feqb v zero = false.
Proof.
  intros Hr Hrun. rewrite (run_get_igraph_eq _ _ _ Hr) in Hrun.
  injection Hrun as <-. cbn [es]. rewrite zip_fst_snd, elem_of_join_imap.
  split.
  - intros (i' & row & Hrow & Hin).
    apply list_elem_of_fmap in Hin as ([j' v] & [= -> ->] & Hc).
    apply list_elem_of_filter in Hc as [Hnz Hc]. eauto.
  - intros (row & v & Hrow & Hc & Hnz). exists i, row. split; [done|].
    apply list_elem_of_fmap. exists (j, v). split; [done|].
    by apply list_elem_of_filter.
Qed.

Lemma adjacency_graph_edges_witness :
  (0, 3) ∈ es {| vs := replicate 4 None;
                 es := zip (csr_nonzero dist_csr).1 (csr_nonzero dist_csr).2;
                 es_weight := (λ p : nat * nat, csr_get dist_csr p.1 p.2)
                                <$> zip (csr_nonzero dist_csr).1
                                        (csr_nonzero dist_csr).2 |} ↔
  ∃ row v, csr_rows dist_csr !! 0 = Some row ∧ (3, v) ∈ row ∧ feqb v zero = false.
Proof.
  refine (adjacency_graph_edges csr_store 1%positive dist_csr _ 0 3 eq_refl _).
  apply (run_get_igraph_eq csr_store 1%positive dist_csr eq_refl).
Defined.

(** The graph of a well-formed matrix is well formed: it has one vertex per
    matrix row, one weight per edge, and the end points of every edge are
    row and column numbers of the matrix. *)
Theorem adjacency_graph_well_formed (h : heap) adj m :
  h !! adj = Some (Csr m) →
  csr_wf m →
  ∃ g, _get_igraph_from_adjacency adj h = (inr g, h) ∧
       vcount g = (csr_shape m).1 ∧
       Forall (λ v, v = None) (vs g) ∧
       length (es_weight g) = length (es g) ∧
       Forall (λ e : nat * nat, e.1 < (csr_shape m).1 ∧ e.2 < (csr_shape m).2) (es g).
Proof.
  intros Hr Hwf. eexists. split; [by apply run_get_igraph_eq|].
  cbn [vcount vs es es_weight].
  split; [apply length_replicate|].
  split; [apply Forall_replicate; done|].
  split; [apply length_fmap|].
  rewrite csr_nonzero_zip. apply Forall_forall. intros [i j] Hin.
  apply elem_of_join_imap in Hin as (i' & row & Hrow & Hin).
  apply list_elem_of_fmap in Hin as ([j' v] & [= -> ->] & Hc).
  apply list_elem_of_filter in Hc as [_ Hc]. cbn [fst snd]. split.
  - rewrite <- (length_csr_rows m Hwf). by eapply lookup_lt_Some.
  - pose proof (csr_rows_indices m) as Hall.
    rewrite Forall_lookup in Hall. specialize (Hall _ _ Hrow).
    rewrite Forall_forall in Hall. specialize (Hall _ Hc). cbn [fst] in Hall.
    destruct Hwf as (_ & _ & _ & _ & _ & Hcols).
    rewrite Forall_forall in Hcols. by apply Hcols.
Qed.

Lemma adjacency_graph_well_formed_witness :
  ∃ g, _get_igraph_from_adjacency 1%positive csr_store = (inr g, csr_store) ∧
       vcount g = (csr_shape dist_csr).1 ∧
       Forall (λ v, v = None) (vs g) ∧
       length (es_weight g) = length (es g) ∧
       Forall (λ e : nat * nat, e.1 < (csr_shape dist_csr).1 ∧
                                e.2 < (csr_shape dist_csr).2) (es g).
Proof.
  exact (adjacency_graph_well_formed csr_store 1%positive dist_csr eq_refl dist_csr_wf).
Defined.

(** A matrix all of whose stored values are zero (or that stores nothing)
    gives the graph with one isolated vertex per row: no edges and no
    weights (the case of issue 236 in the source). *)
Theorem zero_matrix_graph (h : heap) adj m :
  h !! adj = Some (Csr m) →
  Forall (λ v, feqb v zero = true) (data m) →
  _get_igraph_from_adjacency adj h =
    (inr {| vs := replicate (csr_shape m).1 None; es := []; es_weight := [] |}, h).
Proof.
  intros Hr Hzero. rewrite (run_get_igraph_eq _ _ _ Hr), csr_nonzero_zip.
  assert (mjoin (imap (λ i row,
            (λ c : cell, (i, c.1)) <$> filter (λ c : cell, feqb c.2 zero = false) row)
            (csr_rows m)) = []) as ->; [|done].
  apply join_nil_2, Forall_forall. intros k Hk.
  apply elem_of_lookup_imap in Hk as (i & row & -> & Hrow).
  assert (filter (λ c : cell, feqb c.2 zero = false) row = []) as ->; [|done].
  pose proof (csr_rows_data m) as Hall.
  rewrite Forall_lookup in Hall. specialize (Hall _ _ Hrow). clear Hrow.
  induction Hall as [|c row' Hc _ IH]; [done|].
  rewrite Forall_forall in Hzero. specialize (Hzero _ Hc).
  rewrite filter_cons_False; [done|]. by rewrite Hzero.
Qed.

Lemma zero_matrix_graph_witness :
  _get_igraph_from_adjacency 1%positive
    {[ 1%positive := Csr (mk_csr (3, 3) [0; 0; 1; 1] [2] [Fin 0]) ]} =
    (inr {| vs := replicate 3 None; es := []; es_weight := [] |},
     {[ 1%positive := Csr (mk_csr (3, 3) [0; 0; 1; 1] [2] [Fin 0]) ]}).
Proof.
  refine (zero_matrix_graph {[ 1%positive := Csr (mk_csr (3, 3) [0; 0; 1; 1] [2] [Fin 0]) ]}
            1%positive (mk_csr (3, 3) [0; 0; 1; 1] [2] [Fin 0]) eq_refl _).
  repeat constructor.
Defined.

(** ** The entry point *)



Lemma run_tocsr (h : heap) r v :
  h !! r = Some v →
  tocsr r h =
  match v with
  | Csr _ => (inr r, h)
  | Coo c => (inr (fresh (dom h)), <[fresh (dom h) := Csr (coo_tocsr c)]> h)
  end.
Proof.
  intros Hr. unfold tocsr. rewrite run_bind, (run_deref _ _ _ Hr).
  by destruct v.
Qed.



(** Every [matrix_type] other than ["distance"] is treated as a connectivity
    matrix, recognised or not: a CSR matrix is used as it is, [max_value] is
    ignored, and nothing is created in the store. *)
Theorem other_matrix_type_is_not_converted (h : heap) matrix m matrix_type max_value :
  h !! matrix = Some (Csr m) →
  matrix_type ≠ "distance" →
  igraph_from_sparse_matrix matrix matrix_type max_value h =
    (inr {| vs := replicate (csr_shape m).1 None;
            es := zip (csr_nonzero m).1 (csr_nonzero m).2;
            es_weight := (λ p : nat * nat, csr_get m p.1 p.2)
                           <$> zip (csr_nonzero m).1 (csr_nonzero m).2 |}, h).
Proof.
  intros Hm Hne. unfold igraph_from_sparse_matrix.
  rewrite run_bind, (run_tocsr _ _ _ Hm). cbv beta iota.
  rewrite run_bind. destruct (decide _); [done|].
  change (mret (M:=M) matrix h) with (@inr exn loc matrix, h). cbv beta iota.
  by apply run_get_igraph_eq.
Qed.

Lemma other_matrix_type_is_not_converted_witness :
  igraph_from_sparse_matrix 1%positive "adjacency" (Some (Fin 3)) csr_store =
    (inr {| vs := replicate (csr_shape dist_csr).1 None;
            es := zip (csr_nonzero dist_csr).1 (csr_nonzero dist_csr).2;
            es_weight := (λ p : nat * nat, csr_get dist_csr p.1 p.2)
                           <$> zip (csr_nonzero dist_csr).1 (csr_nonzero dist_csr).2 |},
     csr_store).
Proof.
  refine (other_matrix_type_is_not_converted csr_store 1%positive dist_csr
            "adjacency" (Some (Fin 3)) eq_refl _).
  discriminate.
Defined.

(** Whenever [igraph_from_sparse_matrix] returns a graph for a CSR matrix,
    the graph has one vertex per matrix row, in both matrix types: dropping
    cells never drops vertices. *)
Theorem entry_point_vertex_count (h : heap) matrix m matrix_type max_value g h' :
  h !! matrix = Some (Csr m) →
  igraph_from_sparse_matrix matrix matrix_type max_value h = (inr g, h') →
  vcount g = (csr_shape m).1.
Proof.
  intros Hm. unfold igraph_from_sparse_matrix.
  rewrite run_bind, (run_tocsr _ _ _ Hm). cbv beta iota.
  rewrite run_bind. destruct (decide _).
  - assert (∀ h0 m0 mv res, h0 !! matrix = Some (Csr m0) →
              (let (r, h1) := _distance_to_connectivity matrix (Some mv) h0 in
               match r with
               | inl e => (inl e, h1)
               | inr x => _get_igraph_from_adjacency x h1
               end) = (inr g, res) → vcount g = (csr_shape m0).1) as Hsome.
    { intros h0 m0 mv res Hm0. rewrite (d2c_run_csr _ _ _ _ Hm0).
      edestruct run_get_igraph as (g' & Hg & Hv); [apply lookup_insert_eq|].
      rewrite Hg. intros [= <- _]. exact Hv. }
    destruct max_value as [mv|]; [by apply Hsome|].
    rewrite (d2c_run_default _ _ _ Hm).
    destruct (csr_max m).1 as [err|mv]; [done|].
    intros Hrun. rewrite <- (csr_max_shape m).
    eapply Hsome; [apply lookup_insert_eq|exact Hrun].
  - change (mret (M:=M) matrix h) with (@inr exn loc matrix, h). cbv beta iota.
    destruct (run_get_igraph _ _ _ Hm) as (g' & Hg & Hv).
    rewrite Hg. by intros [= <- _].
Qed.

Lemma entry_point_vertex_count_witness :
  vcount {| vs := [None; None; None; None];
            es := [(0, 1); (0, 3); (1, 0); (1, 2); (2, 1); (2, 3); (3, 0); (3, 2)];
            es_weight := [Fin (3 # 3); Fin (-1 # 3); Fin (3 # 3); Fin (2 # 3);
                          Fin (2 # 3); Fin (1 # 3); Fin (-1 # 3); Fin (1 # 3)] |}
  = (csr_shape dist_csr).1.
Proof.
  refine (entry_point_vertex_count csr_store 1%positive dist_csr "distance"
            (Some (Fin 3)) _ _ eq_refl _).
  vm_compute. reflexivity.
Defined.

(** ** The rescaled layout lies in its bounding box *)

Lemma foldl_minimum_fin (v : float) (ws : list float) :
  is_fin v → Forall is_fin ws →
  ∃ mn, foldl minimum v ws = Fin mn ∧
        Forall (λ u, ∃ q, u = Fin q ∧ (mn <= q)%Q) (v :: ws).
Proof.
  revert v. induction ws as [|w ws IH]; intros v Hv Hall.
  - destruct v as [q| |]; try done. exists q. split; [done|].
    constructor; [|constructor]. exists q. split; [done|lra].
  - inversion Hall as [|? ? Hw Hws]; subst.
    destruct v as [q| |], w as [p| |]; try done.
    cbn [foldl]. unfold minimum at 2. unfold fleb.
    destruct (Qle_bool q p) eqn:Hqp.
    + destruct (IH (Fin q) I Hws) as (mn & Hfold & Hbound).
      exists mn. split; [done|]. apply Qle_bool_iff in Hqp.
      inversion Hbound as [|? ? (k & Hk' & Hk) Hrest]; subst.
      injection Hk' as <-.
      constructor; [exists q; split; [done|lra]|].
      constructor; [exists p; split; [done|lra]|done].
    + destruct (IH (Fin p) I Hws) as (mn & Hfold & Hbound).
      exists mn. split; [done|].
      assert (p <= q)%Q.
      { destruct (Qlt_le_dec q p) as [Hlt|Hge]; [|done].
        apply Qlt_le_weak, Qle_bool_iff in Hlt. congruence. }
      inversion Hbound as [|? ? (k & Hk' & Hk) Hrest]; subst.
      injection Hk' as <-.
      constructor; [exists q; split; [done|lra]|].
      constructor; [exists p; split; [done|lra]|done].
Qed.

Lemma foldl_maximum_fin (v : float) (ws : list float) :
  is_fin v → Forall is_fin ws →
  ∃ mx, foldl maximum v ws = Fin mx ∧
        Forall (λ u, ∃ q, u = Fin q ∧ (q <= mx)%Q) (v :: ws).
Proof.
  revert v. induction ws as [|w ws IH]; intros v Hv Hall.
  - destruct v as [q| |]; try done. exists q. split; [done|].
    constructor; [|constructor]. exists q. split; [done|lra].
  - inversion Hall as [|? ? Hw Hws]; subst.
    destruct v as [q| |], w as [p| |]; try done.
    cbn [foldl]. unfold maximum at 2. unfold fleb.
    destruct (Qle_bool q p) eqn:Hqp.
    + destruct (IH (Fin p) I Hws) as (mx & Hfold & Hbound).
      exists mx. split; [done|]. apply Qle_bool_iff in Hqp.
      inversion Hbound as [|? ? (k & Hk' & Hk) Hrest]; subst.
      injection Hk' as <-.
      constructor; [exists q; split; [done|lra]|].
      constructor; [exists p; split; [done|lra]|done].
    + destruct (IH (Fin q) I Hws) as (mx & Hfold & Hbound).
      exists mx. split; [done|].
      assert (p <= q)%Q.
      { destruct (Qlt_le_dec q p) as [Hlt|Hge]; [|done].
        apply Qlt_le_weak, Qle_bool_iff in Hlt. congruence. }
      inversion Hbound as [|? ? (k & Hk' & Hk) Hrest]; subst.
      injection Hk' as <-.
      constructor; [exists q; split; [done|lra]|].
      constructor; [exists p; split; [done|lra]|done].
Qed.

(** One axis of the rescale, on finite values. *)
Lemma rescale_axis_in_range (mn mx x o ext : Q) :
  (mn <= x)%Q → (x <= mx)%Q → (0 <= ext)%Q →
  ∃ a,
    ((Fin x - Fin mn)
       / (if negb (feqb (Fin mn) (Fin mx)) then Fin mx - Fin mn else one)
       * Fin ext + Fin o)%F = Fin a ∧
    (o <= a)%Q ∧ (a <= o + ext)%Q.
Proof.
  intros Hlo Hhi Hext. cbn [feqb].
  destruct (Qeq_bool mn mx) eqn:Heq; cbn [negb].
  - apply Qeq_bool_eq in Heq. eexists. split; [reflexivity|].
    assert ((x + - mn) / 1 * ext + o == o)%Q as Ha.
    { assert (x == mn)%Q as -> by lra. field. }
    rewrite Ha. split; lra.
  - assert (¬ (mn == mx)%Q) as Hne.
    { intros H. apply Qeq_eq_bool in H. congruence. }
    assert (0 < mx + - mn)%Q as Hpos by lra.
    cbn [fsub fadd fopp fdiv].
    destruct (Qeq_bool (mx + - mn) 0) eqn:Hz.
    { apply Qeq_bool_eq in Hz. lra. }
    eexists. split; [reflexivity|].
    set (t := ((x + - mn) / (mx + - mn))%Q).
    assert (0 <= t)%Q as Ht0 by (apply Qle_shift_div_l; [done|lra]).
    assert (t <= 1)%Q as Ht1 by (apply Qle_shift_div_r; [done|lra]).
    assert (0 <= t * ext)%Q as H0 by (by apply Qmult_le_0_compat).
    assert (t * ext <= 1 * ext)%Q as H1 by (by apply Qmult_le_compat_r).
    split; lra.
Qed.

Lemma rescale_layout_eq (p0 : float * float) (cs : list (float * float)) (box : bbox) :
  _rescale_layout (p0 :: cs) box =
  inr ((λ p,
          ((p.1 - foldl minimum p0.1 (cs.*1))
             / (if negb (feqb (foldl minimum p0.1 (cs.*1)) (foldl maximum p0.1 (cs.*1)))
                then foldl maximum p0.1 (cs.*1) - foldl minimum p0.1 (cs.*1)
                else one)
             * bbox_w box + bbox_x box,
           (p.2 - foldl minimum p0.2 (cs.*2))
             / (if negb (feqb (foldl minimum p0.2 (cs.*2)) (foldl maximum p0.2 (cs.*2)))
                then foldl maximum p0.2 (cs.*2) - foldl minimum p0.2 (cs.*2)
                else one)
             * bbox_h box + bbox_y box)%F)
       <$> p0 :: cs).
Proof.
  destruct p0 as [x0 y0], box as [[[bx by_] bw] bh].
  unfold _rescale_layout. set (l := (x0, y0) :: cs).
  change (np_min (l.*1)) with (@inr exn float (foldl minimum x0 (cs.*1))).
  change (np_min (l.*2)) with (@inr exn float (foldl minimum y0 (cs.*2))).
  change (np_amax (l.*1)) with (@inr exn float (foldl maximum x0 (cs.*1))).
  change (np_amax (l.*2)) with (@inr exn float (foldl maximum y0 (cs.*2))).
  cbn [mbind res_bind]. by rewrite zip_fmap_fst_snd.
Qed.

Lemma rescale_layout_bounds (coords : list (float * float)) (x0 y0 w h : Q) :
  coords ≠ [] →
  Forall (λ p, is_fin p.1 ∧ is_fin p.2) coords →
  (0 <= w)%Q → (0 <= h)%Q →
  ∃ rows,
    _rescale_layout coords (Fin x0, Fin y0, Fin w, Fin h) = inr rows ∧
    length rows = length coords ∧
    Forall (λ r, ∃ a b, r = (Fin a, Fin b) ∧
                        (x0 <= a)%Q ∧ (a <= x0 + w)%Q ∧
                        (y0 <= b)%Q ∧ (b <= y0 + h)%Q) rows.
Proof.
  intros Hne Hfin Hw Hh. destruct coords as [|p0 cs]; [done|].
  eexists. split; [apply rescale_layout_eq|]. split; [by rewrite length_fmap|].
  apply Forall_cons in Hfin as [[Hx0 Hy0] Hfin].
  assert (Forall is_fin (cs.*1) ∧ Forall is_fin (cs.*2)) as [Hxs Hys].
  { split; apply Forall_fmap; (eapply Forall_impl; [exact Hfin|]); by intros p [? ?]. }
  destruct (foldl_minimum_fin _ _ Hx0 Hxs) as (mnx & Emnx & Hmnx).
  destruct (foldl_maximum_fin _ _ Hx0 Hxs) as (mxx & Emxx & Hmxx).
  destruct (foldl_minimum_fin _ _ Hy0 Hys) as (mny & Emny & Hmny).
  destruct (foldl_maximum_fin _ _ Hy0 Hys) as (mxy & Emxy & Hmxy).
  apply Forall_fmap, Forall_forall. intros [px py] Hp. cbn [fst snd].
  rewrite Emnx, Emxx, Emny, Emxy.
  assert (px ∈ p0.1 :: cs.*1) as Hpx.
  { change (px ∈ (p0 :: cs).*1). by apply (list_elem_of_fmap_2 fst _ (px, py)). }
  assert (py ∈ p0.2 :: cs.*2) as Hpy.
  { change (py ∈ (p0 :: cs).*2). by apply (list_elem_of_fmap_2 snd _ (px, py)). }
  rewrite Forall_forall in Hmnx, Hmxx, Hmny, Hmxy.
  destruct (Hmnx px Hpx) as (qx & -> & ?).
  destruct (Hmxx (Fin qx) Hpx) as (qx' & Hqx & ?). injection Hqx as <-.
  destruct (Hmny py Hpy) as (qy & -> & ?).
  destruct (Hmxy (Fin qy) Hpy) as (qy' & Hqy & ?). injection Hqy as <-.
  unfold bbox_w, bbox_h, bbox_x, bbox_y, compose. cbv beta. cbn [fst snd].
  destruct (rescale_axis_in_range mnx mxx qx x0 w) as (a & -> & ? & ?); [done..|].
  destruct (rescale_axis_in_range mny mxy qy y0 h) as (b & -> & ? & ?); [done..|].
  exists a, b. done.
Qed.

(** On finite coordinates and a finite box of non-negative width and height,
    every rescaled vertex lies inside the box. *)
Theorem rescale_layout_in_box (coords : list (float * float)) (x0 y0 w h : Q) :
  coords ≠ [] →
  Forall (λ p, is_fin p.1 ∧ is_fin p.2) coords →
  (0 <= w)%Q → (0 <= h)%Q →
  ∃ rows,
    _rescale_layout coords (Fin x0, Fin y0, Fin w, Fin h) = inr rows ∧
    length rows = length coords ∧
    Forall (λ r, ∃ a b, r = (Fin a, Fin b) ∧
                        (x0 <= a)%Q ∧ (a <= x0 + w)%Q ∧
                        (y0 <= b)%Q ∧ (b <= y0 + h)%Q) rows.
Proof. apply rescale_layout_bounds. Qed.

Lemma rescale_layout_in_box_witness :
  ∃ rows,
    _rescale_layout [(Fin 2, Fin 5); (Fin 4, Fin 5); (Fin 3, Fin 9)]
      (Fin 10, Fin 20, Fin 3, Fin 0) = inr rows ∧
    length rows = length [(Fin 2, Fin 5); (Fin 4, Fin 5); (Fin 3, Fin 9)] ∧
    Forall (λ r, ∃ a b, r = (Fin a, Fin b) ∧
                        (10 <= a)%Q ∧ (a <= 10 + 3)%Q ∧
                        (20 <= b)%Q ∧ (b <= 20 + 0)%Q) rows.
Proof.
  refine (rescale_layout_in_box [(Fin 2, Fin 5); (Fin 4, Fin 5); (Fin 3, Fin 9)]
            10 20 3 0 _ _ _ _).
  - discriminate.
  - repeat constructor.
  - discriminate.
  - discriminate.
Defined.

(** A component of one vertex is put at the origin of its box, whatever its
    raw coordinates and the size of the box. *)
Theorem single_vertex_at_origin (x y x0 y0 w h : Q) :
  ∃ a b,
    _rescale_layout [(Fin x, Fin y)] (Fin x0, Fin y0, Fin w, Fin h)
      = inr [(Fin a, Fin b)] ∧
    (a == x0)%Q ∧ (b == y0)%Q.
Proof.
  rewrite rescale_layout_eq. cbn [fmap list_fmap foldl fst snd feqb].
  rewrite !Qeq_bool_refl. cbn [negb]. unfold bbox_w, bbox_h, bbox_x, bbox_y.
  cbn [fst snd]. eexists _, _. split; [reflexivity|]. split; field.
Qed.

(** ** The boxes of the shelf arrangement do not overlap *)

Lemma StronglySorted_lookup_lt {A} (R : relation A) (l : list A) (i j : nat) x y :
  StronglySorted R l → i < j → l !! i = Some x → l !! j = Some y → R x y.
Proof.
  intros Hs. revert i j. induction Hs as [|z l Hs IH Hall]; intros i j Hij Hi Hj.
  - by destruct i.
  - destruct j as [|j]; [lia|]. destruct i as [|i].
    + injection Hi as ->. rewrite Forall_forall in Hall.
      apply Hall. by eapply list_elem_of_lookup_2.
    + apply (IH i j); [lia|done..].
Qed.

Lemma shelf_boxes_drop (E : Ext) (pad_x pad_y : float) sizes (i : nat) x y previous n a :
  sizes !! i = Some n →
  shelf_boxes E pad_x pad_y x y previous sizes !! i = Some a →
  drop (S i) (shelf_boxes E pad_x pad_y x y previous sizes) =
  shelf_boxes E pad_x pad_y (bbox_x a + (bbox_w a + pad_x))%F (bbox_y a) n
    (drop (S i) sizes).
Proof.
  revert i x y previous. induction sizes as [|k sizes IH]; intros i x y previous; [done|].
  destruct i as [|i].
  - intros [= ->] [= <-]. done.
  - intros Hn Ha. exact (IH i _ _ _ Hn Ha).
Qed.

Section ShelfOverlap.
Variable E : Ext.
Variables px py : Q.
Variable side : Z → Q.
Variable all_sizes : list Z.
Hypothesis Hpx : (0 <= px)%Q.
Hypothesis Hpy : (0 <= py)%Q.
Hypothesis Hside :
  ∀ n, n ∈ all_sizes →
       fpow E (of_Z n) (Fin (4 # 5)) = Fin (side n) ∧ (0 <= side n)%Q.

Lemma shelf_place_fin (x y : Q) previous n :
  n ∈ all_sizes →
  shelf_place E (Fin py) (Fin x) (Fin y) previous n =
  if (n =? previous)%Z then (Fin x, Fin y, Fin (side n), Fin (side n))
  else (Fin (inject_Z 0), Fin (y + (side n + py)), Fin (side n), Fin (side n)).
Proof.
  intros Hn. unfold shelf_place. destruct (Hside n Hn) as [-> _].
  by destruct (n =? previous)%Z.
Qed.

(** Where the boxes after a cursor position lie: in the row of the cursor
    and right of it, or at least a row higher. *)
Lemma shelf_boxes_position sizes (x y : Q) previous (k : nat) b n' :
  sizes ⊆ all_sizes →
  sizes !! k = Some n' →
  shelf_boxes E (Fin px) (Fin py) (Fin x) (Fin y) previous sizes !! k = Some b →
  ∃ bx by_,
    b = (Fin bx, Fin by_, Fin (side n'), Fin (side n')) ∧
    ((by_ = y ∧ (x <= bx)%Q ∧ n' = previous) ∨ (y + side n' + py <= by_)%Q).
Proof.
  revert x y previous k. induction sizes as [|n sizes IH]; intros x y previous k Hsub;
    [done|].
  assert (n ∈ all_sizes) as Hn by (apply Hsub; constructor).
  assert (sizes ⊆ all_sizes) as Hsub'.
  { intros z Hz. apply Hsub. by constructor. }
  destruct (Hside n Hn) as [_ Hs0].
  cbn [shelf_boxes]. rewrite (shelf_place_fin _ _ _ _ Hn).
  destruct k as [|k].
  - intros [= <-] [= <-]. destruct (n =? previous)%Z eqn:Heq.
    + apply Z.eqb_eq in Heq. exists x, y. split; [done|]. left.
      split; [done|]. split; [lra|done].
    + eexists _, _. split; [done|]. right. lra.
  - intros Hn' Hb. destruct (n =? previous)%Z eqn:Heq.
    + apply Z.eqb_eq in Heq.
      destruct (IH (x + (side n + px))%Q y n k Hsub' Hn' Hb)
        as (bx & by_ & -> & [(-> & Hx & ->)|Hy]).
      * exists bx, y. split; [done|]. left. split; [done|]. split; [lra|done].
      * exists bx, by_. split; [done|]. by right.
    + destruct (IH (inject_Z 0 + (side n + px))%Q (y + (side n + py))%Q n k Hsub' Hn' Hb)
        as (bx & by_ & -> & [(-> & Hx & ->)|Hy]).
      * eexists _, _. split; [done|]. right. lra.
      * exists bx, by_. split; [done|]. right. lra.
Qed.

End ShelfOverlap.

(** For component sizes in ascending order, non-negative finite padding and
    a power operator with finite, non-negative and monotone values on the
    sizes, no two boxes of [_bbox_sorted] overlap. *)
Theorem bbox_sorted_no_overlap (E : Ext) (sizes : list Z) (px py : Q) (side : Z → Q)
    (i j : nat) (a b : bbox) :
  (0 <= px)%Q → (0 <= py)%Q →
  (∀ n, n ∈ sizes →
        fpow E (of_Z n) (Fin (4 # 5)) = Fin (side n) ∧ (0 <= side n)%Q) →
  (∀ n n', n ∈ sizes → n' ∈ sizes → (n ≤ n')%Z → (side n <= side n')%Q) →
  Sorted Z.le sizes →
  i < j →
  _bbox_sorted E sizes (Fin px) (Fin py) !! i = Some a →
  _bbox_sorted E sizes (Fin px) (Fin py) !! j = Some b →
  overlap a b = false.
Proof.
  intros Hpx Hpy Hside Hmono Hsorted Hij. rewrite bbox_sorted_shelf.
  change (of_Z 0) with (Fin (inject_Z 0)). intros Ha Hb.
  assert (∃ n, sizes !! i = Some n) as [n Hn].
  { apply lookup_lt_is_Some. rewrite <- (shelf_boxes_length E (Fin px) (Fin py)
      (Fin (inject_Z 0)) (Fin (inject_Z 0)) 1%Z). by eapply lookup_lt_Some. }
  assert (∃ n', sizes !! j = Some n') as [n' Hn'].
  { apply lookup_lt_is_Some. rewrite <- (shelf_boxes_length E (Fin px) (Fin py)
      (Fin (inject_Z 0)) (Fin (inject_Z 0)) 1%Z). by eapply lookup_lt_Some. }
  destruct (shelf_boxes_position E px py side sizes Hpx Hpy Hside sizes _ _ _ _ _ _
              (reflexivity _) Hn Ha) as (ax & ay & -> & _).
  pose proof (shelf_boxes_drop E _ _ _ _ _ _ _ _ _ Hn Ha) as Hdrop.
  assert (drop (S i) sizes ⊆ sizes) as Hsub by apply subseteq_drop.
  assert (drop (S i) sizes !! (j - S i) = Some n') as Hn2.
  { rewrite lookup_drop. by replace (S i + (j - S i)) with j by lia. }
  assert (drop (S i) (shelf_boxes E (Fin px) (Fin py) (Fin (inject_Z 0))
                        (Fin (inject_Z 0)) 1%Z sizes) !! (j - S i) = Some b) as Hb2.
  { rewrite lookup_drop. by replace (S i + (j - S i)) with j by lia. }
  rewrite Hdrop in Hb2.
  destruct (shelf_boxes_position E px py side sizes Hpx Hpy Hside _ _ _ _ _ _ _
              Hsub Hn2 Hb2) as (bx & by_ & -> & Hpos).
  assert (n ∈ sizes) as Hin by (by eapply list_elem_of_lookup_2).
  assert (n' ∈ sizes) as Hin' by (by eapply list_elem_of_lookup_2).
  destruct (Hside n Hin) as [_ Hs]. destruct (Hside n' Hin') as [_ Hs'].
  assert (side n <= side n')%Q as Hle.
  { apply Hmono; [done..|].
    apply (Sorted_StronglySorted Z.le) in Hsorted.
    by eapply (StronglySorted_lookup_lt Z.le sizes i j). }
  unfold overlap, bbox_x, bbox_y, bbox_w, bbox_h. cbn [fst snd fadd fltb].
  destruct Hpos as [(-> & Hx & _)|Hy].
  - assert (Qle_bool (ax + side n) bx = true) as ->.
    { apply Qle_bool_iff. lra. }
    cbn [negb]. by rewrite andb_false_r.
  - assert (Qle_bool (ay + side n) by_ = true) as ->.
    { apply Qle_bool_iff. lra. }
    cbn [negb]. by rewrite andb_false_r.
Qed.

Lemma bbox_sorted_no_overlap_witness :
  overlap (default zero_box (_bbox_sorted E_ref [1; 2; 3]%Z (Fin 1) (Fin 1) !! 0))
          (default zero_box (_bbox_sorted E_ref [1; 2; 3]%Z (Fin 1) (Fin 1) !! 2))
  = false.
Proof.
  refine (bbox_sorted_no_overlap E_ref [1; 2; 3]%Z 1 1 side_ref 0 2 _ _ _ _ _ _ _ _ _ _).
  - discriminate.
  - discriminate.
  - intros n Hn. repeat (apply elem_of_cons in Hn as [->|Hn]);
      [| | |by apply elem_of_nil in Hn]; (split; [by vm_compute|by vm_compute]).
  - intros n n' Hn Hn' Hle. apply Z.leb_le in Hle.
    repeat (apply elem_of_cons in Hn as [->|Hn]);
      [..|exfalso; revert Hn; apply not_elem_of_nil];
      (repeat (apply elem_of_cons in Hn' as [->|Hn']);
       [..|exfalso; revert Hn'; apply not_elem_of_nil]);
      try discriminate Hle; by vm_compute.
  - repeat constructor; lia.
  - lia.
  - vm_compute. reflexivity.
  - vm_compute. reflexivity.
Defined.

(** ** Errors of the layout of all components *)

(** The ids of the vertices can be read in every processing order. *)
Lemma layout_components_prefix (E : Ext) (graph : Graph) :
  argsort_spec (argsort E) →
  decompose_ok E graph →
  ∃ comps sizes ids,
    sorted_components E graph = inr (comps, sizes) ∧
    comps ≡ₚ decompose E (mk_graph (Some <$> seq 0 (vcount graph)) (es graph)
                            (es_weight graph)) ∧
    sizes = (λ c, Z.of_nat (vcount c)) <$> comps ∧
    mapM (λ v : option nat,
            match v with
            | Some i => mret i
            | None => raise (KeyError "id")
            end) (comps ≫= vs) = inr ids.
Proof.
  intros Hargsort [Hpart _].
  destruct (sorted_components_exists E Hargsort graph) as (comps & sizes & Hsorted).
  destruct (sorted_components_inv E Hargsort _ _ _ Hsorted) as (Hperm & Hsizes & _).
  simpl in Hpart.
  assert (comps ≫= vs ≡ₚ Some <$> seq 0 (vcount graph)) as Hvss by (by rewrite Hperm).
  destruct (vertex_ids_run _ _ Hvss) as (ids & Hids & _ & _).
  by exists comps, sizes, ids.
Qed.

(** An arrangement that is none of ["rpack"], ["size"] and ["squarify"] makes
    [layout_components] raise a [KeyError] that carries the name as given:
    the lookup in the dictionary of the arrangements fails, after the graph
    was decomposed and before any component is laid out. *)
Theorem unknown_arrangement_key_error (E : Ext) (graph : Graph) (name arrange : string)
    (pad_x pad_y : float) :
  argsort_spec (argsort E) →
  decompose_ok E graph →
  arrange ≠ "rpack" → arrange ≠ "size" → arrange ≠ "squarify" →
  layout_components E graph name arrange pad_x pad_y = inl (KeyError arrange).
Proof.
  intros Hargsort Hdec H1 H2 H3.
  destruct (layout_components_prefix E graph Hargsort Hdec)
    as (comps & sizes & ids & Hsorted & _ & _ & Hids).
  unfold layout_components. rewrite Hsorted. cbn [mbind res_bind].
  rewrite Hids. cbn [mbind res_bind].
  unfold bbox_funs. by rewrite !decide_False by done.
Qed.

Lemma unknown_arrangement_key_error_witness :
  layout_components E_ref graph6 "fr" "grid" one one = inl (KeyError "grid").
Proof.
  by refine (unknown_arrangement_key_error E_ref graph6 "fr" "grid" one one
               (argsort_by_spec false) graph6_decompose_ok _ _ _).
Defined.

(** A graph without vertices has no component, and with the arrangement
    ["size"] the layout of all components fails in [np.vstack], which is
    given an empty list: a [ValueError], not an empty array. *)
Theorem empty_graph_value_error (E : Ext) (graph : Graph) (name : string)
    (pad_x pad_y : float) :
  argsort_spec (argsort E) →
  decompose_ok E graph →
  vcount graph = 0 →
  layout_components E graph name "size" pad_x pad_y
    = inl (ValueError "need at least one array to concatenate").
Proof.
  intros Hargsort Hdec Hv.
  destruct (layout_components_prefix E graph Hargsort Hdec)
    as (comps & sizes & ids & Hsorted & Hperm & -> & Hids).
  destruct Hdec as [Hpart Hne]. simpl in Hpart.
  assert (comps = []) as ->.
  { destruct comps as [|c cs]; [done|]. exfalso.
    rewrite <- Hperm in Hpart, Hne. rewrite Hv in Hpart.
    apply Permutation_nil_r in Hpart. cbn in Hpart.
    apply app_eq_nil in Hpart as [Hc _].
    inversion Hne as [|? ? Hc' _]; subst. apply Hc'. unfold vcount. by rewrite Hc. }
  unfold layout_components. rewrite Hsorted. reflexivity.
Qed.

Lemma empty_graph_value_error_witness :
  layout_components E_ref empty_graph "fr" "size" one one
    = inl (ValueError "need at least one array to concatenate").
Proof.
  refine (empty_graph_value_error E_ref empty_graph "fr" one one
            (argsort_by_spec false) _ eq_refl).
  split; [reflexivity|constructor].
Defined.

(** ** The treemap arrangement *)

(** [_bbox_squarify] hands the sizes to squarify in descending order and
    returns the boxes in the order of its input: when squarify returns one
    finite rectangle per size, box [i] is the largest square centred in the
    rectangle of rank [k], where [k] is the rank of component [i] in the
    descending order, with its width reduced by [pad_x] and its height by
    [pad_y]. *)
Theorem squarify_boxes_in_input_order (E : Ext) (sq : squarify_module)
    (sizes sorted : list Z) (normed : list float) (rects : list rect) (px py : Q) :
  argsort_spec (argsort E) →
  squarify E = Some sq →
  take_idx sizes (argsort E (Z.opp <$> sizes)) = inr sorted →
  normalize_sizes sq sorted (of_Z 100) (of_Z 100) = inr normed →
  padded_squarify sq normed (of_Z 0) (of_Z 0) (of_Z 100) (of_Z 100) = inr rects →
  length rects = length sizes →
  Forall rect_fin rects →
  ∃ bboxes,
    _bbox_squarify E sizes (Fin px) (Fin py) = inr bboxes ∧
    length bboxes = length sizes ∧
    ∀ i, i < length sizes →
      ∃ k r b, argsort E (Z.opp <$> sizes) !! k = Some i ∧
               rects !! k = Some r ∧ bboxes !! i = Some b ∧
               centred_square r px py b.
Proof.
  intros Hargsort Hsq Hsorted Hnorm Hrects Hlen Hfin.
  destruct (Hargsort (Z.opp <$> sizes)) as [Hperm _].
  rewrite length_fmap in Hperm.
  set (order := argsort E (Z.opp <$> sizes)) in *.
  destruct (argsort_inverse (argsort E) order (length sizes) Hargsort Hperm)
    as [Hundo Hinv].
  set (undo := argsort E (Z.of_nat <$> order)) in *.
  set (f := λ r : rect,
         if (r_dy r <? r_dx r)%F
         then (r_x r + fabs (r_dx r - r_dy r) / of_Z 2, r_y r,
               r_dy r - Fin px, r_dy r - Fin py)%F
         else (r_x r, r_y r + fabs (r_dx r - r_dy r) / of_Z 2,
               r_dx r - Fin px, r_dx r - Fin py)%F).
  destruct (take_idx_exists (f <$> rects) undo) as [bboxes Hb].
  { rewrite length_fmap, Hlen. by apply Permutation_seq_bound. }
  exists bboxes. split.
  { unfold _bbox_squarify. rewrite Hsq. fold order. rewrite Hsorted.
    cbn [mbind res_bind]. rewrite Hnorm. cbn [mbind res_bind].
    rewrite Hrects. cbn [mbind res_bind]. exact Hb. }
  apply take_idx_inr in Hb. split.
  { etrans; [symmetry; exact (Forall2_length _ _ _ Hb)|].
    by rewrite (Permutation_length Hundo), length_seq. }
  intros i Hi. destruct (Hinv i Hi) as (k & Hk & Hki).
  destruct (Forall2_lookup_l _ _ _ _ _ Hb Hk) as (b & Hbi & Hbk).
  rewrite list_lookup_fmap in Hbk.
  destruct (rects !! k) as [r|] eqn:Hr; [|done]. injection Hbk as <-.
  exists k, r, (f r). repeat split; try done.
  rewrite Forall_lookup in Hfin. specialize (Hfin _ _ Hr).
  destruct r as [[x| |] [y| |] [dx| |] [dy| |]]; unfold rect_fin in Hfin;
    simpl in Hfin; try tauto.
  unfold f, centred_square. cbn [r_x r_y r_dx r_dy fltb fsub fadd fopp fabs fdiv of_Z].
  change (Qeq_bool (inject_Z 2) 0) with false. cbv iota.
  change (inject_Z 2) with 2%Q.
  destruct (Qle_bool dx dy) eqn:Hle; cbn [negb].
  - apply Qle_bool_iff in Hle. exists dx.
    assert (Qabs (dx + - dy) == dy - dx)%Q as Habs.
    { rewrite Qabs_neg by lra. lra. }
    split; [lra|]. split; [lra|]. split; [by left|].
    split; [lra|]. split; [lra|]. split; [reflexivity|]. rewrite Habs. field.
  - assert (dy <= dx)%Q as Hge.
    { destruct (Qlt_le_dec dx dy) as [Hlt|Hge]; [|done].
      apply Qlt_le_weak, Qle_bool_iff in Hlt. congruence. }
    exists dy.
    assert (Qabs (dx + - dy) == dx - dy)%Q as Habs.
    { rewrite Qabs_pos by lra. lra. }
    split; [lra|]. split; [lra|]. split; [by right|].
    split; [lra|]. split; [lra|]. split; [rewrite Habs; field|reflexivity].
Qed.

Lemma squarify_boxes_in_input_order_witness :
  ∃ bboxes,
    _bbox_squarify E_sq [1; 2; 3]%Z (Fin 1) (Fin 1) = inr bboxes ∧
    length bboxes = length [1; 2; 3]%Z ∧
    ∀ i, i < length [1; 2; 3]%Z →
      ∃ k r b, argsort E_sq (Z.opp <$> [1; 2; 3]%Z) !! k = Some i ∧
               strips_from (of_Z 0) (of_Z 0) (of_Z 100)
                 ((λ size, (of_Z size * (of_Z 100 * of_Z 100) / of_Z 6)%F)
                    <$> [3; 2; 1]%Z) !! k = Some r ∧
               bboxes !! i = Some b ∧ centred_square r 1 1 b.
Proof.
  refine (squarify_boxes_in_input_order E_sq squarify_ref [1; 2; 3]%Z [3; 2; 1]%Z
            ((λ size, (of_Z size * (of_Z 100 * of_Z 100) / of_Z 6)%F) <$> [3; 2; 1]%Z)
            (strips_from (of_Z 0) (of_Z 0) (of_Z 100)
               ((λ size, (of_Z size * (of_Z 100 * of_Z 100) / of_Z 6)%F)
                  <$> [3; 2; 1]%Z))
            1 1 (argsort_by_spec false) eq_refl _ _ _ _ _).
  - vm_compute. reflexivity.
  - reflexivity.
  - reflexivity.
  - reflexivity.
  - vm_compute. repeat constructor.
Defined.

(** ** The rectangle packing under an enclosing rectangle that is not wider
    than high *)

Lemma overlap_shrink (x1 y1 w1 h1 w1' h1' x2 y2 w2 h2 w2' h2' : Q) :
  (w1' <= w1)%Q → (h1' <= h1)%Q → (w2' <= w2)%Q → (h2' <= h2)%Q →
  overlap (Fin x1, Fin y1, Fin w1, Fin h1) (Fin x2, Fin y2, Fin w2, Fin h2) = false →
  overlap (Fin x1, Fin y1, Fin w1', Fin h1') (Fin x2, Fin y2, Fin w2', Fin h2') = false.
Proof.
  intros H1 H2 H3 H4. unfold overlap, bbox_x, bbox_y, bbox_w, bbox_h.
  cbn [fst snd fadd fltb].
  rewrite !andb_false_iff, !negb_false_iff, !Qle_bool_iff. lra.
Qed.

(** The scaling bug of [_bbox_rpack] needs an enclosing rectangle that is
    wider than high. When the enclosing rectangle [W x H] of the packing has
    [0 < W <= H], the heights are kept and the widths are multiplied by
    [W / H <= 1], so every box lies in the rectangle that was packed for it:
    if the packed rectangles do not overlap, neither do the boxes. There is
    one box per component. *)
Theorem rpack_no_overlap_when_tall (E : Ext) (rp : rpack_module) (sizes : list Z)
    (px py : Q) (dims origins : list (Z * Z)) (W H : Z) :
  rpack E = Some rp →
  (0 <= px)%Q → (0 <= py)%Q →
  rpack_dimensions E sizes (Fin px) (Fin py) = inr dims →
  Forall (λ d : Z * Z, (0 ≤ d.1)%Z) dims →
  rpack_pack rp dims = inr origins →
  length origins = length dims →
  rpack_enclosing_size rp dims origins = inr (W, H) →
  (0 < W ≤ H)%Z →
  (∀ p q o1 d1 o2 d2, p ≠ q →
     origins !! p = Some o1 → dims !! p = Some d1 →
     origins !! q = Some o2 → dims !! q = Some d2 →
     overlap (rect_box o1 d1) (rect_box o2 d2) = false) →
  ∃ bboxes,
    _bbox_rpack E sizes (Fin px) (Fin py) = inr bboxes ∧
    length bboxes = length sizes ∧
    ∀ i j a b, i ≠ j → bboxes !! i = Some a → bboxes !! j = Some b →
      overlap a b = false.
Proof.
  intros Hrp Hpx Hpy Hdims Hnn Hpack Hlen Hencl [HW HWH] Hpacked.
  set (r := (inject_Z W / inject_Z H)%Q).
  assert (0 < inject_Z H)%Q as HH by (rewrite <- (Zlt_Qlt 0); lia).
  assert (0 <= r)%Q as Hr0.
  { apply Qle_shift_div_l; [done|]. rewrite Qmult_0_l, <- (Zle_Qle 0). lia. }
  assert (r <= 1)%Q as Hr1.
  { apply Qle_shift_div_r; [done|]. rewrite Qmult_1_l, <- Zle_Qle. lia. }
  assert (∀ d, (0 ≤ d)%Z → (inject_Z d * r + - px <= inject_Z d)%Q) as Hw.
  { intros d Hd.
    assert (0 <= inject_Z d)%Q as Hd' by (by rewrite <- (Zle_Qle 0)).
    assert (r * inject_Z d <= 1 * inject_Z d)%Q by (by apply Qmult_le_compat_r).
    lra. }
  set (f := λ od : (Z * Z) * (Z * Z),
         (of_Z od.1.1, of_Z od.1.2,
          of_Z od.2.1 * Fin r - Fin px, of_Z od.2.2 * one - Fin py)%F).
  exists (reverse (f <$> zip origins dims)).
  assert (length dims = length sizes) as Hdl.
  { apply mapM_inr, Forall2_length in Hdims.
    by rewrite length_reverse, length_fmap in Hdims. }
  split; [|split].
  - unfold _bbox_rpack. rewrite Hrp. cbv zeta.
    change (mapM _ (reverse _)) with (rpack_dimensions E sizes (Fin px) (Fin py)).
    rewrite Hdims. cbn [mbind res_bind]. rewrite Hpack. cbn [mbind res_bind].
    rewrite Hencl. cbn [mbind res_bind fst snd]. unfold int_truediv.
    destruct (Z.eqb_spec H 0) as [?|_]; [lia|]. cbn [mbind res_bind].
    change (one <? Fin (inject_Z W / inject_Z H))%F with (negb (Qle_bool r 1)).
    assert (Qle_bool r 1 = true) as -> by (by apply Qle_bool_iff).
    reflexivity.
  - rewrite length_reverse, length_fmap, length_zip_with. lia.
  - intros i j a b Hij Ha Hb.
    apply reverse_lookup_Some in Ha as [Ha Hi], Hb as [Hb Hj].
    unfold bbox in *.
    set (n := length (f <$> zip origins dims)) in *.
    apply list_lookup_fmap_Some in Ha as ([o1 d1] & -> & Ha).
    apply list_lookup_fmap_Some in Hb as ([o2 d2] & -> & Hb).
    apply lookup_zip_Some in Ha as [Ho1 Hd1], Hb as [Ho2 Hd2].
    cbn [fst snd] in *.
    assert (overlap (rect_box o1 d1) (rect_box o2 d2) = false) as Hno.
    { apply (Hpacked (n - S i) (n - S j)); [lia|done..]. }
    rewrite Forall_lookup in Hnn.
    pose proof (Hnn _ _ Hd1) as Hn1. pose proof (Hnn _ _ Hd2) as Hn2.
    cbn [fst] in Hn1, Hn2.
    unfold f, rect_box in *. cbn [fst snd of_Z one fmul fsub fadd fopp] in *.
    revert Hno. apply overlap_shrink; try (by apply Hw); lra.
Qed.

Lemma rpack_no_overlap_when_tall_witness :
  ∃ bboxes,
    _bbox_rpack E_stack [3; 8]%Z (Fin 1) (Fin 1) = inr bboxes ∧
    length bboxes = length [3; 8]%Z ∧
    ∀ i j a b, i ≠ j → bboxes !! i = Some a → bboxes !! j = Some b →
      overlap a b = false.
Proof.
  refine (rpack_no_overlap_when_tall E_stack rpack_stack [3; 8]%Z 1 1
            [(6, 6); (3, 3)]%Z [(0, 0); (0, 6)]%Z 6 9 eq_refl _ _ _ _ _ _ _ _ _).
  - discriminate.
  - discriminate.
  - vm_compute. reflexivity.
  - repeat constructor; simpl; lia.
  - reflexivity.
  - reflexivity.
  - vm_compute. reflexivity.
  - lia.
  - intros p q o1 d1 o2 d2 Hpq Ho1 Hd1 Ho2 Hd2.
    destruct p as [|[|p]], q as [|[|q]]; try done;
      cbn in Ho1, Hd1, Ho2, Hd2;
      injection Ho1 as <-; injection Hd1 as <-;
      injection Ho2 as <-; injection Hd2 as <-; vm_compute; reflexivity.
Defined.

(** ** The weights of the graph of a distance matrix *)

Lemma filter_column_none (row : list cell) (j : nat) :
  j ∉ row.*1 → filter (λ c : cell, c.1 = j) row = [].
Proof.
  induction row as [|c row IH]; [done|]. cbn [fmap list_fmap]. intros Hn.
  apply not_elem_of_cons in Hn as [Hne Hn].
  rewrite filter_cons_False by (intros Heq; by apply Hne). by apply IH.
Qed.

Lemma filter_column_unique (row : list cell) (j : nat) (v : float) :
  NoDup (row.*1) → (j, v) ∈ row → filter (λ c : cell, c.1 = j) row = [(j, v)].
Proof.
  induction row as [|[j' v'] row IH]; intros Hnd Hin.
  - by apply elem_of_nil in Hin.
  - cbn [fmap list_fmap fst] in Hnd. apply NoDup_cons in Hnd as [Hnotin Hnd].
    apply elem_of_cons in Hin as [Heq|Hin].
    + injection Heq as <- <-. rewrite filter_cons_True by done.
      by rewrite filter_column_none.
    + assert (j' ≠ j) as Hne.
      { intros ->. apply Hnotin. apply list_elem_of_fmap. by exists (j, v). }
      rewrite filter_cons_False by done. by apply IH.
Qed.

Lemma filter_fmap_columns_NoDup (P : cell → Prop) `{∀ c, Decision (P c)}
    (f : float → float) (row : list cell) :
  NoDup (row.*1) → NoDup ((filter P (prod_map id f <$> row)).*1).
Proof.
  induction row as [|[j v] row IH]; [done|].
  cbn [fmap list_fmap fst prod_map]. intros Hnd.
  apply NoDup_cons in Hnd as [Hnotin Hnd]. specialize (IH Hnd).
  destruct (decide (P (id j, f v))) as [HP|HP].
  - rewrite filter_cons_True by done. cbn [fmap list_fmap fst]. apply NoDup_cons.
    split; [|done]. intros Hin. apply Hnotin.
    apply list_elem_of_fmap in Hin as ([j' v'] & Hj & Hc). cbn in Hj. subst j'.
    apply list_elem_of_filter in Hc as [_ Hc].
    apply list_elem_of_fmap in Hc as ([j'' v''] & [= -> ->] & Hc).
    apply list_elem_of_fmap. by exists (j'', v'').
  - by rewrite filter_cons_False by done.
Qed.

(** The rows that [sum_duplicates()] builds hold every column once. *)
Lemma add_cell_columns (c : cell) (row : list cell) (x : nat) :
  x ∈ (add_cell c row).*1 → x = c.1 ∨ x ∈ row.*1.
Proof.
  induction row as [|d row IH]; cbn [add_cell].
  - cbn. intros Hx. apply elem_of_cons in Hx as [->|Hx]; [by left|by right].
  - destruct (decide (c.1 < d.1)).
    + cbn. intros Hx. apply elem_of_cons in Hx as [->|Hx]; [by left|by right].
    + destruct (decide (c.1 = d.1)); [by right|].
      cbn. intros Hx. apply elem_of_cons in Hx as [->|Hx].
      * right. by left.
      * destruct (IH Hx) as [->|Hin]; [by left|]. right. by right.
Qed.

Lemma add_cell_sorted (c : cell) (row : list cell) :
  StronglySorted lt (row.*1) → StronglySorted lt ((add_cell c row).*1).
Proof.
  induction row as [|d row IH]; cbn [add_cell].
  - intros _. cbn. by repeat constructor.
  - cbn [fmap list_fmap]. intros Hs. apply StronglySorted_inv in Hs as [Hs Hall].
    destruct (decide (c.1 < d.1)) as [Hlt|Hge].
    + cbn [fmap list_fmap]. constructor; [by constructor|].
      constructor; [done|]. eapply Forall_impl; [exact Hall|]. intros; simpl in *; lia.
    + destruct (decide (c.1 = d.1)) as [Heq|Hne].
      * cbn [fmap list_fmap fst]. by constructor.
      * cbn [fmap list_fmap]. constructor; [by apply IH|].
        apply Forall_forall. intros x Hx.
        destruct (add_cell_columns c row x Hx) as [->|Hin]; [simpl; lia|].
        rewrite Forall_forall in Hall. by apply Hall.
Qed.

Lemma StronglySorted_lt_NoDup (l : list nat) : StronglySorted lt l → NoDup l.
Proof.
  induction 1 as [|x l _ IH Hall]; [constructor|].
  apply NoDup_cons. split; [|done]. intros Hx.
  rewrite Forall_forall in Hall. specialize (Hall x Hx). simpl in Hall. lia.
Qed.

Lemma sum_row_NoDup (row : list cell) :
  NoDup ((foldl (λ acc c, add_cell c acc) [] row).*1).
Proof.
  apply StronglySorted_lt_NoDup.
  assert (∀ acc : list cell, StronglySorted lt (acc.*1) →
            StronglySorted lt ((foldl (λ acc c, add_cell c acc) acc row).*1))
    as Hgen; [|apply Hgen; constructor].
  induction row as [|c row IH]; intros acc Hacc; [done|].
  cbn [foldl]. by apply IH, add_cell_sorted.
Qed.

Lemma csr_max_rows_NoDup m :
  Forall (λ row : list cell, NoDup (row.*1)) (csr_rows m) →
  Forall (λ row : list cell, NoDup (row.*1)) (csr_rows (csr_max m).2).
Proof.
  intros Hnd. unfold csr_max. destruct (decide _); [done|].
  destruct (decide _); [done|]. cbv zeta. cbn [snd].
  unfold csr_sum_duplicates. destruct (has_canonical_format m); [done|].
  rewrite csr_rows_of_rows. apply Forall_fmap, Forall_forall.
  intros row _. apply sum_row_NoDup.
Qed.

(** The graph that [igraph_from_sparse_matrix] builds from a distance matrix
    has edge weights in (0, 1]: when the matrix is a well-formed CSR matrix
    without duplicate entries whose stored values are distance codes
    [v >= 1], and [max_value] is defaulted (on a matrix that has no
    dimension 0) or explicit, positive and not below any true distance
    [v - 1], the call returns a graph with one weight per edge, and every
    weight lies in (0, 1]. *)
Theorem distance_graph_weights_in_unit (h : heap) matrix m max_value :
  h !! matrix = Some (Csr m) →
  csr_wf m →
  Forall distance_code (data m) →
  Forall (λ row : list cell, NoDup (row.*1)) (csr_rows m) →
  match max_value with
  | Some mv => Forall (within_max mv) (data m)
  | None => (csr_shape m).1 ≠ 0 ∧ (csr_shape m).2 ≠ 0
  end →
  ∃ g h', igraph_from_sparse_matrix matrix "distance" max_value h = (inr g, h') ∧
          length (es_weight g) = length (es g) ∧
          Forall in_unit (es_weight g).
Proof.
  intros Hr0 Hwf Hcodes0 Hnd0 Hmax.
  assert (∃ h1 m1 mv,
            h1 !! matrix = Some (Csr m1) ∧
            Forall distance_code (data m1) ∧
            Forall (λ row : list cell, NoDup (row.*1)) (csr_rows m1) ∧
            Forall (within_max mv) (data m1) ∧
            _distance_to_connectivity matrix max_value h =
            _distance_to_connectivity matrix (Some mv) h1)
    as (h1 & m1 & mv & Hr & Hcodes & Hnd & Hin & Hrun).
  { destruct max_value as [mv|]; [by exists h, m, mv|].
    rewrite (d2c_run_default _ _ _ Hr0).
    destruct (csr_max m).1 as [e|mv] eqn:Hm.
    - exfalso. apply csr_max_raises in Hm as [_ Hz]. tauto.
    - destruct (csr_max_codes m mv Hwf Hcodes0 Hm) as [Hcodes1 Hin1].
      eexists _, _, mv. split; [apply lookup_insert_eq|].
      split; [done|]. split; [by apply csr_max_rows_NoDup|]. done. }
  clear Hwf Hcodes0 Hnd0 Hmax.
  set (m0 := mk_csr (csr_shape m1) (indptr m1) (indices m1)
               (connectivity_formula mv <$> data m1)).
  set (m' := csr_eliminate_zeros m0).
  eexists _, (<[fresh (dom h1) := Csr m']> h1). split.
  { unfold igraph_from_sparse_matrix.
    rewrite run_bind, (run_tocsr _ _ _ Hr0). cbv beta iota.
    rewrite run_bind. destruct (decide _) as [_|]; [|done].
    rewrite Hrun, (d2c_run_csr _ _ _ _ Hr). cbv beta iota.
    apply run_get_igraph_eq. apply lookup_insert_eq. }
  cbn [es_weight es]. split; [apply length_fmap|].
  assert (csr_rows m' =
          (λ row : list cell, filter (λ c : cell, feqb c.2 zero = false)
                    (prod_map id (connectivity_formula mv) <$> row))
          <$> csr_rows m1) as Hrows.
  { unfold m', csr_eliminate_zeros. rewrite csr_rows_of_rows.
    unfold m0. rewrite (csr_rows_set_data (connectivity_formula mv) m1).
    by rewrite <- list_fmap_compose. }
  apply Forall_fmap, Forall_forall. intros [i j] Hij.
  rewrite csr_nonzero_zip in Hij.
  apply elem_of_join_imap in Hij as (i' & row & Hrow & Hij).
  apply list_elem_of_fmap in Hij as ([j' v] & [= -> ->] & Hc).
  apply list_elem_of_filter in Hc as [Hnz Hc]. cbn [fst snd] in Hnz.
  unfold compose, csr_get. cbn [fst snd].
  change (default [] _) with (default [] (csr_rows m' !! i')).
  rewrite Hrow. cbn [default].
  enough (in_unit (foldl fadd zero ((filter (λ c : cell, c.1 = j') row).*2)))
    as Hgoal by exact Hgoal.
  assert (NoDup (row.*1)) as Hndrow.
  { rewrite Hrows in Hrow. apply list_lookup_fmap_Some in Hrow as (row0 & -> & Hrow0).
    apply filter_fmap_columns_NoDup.
    rewrite Forall_lookup in Hnd. by apply (Hnd _ _ Hrow0). }
  rewrite (filter_column_unique row j' v Hndrow Hc). cbn [fmap list_fmap snd foldl].
  assert (in_unit v) as Hv.
  { pose proof (csr_rows_data m') as Hall.
    rewrite Forall_lookup in Hall. specialize (Hall _ _ Hrow).
    rewrite Forall_forall in Hall. specialize (Hall _ Hc). cbn [snd] in Hall.
    apply csr_eliminate_zeros_data in Hall as [Hv Hnz']. unfold m0 in Hv. cbn [data] in Hv.
    apply list_elem_of_fmap in Hv as (v0 & -> & Hv0).
    rewrite Forall_forall in Hcodes, Hin.
    apply connectivity_formula_unit; auto. }
  destruct v as [q| |]; try done. cbn in Hv |- *. destruct Hv. split; lra.
Qed.

Lemma distance_graph_weights_in_unit_witness :
  ∃ g h', igraph_from_sparse_matrix 1%positive "distance" None csr_store = (inr g, h') ∧
          length (es_weight g) = length (es g) ∧
          Forall in_unit (es_weight g).
Proof.
  refine (distance_graph_weights_in_unit csr_store 1%positive dist_csr None eq_refl
            dist_csr_wf dist_csr_codes _ _).
  - apply (bool_decide_unpack _). vm_compute. exact I.
  - simpl. split; lia.
Defined.

(** ** Every vertex in the box of its component *)

(** The run of [layout_components], given the boxes of the arrangement. *)
Lemma layout_components_run (E : Ext) (graph : Graph) (name arrange : string)
    (pad_x pad_y : float) (comps : list Graph) (sizes : list Z)
    (bbox_fun : list Z → float → float → res (list bbox)) (bboxes : list bbox) :
  argsort_spec (argsort E) →
  decompose_ok E graph →
  layout_ok E graph name →
  sorted_components E graph = inr (comps, sizes) →
  comps ≠ [] →
  bbox_funs E arrange = inr bbox_fun →
  bbox_fun sizes pad_x pad_y = inr bboxes →
  length bboxes = length comps →
  ∃ coords,
    layout_components E graph name arrange pad_x pad_y = inr coords ∧
    length coords = vcount graph ∧
    ∀ i, i < vcount graph →
      ∃ p c b rows j,
        comps !! p = Some c ∧ bboxes !! p = Some b ∧
        _layout_component E c b name = inr rows ∧
        vs c !! j = Some (Some i) ∧
        is_Some (rows !! j) ∧ coords !! i = rows !! j.
Proof.
  intros Hargsort [Hpart Hnonempty] Hlayout Hsorted Hcomps Hfun Hboxes Hlen.
  destruct (sorted_components_inv E Hargsort _ _ _ Hsorted) as (Hperm & _ & _).
  set (n := vcount graph) in *. simpl in Hpart.
  assert (comps ≫= vs ≡ₚ Some <$> seq 0 n) as Hvss by (by rewrite Hperm).
  destruct (vertex_ids_run _ _ Hvss) as (ids & Hids & Hsome & Hidsperm).
  assert (length ids = n) as Hidslen.
  { by rewrite (Permutation_length Hidsperm), length_seq. }
  destruct (argsort_inverse _ _ _ Hargsort Hidsperm) as [Hsorter Hinv].
  set (sorter := argsort E (Z.of_nat <$> ids)) in *.
  destruct (component_layouts_run E name comps bboxes) as (layouts & Hlay & Hrows).
  { rewrite Hperm. unfold layout_ok in Hlayout. simpl in Hlayout.
    rewrite Forall_forall in Hnonempty, Hlayout.
    apply Forall_forall. intros c Hc. split; auto. }
  assert (Forall2 (λ a rows, length a = length rows) (vs <$> comps) layouts) as Hpar.
  { assert (comps = (zip comps bboxes).*1) as Hfst.
    { symmetry. apply fst_zip. rewrite Hlen. done. }
    rewrite Hfst at 1.
    rewrite <- list_fmap_compose. apply Forall2_fmap_l.
    eapply Forall2_impl; [exact Hrows|]. by intros cb rows [_ ?]. }
  assert (length (mjoin layouts) = n) as Hstacked.
  { rewrite <- (join_length_parallel _ _ Hpar), <- list_bind_join.
    by rewrite <- Hsome, length_fmap. }
  assert (layouts ≠ []) as Hne.
  { intros ->. destruct comps as [|c cs]; [done|].
    destruct bboxes as [|b bs]; [simpl in Hlen; lia|]. inversion Hrows. }
  destruct (take_idx_exists (mjoin layouts) sorter) as [coords Hcoords].
  { rewrite Hstacked. by apply Permutation_seq_bound. }
  exists coords.
  assert (layout_components E graph name arrange pad_x pad_y = inr coords) as Hrun.
  { unfold layout_components. rewrite Hsorted. cbn [mbind res_bind].
    rewrite Hids. cbn [mbind res_bind]. rewrite Hfun. cbn [mbind res_bind].
    rewrite Hboxes. cbn [mbind res_bind]. rewrite Hlay. cbn [mbind res_bind].
    destruct layouts; [done|]. cbn [np_vstack mbind res_bind mret res_ret].
    exact Hcoords. }
  split; [done|]. apply take_idx_inr in Hcoords.
  split.
  { rewrite <- (Forall2_length _ _ _ Hcoords).
    by rewrite (Permutation_length Hsorter), length_seq. }
  intros i Hi. destruct (Hinv i Hi) as (k & Hk & Hki).
  destruct (Forall2_lookup_l _ _ _ _ _ Hcoords Hk) as (row & Hrow & Hstk).
  assert (mjoin (vs <$> comps) !! k = Some (Some i)) as Hvk.
  { rewrite <- list_bind_join, <- Hsome, list_lookup_fmap, Hki. done. }
  destruct (join_lookup_parallel _ _ _ _ Hpar Hvk)
    as (p & l1 & rows & j & Hp1 & Hp2 & Hj & Hjoin).
  apply list_lookup_fmap_Some in Hp1 as (c & -> & Hc).
  destruct (Forall2_lookup_r _ _ _ _ _ Hrows Hp2) as ([c' b] & Hcb & Hcomp & _).
  apply lookup_zip_Some in Hcb as [Hc' Hb]. simpl in Hcomp.
  assert (c' = c) as -> by congruence.
  exists p, c, b, rows, j. repeat split; try done.
  - rewrite <- Hjoin, Hstk. eauto.
  - by rewrite Hrow, <- Hjoin.
Qed.

(** With the arrangement ["size"], [layout_components] puts every vertex
    into the box of its component: when argsort and decompose do what their
    libraries document, the layout of every component has one pair of finite
    coordinates per vertex, the paddings are finite and not negative and the
    power operator has finite, non-negative values on the component sizes,
    the call returns one row per vertex, and the row of vertex [i] is a point
    of the box that [_bbox_sorted] assigned to the component that holds
    [i]. *)
Theorem size_layout_vertices_in_boxes (E : Ext) (graph : Graph) (name : string)
    (px py : Q) (side : Z → Q) (comps : list Graph) (sizes : list Z) :
  argsort_spec (argsort E) →
  decompose_ok E graph →
  layout_fin E graph name →
  sorted_components E graph = inr (comps, sizes) →
  comps ≠ [] →
  (0 <= px)%Q → (0 <= py)%Q →
  (∀ n, n ∈ sizes →
        fpow E (of_Z n) (Fin (4 # 5)) = Fin (side n) ∧ (0 <= side n)%Q) →
  ∃ coords,
    layout_components E graph name "size" (Fin px) (Fin py) = inr coords ∧
    length coords = vcount graph ∧
    ∀ i, i < vcount graph →
      ∃ p c b row,
        comps !! p = Some c ∧ Some i ∈ vs c ∧
        _bbox_sorted E sizes (Fin px) (Fin py) !! p = Some b ∧
        coords !! i = Some row ∧ in_box b row.
Proof.
  intros Hargsort Hdec Hfin Hsorted Hne Hpx Hpy Hside.
  destruct (sorted_components_inv E Hargsort _ _ _ Hsorted) as (Hperm & Hsizes & _).
  assert (layout_ok E graph name) as Hlay.
  { unfold layout_ok, layout_fin in *. cbv zeta in *.
    eapply Forall_impl; [exact Hfin|]. intros c (coords & ? & ? & _). eauto. }
  destruct (layout_components_run E graph name "size" (Fin px) (Fin py) comps sizes
              (λ sizes pad_x pad_y, mret (_bbox_sorted E sizes pad_x pad_y))
              (_bbox_sorted E sizes (Fin px) (Fin py))
              Hargsort Hdec Hlay Hsorted Hne eq_refl eq_refl)
    as (coords & Hrun & Hlen & Hrows).
  { rewrite bbox_sorted_shelf, shelf_boxes_length, Hsizes. by rewrite length_fmap. }
  exists coords. split; [done|]. split; [done|].
  intros i Hi.
  destruct (Hrows i Hi) as (p & c & b & rows & j & Hc & Hb & Hlc & Hj & [row Hrow] & Hcoord).
  exists p, c, b, row. split; [done|].
  split; [by eapply list_elem_of_lookup_2|]. split; [done|].
  split; [by rewrite Hcoord|].
  assert (sizes !! p = Some (Z.of_nat (vcount c))) as Hn.
  { by rewrite Hsizes, list_lookup_fmap, Hc. }
  set (n := Z.of_nat (vcount c)) in *.
  rewrite bbox_sorted_shelf in Hb. change (of_Z 0) with (Fin (inject_Z 0)) in Hb.
  destruct (shelf_boxes_position E px py side sizes Hpx Hpy Hside sizes _ _ _ _ _ _
              (reflexivity _) Hn Hb) as (bx & by_ & -> & _).
  assert (n ∈ sizes) as Hin by (by eapply list_elem_of_lookup_2).
  destruct (Hside n Hin) as [_ Hs].
  destruct Hdec as [_ Hnonempty].
  assert (c ∈ decompose E (mk_graph (Some <$> seq 0 (vcount graph)) (es graph)
                             (es_weight graph))) as Hcin.
  { rewrite <- Hperm. by eapply list_elem_of_lookup_2. }
  unfold layout_fin in Hfin. cbv zeta in Hfin.
  rewrite Forall_forall in Hfin, Hnonempty.
  destruct (Hfin c Hcin) as (lcoords & Hl & Hllen & Hlfin).
  unfold _layout_component in Hlc. rewrite Hl in Hlc. cbn [mbind res_bind] in Hlc.
  destruct (rescale_layout_bounds lcoords bx by_ (side n) (side n))
    as (rows' & Hr' & _ & Hbox); [|done..|].
  { intros ->. apply (Hnonempty c Hcin). by rewrite <- Hllen. }
  rewrite Hlc in Hr'. injection Hr' as <-.
  rewrite Forall_lookup in Hbox.
  destruct (Hbox _ _ Hrow) as (a & b' & -> & ?). done.
Qed.

Lemma size_layout_vertices_in_boxes_witness :
  ∃ coords,
    layout_components E_ref graph6 "fr" "size" (Fin 1) (Fin 1) = inr coords ∧
    length coords = vcount graph6 ∧
    ∀ i, i < vcount graph6 →
      ∃ p c b row,
        graph6_components !! p = Some c ∧ Some i ∈ vs c ∧
        _bbox_sorted E_ref [1; 2; 3]%Z (Fin 1) (Fin 1) !! p = Some b ∧
        coords !! i = Some row ∧ in_box b row.
Proof.
  refine (size_layout_vertices_in_boxes E_ref graph6 "fr" 1 1 side_ref
            graph6_components [1; 2; 3]%Z
            (argsort_by_spec false) graph6_decompose_ok _ _ _ _ _ _).
  - unfold layout_fin. vm_compute.
    repeat constructor; (eexists; split; [reflexivity|split; [reflexivity|]]);
      repeat constructor.
  - vm_compute. reflexivity.
  - discriminate.
  - discriminate.
  - discriminate.
  - intros n Hn. repeat (apply elem_of_cons in Hn as [->|Hn]);
      [..|exfalso; revert Hn; apply not_elem_of_nil];
      (split; [by vm_compute|by vm_compute]).
Defined.

(** ** Every stored distance becomes an edge *)

(** With the default [max_value], [igraph_from_sparse_matrix] loses no
    neighbour: for a well-formed CSR matrix of distance codes [v >= 1] in
    canonical format (column indices sorted, no position stored twice) and
    without a dimension 0, the graph has exactly one edge per stored cell,
    between the row and the column of the cell, in storage order. *)
Theorem default_max_keeps_every_edge (h : heap) matrix m :
  h !! matrix = Some (Csr m) →
  csr_wf m →
  Forall distance_code (data m) →
  has_canonical_format m = true →
  (csr_shape m).1 ≠ 0 → (csr_shape m).2 ≠ 0 →
  ∃ g h',
    igraph_from_sparse_matrix matrix "distance" None h = (inr g, h') ∧
    es g = mjoin (imap (λ i row, (λ c : cell, (i, c.1)) <$> row) (csr_rows m)).
Proof.
  intros Hr Hwf Hcodes Hcanon Hrows Hcols.
  destruct (csr_max_default m Hwf Hcodes Hcanon Hrows Hcols) as (mx & Hmax & Hnz).
  set (m0 := mk_csr (csr_shape m) (indptr m) (indices m)
               (connectivity_formula mx <$> data m)).
  assert (_distance_to_connectivity matrix None h =
          (inr (fresh (dom h)), <[fresh (dom h) := Csr m0]> h)) as Hrun.
  { rewrite (d2c_run_default _ _ _ Hr), Hmax. cbn [fst snd].
    rewrite (insert_id h matrix (Csr m) Hr), (d2c_run_csr _ _ _ _ Hr).
    rewrite csr_eliminate_zeros_id; [done| |].
    - destruct Hwf as (H1 & H2 & H3 & H4 & H5 & H6).
      unfold csr_wf; simpl. rewrite !length_fmap. done.
    - simpl. by apply Forall_fmap. }
  eexists _, _. split.
  { unfold igraph_from_sparse_matrix.
    rewrite run_bind, (run_tocsr _ _ _ Hr). cbv beta iota.
    rewrite run_bind. destruct (decide _) as [_|]; [|done].
    rewrite Hrun. cbv beta iota.
    apply run_get_igraph_eq. apply lookup_insert_eq. }
  cbn [es]. rewrite csr_nonzero_zip. unfold m0.
  rewrite (csr_rows_set_data (connectivity_formula mx) m).
  f_equal. rewrite imap_fmap. apply imap_ext. intros i row Hrow. unfold compose.
  rewrite filter_all.
  - rewrite <- list_fmap_compose. apply list_fmap_ext. by intros k [j v] _.
  - apply Forall_fmap.
    pose proof (csr_rows_data m) as Hall.
    rewrite Forall_lookup in Hall. specialize (Hall _ _ Hrow).
    eapply Forall_impl; [exact Hall|]. intros [j v] Hv. cbn.
    rewrite Forall_forall in Hnz. by apply Hnz.
Qed.

Lemma default_max_keeps_every_edge_witness :
  ∃ g h',
    igraph_from_sparse_matrix 1%positive "distance" None csr_store = (inr g, h') ∧
    es g = mjoin (imap (λ i row, (λ c : cell, (i, c.1)) <$> row) (csr_rows dist_csr)).
Proof.
  refine (default_max_keeps_every_edge csr_store 1%positive dist_csr eq_refl
            dist_csr_wf dist_csr_codes eq_refl _ _); simpl; lia.
Defined.

(** ** The context managers of the clonotype network plot *)

(** [clonotype_network] calls scanpy inside [_patch_plot_edges] and
    [_no_matplotlib_warnings]. Whatever the block does - return or raise, and
    whatever it assigns to the two globals meanwhile - it is run with the
    patched [plot_edges], which carries [neighbors_key], and with the logger
    level [ERROR]; its outcome is the outcome of the statement; and
    afterwards [sc.plotting._utils.plot_edges] and the level of the
    matplotlib logger are what they were before. *)
Theorem patches_are_restored {A} (neighbors_key : option string) (body : block A)
    (g : globals) :
  let inside := mk_globals (PatchedPlotEdges neighbors_key) logging_ERROR in
  let run := _patch_plot_edges neighbors_key (_no_matplotlib_warnings body) g in
  run.1 = (body inside).1 ∧
  sc_plot_edges run.2 = sc_plot_edges g ∧
  mpl_level run.2 = mpl_level g.
Proof.
  cbv zeta. unfold _patch_plot_edges, _no_matplotlib_warnings. cbn [sc_plot_edges mpl_level].
  by destruct (body _) as [r g'].
Qed.
